(** * nuqs: [useQueryStates], the update queue and the cross-hook event bus

    A shallow embedding of [packages/nuqs/src/useQueryStates.ts].  The hook
    keeps two refs per instance ([queryRef], [stateRef]) and a React state
    cell ([internalState]); it writes into the module-level update queue
    ([./update-queue]) and talks to its siblings through the module-level
    emitter ([./sync]).  Those two modules and [safeParse] ([./utils]) are
    imported by the hook but are not part of the sources at hand: they are
    modelled from the specification and marked as such.

    JavaScript objects are kept as entry lists in insertion order, because
    every loop of the hook is driven by [Object.keys] / [Object.entries];
    [URLSearchParams] is an entry list too, where duplicates are legal and
    [get] reads the first one. *)

From Stdlib Require Import ZArith String List DecimalString Lia.
From stdpp Require Import base option list strings.

Open Scope string_scope.
Open Scope Z_scope.

(** ** JavaScript values and objects *)

Module JS.

(** The values a query-state can hold.  Numbers are integers here: no
    property below depends on floating point. *)
Inductive jsval : Type :=
| JUndefined
| JNull
| JBool (b : bool)
| JNum (n : Z)
| JStr (s : string).

(** [a ?? b] on values. *)
Definition coalesce (a b : jsval) : jsval :=
  match a with
  | JUndefined | JNull => b
  | _ => a
  end.

(** [a ?? b] where [a] is an optional field ([None] is [undefined]). *)
Definition orElse {A : Type} (a : option A) (b : A) : A :=
  match a with
  | Some x => x
  | None => b
  end.

Definition orOpt {A : Type} (a b : option A) : option A :=
  match a with
  | Some x => Some x
  | None => b
  end.

(** [a === b] on primitives. *)
Definition strictEq (a b : jsval) : bool :=
  match a, b with
  | JUndefined, JUndefined => true
  | JNull, JNull => true
  | JBool x, JBool y => Bool.eqb x y
  | JNum x, JNum y => Z.eqb x y
  | JStr x, JStr y => String.eqb x y
  | _, _ => false
  end.

(** The global [String] function. *)
Definition String (v : jsval) : string :=
  match v with
  | JUndefined => "undefined"
  | JNull => "null"
  | JBool true => "true"
  | JBool false => "false"
  | JNum n => NilZero.string_of_int (Z.to_int n)
  | JStr s => s
  end.

(** A plain object with string keys, as its entries. *)
Definition obj (A : Type) : Type := list (string * A).

(** [o[k]]; [None] is [undefined]. *)
Fixpoint obj_get {A : Type} (o : obj A) (k : string) : option A :=
  match o with
  | [] => None
  | (k', v) :: o' => if String.eqb k' k then Some v else obj_get o' k
  end.

(** [o[k] = v]: an existing key keeps its place, a new one goes last. *)
Fixpoint obj_set {A : Type} (k : string) (v : A) (o : obj A) : obj A :=
  match o with
  | [] => [(k, v)]
  | (k', v') :: o' =>
      if String.eqb k' k then (k', v) :: o' else (k', v') :: obj_set k v o'
  end.

(** [Object.keys(o)] *)
Definition obj_keys {A : Type} (o : obj A) : list string := map fst o.

(** [Object.fromEntries(es)] *)
Definition fromEntries {A : Type} (es : list (string * A)) : obj A :=
  fold_left (fun o e => obj_set (fst e) (snd e) o) es [].

(** [URLSearchParams] *)
Definition URLSearchParams : Type := list (string * string).

Fixpoint sp_get (sp : URLSearchParams) (k : string) : option string :=
  match sp with
  | [] => None
  | (k', v) :: sp' => if String.eqb k' k then Some v else sp_get sp' k
  end.

Definition sp_delete (k : string) (sp : URLSearchParams) : URLSearchParams :=
  List.filter (fun e => negb (String.eqb (fst e) k)) sp.

(** [set] overwrites the first entry of the name and drops the others. *)
Fixpoint sp_set (k v : string) (sp : URLSearchParams) : URLSearchParams :=
  match sp with
  | [] => [(k, v)]
  | (k', v') :: sp' =>
      if String.eqb k' k then (k', v) :: sp_delete k sp'
      else (k', v') :: sp_set k v sp'
  end.

Definition sp_entries (sp : URLSearchParams) : list (string * string) := sp.

(** [cached === query], where [cached] is a property read
    ([string | null | undefined]) and [query] is [string | null]. *)
Definition queryEq (cached : option (option string)) (query : option string)
  : bool :=
  match cached, query with
  | Some None, None => true
  | Some (Some a), Some b => String.eqb a b
  | _, _ => false
  end.

End JS.

Export JS.

Infix "??" := coalesce (at level 45, left associativity).

(** ** Completions and diagnostics

    User-supplied parsers may throw.  An effectful computation yields the
    diagnostics it logged and either a value or the exception thrown. *)

Inductive completion (A : Type) : Type :=
| Normal (a : A)
| Throw (e : string).

Arguments Normal {A} a.
Arguments Throw {A} e.

Inductive Level : Type := LevelDebug | LevelWarn | LevelError.

Record Diagnostic : Type := MkDiagnostic {
  level : Level;
  diagKey : string;
  diagValue : string;
  diagError : string
}.

Definition Eff (A : Type) : Type := (list Diagnostic * completion A)%type.

Definition ret {A : Type} (a : A) : Eff A := ([], Normal a).

Definition throw {A : Type} (e : string) : Eff A := ([], Throw e).

Definition bind {A B : Type} (m : Eff A) (k : A -> Eff B) : Eff B :=
  match m with
  | (d, Normal a) => let (d', r) := k a in ((d ++ d')%list, r)
  | (d, Throw e) => (d, Throw e)
  end.

Definition warn (key value error : string) : Eff unit :=
  ([MkDiagnostic LevelWarn key value error], Normal tt).

(** [try { body } catch (e) { handler(e) }] *)
Definition try_catch {A : Type} (body : Eff A) (handler : string -> Eff A)
  : Eff A :=
  match body with
  | (d, Normal a) => (d, Normal a)
  | (d, Throw e) => let (d', r) := handler e in ((d ++ d')%list, r)
  end.

Declare Scope eff_scope.
Delimit Scope eff_scope with eff.
Notation "'let*' x ':=' m 'in' k" := (bind m (fun x => k))
  (at level 10, x name, m at level 100, k at level 200) : eff_scope.

(** [xs.reduce(f, init)] for an effectful callback. *)
Fixpoint reduce {A B : Type} (f : B -> A -> Eff B) (xs : list A) (init : B)
  : Eff B :=
  match xs with
  | [] => ret init
  | x :: xs' => bind (f init x) (fun acc => reduce f xs' acc)
  end.

(** ** Options ([./defs]) and the key map *)

Inductive HistoryOptions : Type := replace | push.

(** Modelled from the spec: the [Options] type is declared in [./defs],
    which is not among the sources.  Its fields are the ones the hook reads
    (lines 64-69 and 173-198), each of them optional; the spec lists the
    same set ("history, shallow, scroll, throttleMs, clearOnDefault, and a
    scheduling hint").  [startTransition] is a function of React's; only its
    identity matters. *)
Record Options : Type := MkOptions {
  history : option HistoryOptions;
  scroll : option bool;
  shallow : option bool;
  throttleMs : option Z;
  clearOnDefault : option bool;
  startTransition : option nat
}.

Definition noOptions : Options := MkOptions None None None None None None.

(** The hook's second argument after destructuring with its defaults:
    [{ history = 'replace', scroll = false, shallow = true,
       throttleMs = FLUSH_RATE_LIMIT_MS, clearOnDefault = false,
       startTransition }].  [FLUSH_RATE_LIMIT_MS] comes from
    [./update-queue] and stays a parameter. *)
Record HookOptions : Type := MkHookOptions {
  hookHistory : HistoryOptions;
  hookScroll : bool;
  hookShallow : bool;
  hookThrottleMs : Z;
  hookClearOnDefault : bool;
  hookStartTransition : option nat
}.

Definition destructureOptions (FLUSH_RATE_LIMIT_MS : Z) (o : Options)
  : HookOptions :=
  {| hookHistory := orElse (history o) replace;
     hookScroll := orElse (scroll o) false;
     hookShallow := orElse (shallow o) true;
     hookThrottleMs := orElse (throttleMs o) FLUSH_RATE_LIMIT_MS;
     hookClearOnDefault := orElse (clearOnDefault o) false;
     hookStartTransition := startTransition o |}.

Module Parser.

(** [KeyMapValue<Type> = Parser<Type> & Options & { defaultValue?: Type }]
    (lines 20-23).  [Parser] is declared in [./parsers], which is not among
    the sources; the fields are the ones the hook reads: [parse],
    [serialize] and [eq], the last two optional.  [defaultValue] is
    [JUndefined] when the key has none. *)
Record KeyMapValue : Type := MkKeyMapValue {
  parse : string -> completion jsval;
  serialize : option (jsval -> string);
  eq : option (jsval -> jsval -> bool);
  defaultValue : jsval;
  options : Options
}.

Definition withParse (p : KeyMapValue) (f : string -> completion jsval)
  : KeyMapValue :=
  {| parse := f;
     serialize := serialize p;
     eq := eq p;
     defaultValue := defaultValue p;
     options := options p |}.

End Parser.

Abbreviation KeyMapValue := Parser.KeyMapValue.
Abbreviation UseQueryStatesKeysMap := (obj Parser.KeyMapValue).
Abbreviation Values := (obj jsval).
Abbreviation QueryCache := (obj (option string)).

(** ** [safeParse] ([./utils]) *)

(** Modelled from the spec: [safeParse] is imported from [./utils], which is
    not among the sources.  "On parse failure, fall back to null rather than
    throwing, and log the failure as a warning-level diagnostic." *)
Definition safeParse (parse : string -> completion jsval) (value key : string)
  : Eff jsval :=
  try_catch
    (([], parse value) : Eff jsval)
    (fun error => bind (warn key value error) (fun _ => ret JNull)).

(** ** [parseMap] *)

(** [searchParams?.get(key) ?? null] *)
Definition getQuery (searchParams : option URLSearchParams) (key : string)
  : option string :=
  match searchParams with
  | Some sp => sp_get sp key
  | None => None
  end.

(** [cachedQuery && cachedState && cachedQuery[key] === query] *)
Definition cacheHit (cachedQuery : option QueryCache)
    (cachedState : option Values) (key : string) (query : option string)
  : bool :=
  match cachedQuery, cachedState with
  | Some cq, Some _ => queryEq (obj_get cq key) query
  | _, _ => false
  end.

(** [cachedState[key]] once [cachedState] is known to be there. *)
Definition cachedValue (cachedState : option Values) (key : string) : jsval :=
  match cachedState with
  | Some cs => orElse (obj_get cs key) JUndefined
  | None => JUndefined
  end.

(** The callback handed to [reduce].  The accumulator carries [obj] and
    [cachedQuery], which the callback mutates in place. *)
Definition parseMapStep (keyMap : UseQueryStatesKeysMap)
    (searchParams : option URLSearchParams) (cachedState : option Values)
    (acc : Values * option QueryCache) (key : string)
  : Eff (Values * option QueryCache) :=
  let (obj, cachedQuery) := acc in
  match obj_get keyMap key with
  | None => throw "TypeError: cannot destructure keyMap[key]"
  | Some p =>
      let query := getQuery searchParams key in
      if cacheHit cachedQuery cachedState key query then
        ret (obj_set key
               (cachedValue cachedState key ?? Parser.defaultValue p ?? JNull)
               obj,
             cachedQuery)
      else
        (let* value := match query with
                       | None => ret JNull
                       | Some q => safeParse (Parser.parse p) q key
                       end in
         ret (obj_set key (value ?? Parser.defaultValue p ?? JNull) obj,
              match cachedQuery with
              | Some cq => Some (obj_set key query cq)
              | None => None
              end))%eff
  end.

Definition parseMap (keyMap : UseQueryStatesKeysMap)
    (searchParams : option URLSearchParams)
    (cachedQuery : option QueryCache) (cachedState : option Values)
  : Eff (Values * option QueryCache) :=
  reduce (parseMapStep keyMap searchParams cachedState)
         (obj_keys keyMap) ([], cachedQuery).

(** ** The adapter ([./adapters/internal.context]) *)

(** Modelled from the spec: the options of one navigation, "[history]
    (replace|push), [shallow] (whether to bypass a full data reload), and
    [scroll] (whether to reset scroll position)". *)
Record NavOptions : Type := MkNavOptions {
  navHistory : HistoryOptions;
  navShallow : bool;
  navScroll : bool
}.

(** Modelled from the spec: what [useAdapter] returns is declared outside
    the sources.  The adapter "supplies current [searchParams] [...] and an
    [updateUrl(params, options)] operation that commits a full parameter
    set to the navigation history [...]; may expose a [rateLimitFactor]".
    The adapter here owns the URL; the calls [updateUrl] received are kept
    in [navigations]. *)
Record Adapter : Type := MkAdapter {
  searchParams : URLSearchParams;
  rateLimitFactor : option Z;
  navigations : list (URLSearchParams * NavOptions)
}.

(** Modelled from the spec: [updateUrl] "commits a full parameter set to
    the navigation history". *)
Definition updateUrl (search : URLSearchParams) (o : NavOptions) (a : Adapter)
  : Adapter :=
  {| searchParams := search;
     rateLimitFactor := rateLimitFactor a;
     navigations := (navigations a ++ [(search, o)])%list |}.

(** ** The update queue ([./update-queue]) *)

Module UpdateQueue.

(** Modelled from the spec: a Pending Update is "its next serialized
    string value (or a tombstone meaning remove this key), plus the
    navigation options that should apply when it is flushed". *)
Record PendingUpdate : Type := MkPendingUpdate {
  pendingValue : option string;
  pendingOptions : Options
}.

(** Modelled from the spec: the Update Queue State, "the current mapping
    of Query Key -> Pending Update; a cached in-flight result
    (Promise-like handle) representing the next flush outcome; a
    timer/handle governing when the next flush may run; the timestamp
    of the last completed flush".  A Promise is the number it was
    allocated under; [settled] records every resolution, oldest first. *)
Record State : Type := MkState {
  updateQueue : obj PendingUpdate;
  flushPromiseCache : option nat;
  flushTimer : option Z;
  lastFlushTimestamp : Z;
  nextPromise : nat;
  settled : list (nat * URLSearchParams)
}.

(** Modelled from the spec: the queue before the first update call,
    "created lazily on first update call". *)
Definition initial : State :=
  {| updateQueue := [];
     flushPromiseCache := None;
     flushTimer := None;
     lastFlushTimestamp := 0;
     nextPromise := 0%nat;
     settled := [] |}.

(** Modelled from the spec: "merging with previously queued options for
    the same key using latest-wins per field". *)
Definition mergeOptions (latest previous : Options) : Options :=
  {| history := orOpt (history latest) (history previous);
     scroll := orOpt (scroll latest) (scroll previous);
     shallow := orOpt (shallow latest) (shallow previous);
     throttleMs := orOpt (throttleMs latest) (throttleMs previous);
     clearOnDefault :=
       orOpt (clearOnDefault latest) (clearOnDefault previous);
     startTransition :=
       orOpt (startTransition latest) (startTransition previous) |}.

(** Modelled from the spec: "computes the serialized form of value (null
    means delete this key)". *)
Definition serializeOrNull (value : jsval) (serialize : jsval -> string)
  : option string :=
  match value with
  | JNull => None
  | _ => Some (serialize value)
  end.

(** Modelled from the spec: [enqueueQueryStringUpdate] lives in
    [./update-queue].  "Computes the serialized form of value (null means
    delete this key), stores/overwrites the Pending Update for key with
    the serialized value and resolved options [...] and returns the
    serialized string (or null)". *)
Definition enqueueQueryStringUpdate (key : string) (value : jsval)
    (serialize : jsval -> string) (options : Options) (q : State)
  : option string * State :=
  let serializedOrNull := serializeOrNull value serialize in
  let merged :=
    match obj_get (updateQueue q) key with
    | Some previous => mergeOptions options (pendingOptions previous)
    | None => options
    end in
  (serializedOrNull,
   {| updateQueue :=
        obj_set key (MkPendingUpdate serializedOrNull merged) (updateQueue q);
      flushPromiseCache := flushPromiseCache q;
      flushTimer := flushTimer q;
      lastFlushTimestamp := lastFlushTimestamp q;
      nextPromise := nextPromise q;
      settled := settled q |}).

(** Modelled from the spec: the throttle interval of the window.  The
    spec gives each Pending Update its caller-requested interval and
    leaves open how several combine; the largest one is taken, in line
    with "the strongest cross-key requirement applies". *)
Fixpoint throttleInterval (pending : obj PendingUpdate) : Z :=
  match pending with
  | [] => 0
  | [e] => orElse (throttleMs (pendingOptions (snd e))) 0
  | e :: rest =>
      Z.max (orElse (throttleMs (pendingOptions (snd e))) 0)
            (throttleInterval rest)
  end.

(** Modelled from the spec: "arms a timer for
    max(0, throttleInterval * rateLimitFactor - timeSinceLastFlush)". *)
Definition flushDelay (interval factor timeSinceLastFlush : Z) : Z :=
  Z.max 0 (interval * factor - timeSinceLastFlush).

(** Modelled from the spec: [scheduleFlushToURL] lives in
    [./update-queue].  "Returns the cached in-flight Promise if one
    already exists for the current pending window; otherwise creates
    one, arms a timer [...]".  [now] is the clock reading of the call.
    The [updateUrl] argument is the adapter's, of which a world has one;
    the commit the timer runs is [flush] below. *)
Definition scheduleFlushToURL (factor now : Z) (q : State) : nat * State :=
  match flushPromiseCache q with
  | Some p => (p, q)
  | None =>
      let p := nextPromise q in
      (p,
       {| updateQueue := updateQueue q;
          flushPromiseCache := Some p;
          flushTimer :=
            Some (flushDelay (throttleInterval (updateQueue q)) factor
                    (now - lastFlushTimestamp q));
          lastFlushTimestamp := lastFlushTimestamp q;
          nextPromise := S p;
          settled := settled q |})
  end.

(** Modelled from the spec, commit step (b): "push history mode wins over
    replace if any pending update requested push; non-shallow wins over
    shallow if any pending update requested non-shallow".  The scroll
    flag is combined the same way: it is set when any update asked. *)
Definition combinedOptions (pending : obj PendingUpdate) : NavOptions :=
  {| navHistory :=
       if existsb
            (fun e => match history (pendingOptions (snd e)) with
                      | Some push => true
                      | _ => false
                      end) pending
       then push else replace;
     navShallow :=
       negb (existsb
               (fun e => match shallow (pendingOptions (snd e)) with
                         | Some false => true
                         | _ => false
                         end) pending);
     navScroll :=
       existsb
         (fun e => match scroll (pendingOptions (snd e)) with
                   | Some true => true
                   | _ => false
                   end) pending |}.

(** Modelled from the spec, commit step (c): "applies all key/value pairs
    to the current URL's parameter set"; a tombstone removes its key. *)
Definition applyPending (pending : obj PendingUpdate)
    (search : URLSearchParams) : URLSearchParams :=
  fold_left
    (fun sp e =>
       match pendingValue (snd e) with
       | Some v => sp_set (fst e) v sp
       | None => sp_delete (fst e) sp
       end)
    pending search.

(** Modelled from the spec: the commit run when the flush timer fires,
    steps (a) to (f).  Without a cached Promise no timer is armed and
    nothing happens. *)
Definition flush (now : Z) (q : State) (a : Adapter) : State * Adapter :=
  match flushPromiseCache q with
  | None => (q, a)
  | Some p =>
      let pending := updateQueue q in
      let search := applyPending pending (searchParams a) in
      let a' := updateUrl search (combinedOptions pending) a in
      ({| updateQueue := [];
          flushPromiseCache := None;
          flushTimer := None;
          lastFlushTimestamp := now;
          nextPromise := nextPromise q;
          settled := (settled q ++ [(p, searchParams a')])%list |},
       a')
  end.

(** What a Promise has resolved with so far, oldest first. *)
Definition resolutions (q : State) (p : nat) : list URLSearchParams :=
  map snd (List.filter (fun e => Nat.eqb (fst e) p) (settled q)).

End UpdateQueue.

(** ** The cross-hook emitter ([./sync]) *)

(** Modelled from the spec: [CrossHookSyncPayload] is declared in [./sync];
    it carries "the newly resolved typed value (or null) and its serialized
    string form", the two fields the hook writes and reads (lines 121 and
    201-204). *)
Record CrossHookSyncPayload : Type := MkPayload {
  state : jsval;
  query : option string
}.

Module Sync.

(** Modelled from the spec: the emitter of [./sync] is a topic-keyed
    observer registry.  A handler is named by the hook instance that
    registered it; the registry keeps (key, handler) pairs in
    registration order. *)
Definition Emitter : Type := list (string * nat).

(** Modelled from the spec: "subscribe(key, handler): registers handler
    [...]; multiple handlers per key are allowed; order of invocation is
    registration order". *)
Definition on (key : string) (handler : nat) (e : Emitter) : Emitter :=
  (e ++ [(key, handler)])%list.

(** Modelled from the spec: "unsubscribe(key, handler): removes a
    previously registered handler; safe to call even if already removed
    (no-op)". *)
Fixpoint off (key : string) (handler : nat) (e : Emitter) : Emitter :=
  match e with
  | [] => []
  | (k, h) :: e' =>
      if String.eqb k key && Nat.eqb h handler then e'
      else (k, h) :: off key handler e'
  end.

(** Modelled from the spec: the handlers registered for [key] when [emit]
    is called, "snapshot semantics", in registration order. *)
Definition handlers (key : string) (e : Emitter) : list nat :=
  map snd (List.filter (fun s => String.eqb (fst s) key) e).

(** Modelled from the spec: "emit(key, payload): invokes all currently
    registered handlers for key with the payload, synchronously, in the
    calling context (no deferral)"; the handler list is read once.
    [call] runs one handler on the store the handlers close over. *)
Definition emit {S : Type}
    (call : nat -> string -> CrossHookSyncPayload -> S -> S)
    (key : string) (payload : CrossHookSyncPayload) (e : Emitter) (s : S)
  : S :=
  fold_left (fun s h => call h key payload s) (handlers key e) s.

End Sync.

(** ** Hook instances *)

(** What one [useQueryStates] call keeps between renders: its arguments,
    the two refs, the React state cell and the dependency string of the
    [useEffect] that last ran.  The key map is taken to be the same object
    on every render of an instance. *)
Record Binding : Type := MkBinding {
  keyMap : UseQueryStatesKeysMap;
  hookOptions : HookOptions;
  queryRef : QueryCache;
  stateRef : Values;
  internalState : Values;
  effectDeps : option string
}.

Definition unmounted : Binding :=
  {| keyMap := [];
     hookOptions := destructureOptions 0 noOptions;
     queryRef := [];
     stateRef := [];
     internalState := [];
     effectDeps := None |}.

(** The instance behind an id; an id that names none reads as a hook over
    the empty key map. *)
Definition instance (bs : list Binding) (bid : nat) : Binding :=
  match bs !! bid with
  | Some b => b
  | None => unmounted
  end.

(** The handler installed by [useInsertionEffect] for [key] (lines 121-139),
    as it acts on the instance that owns it: it replaces the key in
    [stateRef.current] by way of a fresh object, stores the query in
    [queryRef.current] and calls [updateInternalState] with the new state.
    Handlers exist for the keys of the key map only. *)
Definition syncBinding (key : string) (payload : CrossHookSyncPayload)
    (b : Binding) : Binding :=
  match obj_get (keyMap b) key with
  | None => b
  | Some p =>
      let stateRef' :=
        obj_set key (state payload ?? Parser.defaultValue p ?? JNull)
                (stateRef b) in
      {| keyMap := keyMap b;
         hookOptions := hookOptions b;
         queryRef := obj_set key (query payload) (queryRef b);
         stateRef := stateRef';
         internalState := stateRef';
         effectDeps := effectDeps b |}
  end.

(** Calling the handler of instance [bid] on the store of instances. *)
Definition syncHandler (bid : nat) (key : string)
    (payload : CrossHookSyncPayload) (bs : list Binding) : list Binding :=
  alter (syncBinding key payload) bid bs.

(** ** The world: adapter, queue, emitter and mounted instances *)

Record World : Type := MkWorld {
  adapter : Adapter;
  queue : UpdateQueue.State;
  emitter : Sync.Emitter;
  instances : list Binding;
  console : list Diagnostic
}.

Definition emptyWorld (search : URLSearchParams) : World :=
  {| adapter := MkAdapter search None [];
     queue := UpdateQueue.initial;
     emitter := [];
     instances := [];
     console := [] |}.

(** ** [update], the state updater function returned by the hook *)

(** The first argument of [update]. *)
Inductive StateUpdater : Type :=
| UpdaterFn (f : Values -> Values)
| ClearAll
| Partial (values : Values).

(** Lines 158-165. *)
Definition newStateOf (keyMap : UseQueryStatesKeysMap) (current : Values)
    (stateUpdater : StateUpdater) : Values :=
  match stateUpdater with
  | UpdaterFn f => f current
  | ClearAll => fromEntries (map (fun key => (key, JNull)) (obj_keys keyMap))
  | Partial values => values
  end.

(** Lines 172-181: the value after the clear-on-default test. *)
Definition clearOnDefaultValue (callOptions : Options) (parser : KeyMapValue)
    (h : HookOptions) (value : jsval) : jsval :=
  if orElse (clearOnDefault callOptions)
       (orElse (clearOnDefault (Parser.options parser)) (hookClearOnDefault h))
     && negb (strictEq value JNull)
     && negb (strictEq (Parser.defaultValue parser) JUndefined)
     && orElse (Parser.eq parser) strictEq value (Parser.defaultValue parser)
  then JNull
  else value.

(** Lines 187-199: the options object handed to the queue. *)
Definition resolveOptions (callOptions : Options) (parser : KeyMapValue)
    (h : HookOptions) : Options :=
  {| history :=
       Some (orElse (history callOptions)
               (orElse (history (Parser.options parser)) (hookHistory h)));
     scroll :=
       Some (orElse (scroll callOptions)
               (orElse (scroll (Parser.options parser)) (hookScroll h)));
     shallow :=
       Some (orElse (shallow callOptions)
               (orElse (shallow (Parser.options parser)) (hookShallow h)));
     throttleMs :=
       Some (orElse (throttleMs callOptions)
               (orElse (throttleMs (Parser.options parser))
                  (hookThrottleMs h)));
     clearOnDefault := None;
     startTransition :=
       orOpt (startTransition callOptions)
         (orOpt (startTransition (Parser.options parser))
            (hookStartTransition h)) |}.

(** [queryRef.current[key] = q] *)
Definition writeQuery (key : string) (q : option string) (b : Binding)
  : Binding :=
  {| keyMap := keyMap b;
     hookOptions := hookOptions b;
     queryRef := obj_set key q (queryRef b);
     stateRef := stateRef b;
     internalState := internalState b;
     effectDeps := effectDeps b |}.

Definition setQueryRef (bid : nat) (key : string) (q : option string)
    (bs : list Binding) : list Binding :=
  alter (writeQuery key q) bid bs.

(** [queryRef.current[key] ?? null] on instance [bid]. *)
Definition readQueryRef (bid : nat) (key : string) (bs : list Binding)
  : option string :=
  orElse (obj_get (queryRef (instance bs bid)) key) None.

(** The names [Object.prototype] holds.  A key map is an ordinary object,
    written as an object literal, so reading one of these names off it
    finds the member it inherits. *)
Definition objectPrototype : list string :=
  ["constructor"; "__defineGetter__"; "__defineSetter__"; "hasOwnProperty";
   "__lookupGetter__"; "__lookupSetter__"; "isPrototypeOf";
   "propertyIsEnumerable"; "toString"; "valueOf"; "__proto__";
   "toLocaleString"].

(** An inherited member as the loop of [update] reads it: a function (for
    [__proto__] the prototype object), hence truthy, on which none of
    [defaultValue], [eq], [serialize], [clearOnDefault], [history],
    [shallow], [scroll], [throttleMs] and [startTransition] is defined, and
    whose [parse], not being a function, cannot be called. *)
Definition inheritedMember : KeyMapValue :=
  {| Parser.parse := fun _ => Throw "TypeError: parser.parse is not a function";
     Parser.serialize := None;
     Parser.eq := None;
     Parser.defaultValue := JUndefined;
     Parser.options := noOptions |}.

(** [keyMap[key]] for an arbitrary key (line 168): the own entry, else the
    member inherited from [Object.prototype], else [undefined] ([None]).
    Every value found is an object or a function, so the test [!parser] of
    line 169 holds exactly on [None]. *)
Definition keyMapGet (keyMap : UseQueryStatesKeysMap) (key : string)
  : option KeyMapValue :=
  match obj_get keyMap key with
  | Some parser => Some parser
  | None =>
      if existsb (String.eqb key) objectPrototype
      then Some inheritedMember
      else None
  end.

(** The body of the [for ... of Object.entries(newState)] loop (lines
    167-205).  [keyMap] and [h] are what the closure captured. *)
Definition updateEntry (bid : nat) (keyMap : UseQueryStatesKeysMap)
    (h : HookOptions) (callOptions : Options) (w : World)
    (entry : string * jsval) : World :=
  let (key, value) := entry in
  match keyMapGet keyMap key with
  | None => w
  | Some parser =>
      let value := clearOnDefaultValue callOptions parser h value in
      let (serialized, queue') :=
        UpdateQueue.enqueueQueryStringUpdate key value
          (orElse (Parser.serialize parser) String)
          (resolveOptions callOptions parser h) (queue w) in
      let instances' := setQueryRef bid key serialized (instances w) in
      {| adapter := adapter w;
         queue := queue';
         emitter := emitter w;
         instances :=
           Sync.emit syncHandler key
             {| state := value; query := readQueryRef bid key instances' |}
             (emitter w) instances';
         console := console w |}
  end.

(** [update(stateUpdater, callOptions)] of instance [bid], called when the
    clock reads [now]; returns the Promise of [scheduleFlushToURL]. *)
Definition update (bid : nat) (stateUpdater : StateUpdater)
    (callOptions : Options) (now : Z) (w : World) : nat * World :=
  let b := instance (instances w) bid in
  let newState := newStateOf (keyMap b) (stateRef b) stateUpdater in
  let w' :=
    fold_left (updateEntry bid (keyMap b) (hookOptions b) callOptions)
              newState w in
  let (p, queue') :=
    UpdateQueue.scheduleFlushToURL
      (orElse (rateLimitFactor (adapter w')) 1) now (queue w') in
  (p,
   {| adapter := adapter w';
      queue := queue';
      emitter := emitter w';
      instances := instances w';
      console := console w' |}).

(** ** Rendering an instance *)

(** Lines 81-83: [queryRef] is replaced by the URL's entries whenever it
    does not hold as many keys as the key map. *)
Definition initQueryRef (keyMap : UseQueryStatesKeysMap)
    (initialSearchParams : URLSearchParams) (queryRef : QueryCache)
  : QueryCache :=
  if Nat.eqb (length (obj_keys queryRef)) (length (obj_keys keyMap))
  then queryRef
  else fromEntries
         (map (fun e => (fst e, Some (snd e)))
              (sp_entries initialSearchParams)).

(** Lines 107-109: the dependency of the [useEffect];
    [join] prints [undefined] as the empty string. *)
Definition depsOf (keyMap : UseQueryStatesKeysMap)
    (initialSearchParams : URLSearchParams) : string :=
  String.concat "&"
    (map (fun key => orElse (sp_get initialSearchParams key) "")
         (obj_keys keyMap)).

(** What a caller of [parseMap] is left with: the state returned and the
    cache as mutated; when [parseMap] throws the caller's effect is
    abandoned and both stay as they were. *)
Definition parsed (r : Eff (Values * option QueryCache))
    (state0 : Values) (cache0 : QueryCache) : Values * QueryCache :=
  match snd r with
  | Normal (st, Some cq) => (st, cq)
  | Normal (st, None) => (st, cache0)
  | Throw _ => (state0, cache0)
  end.

(** Lines 98-110: the [useEffect], run when its dependency changed. *)
Definition runEffect (search : URLSearchParams) (b : Binding)
  : Binding * list Diagnostic :=
  let deps := depsOf (keyMap b) search in
  if bool_decide (effectDeps b = Some deps) then (b, [])
  else
    let r := parseMap (keyMap b) (Some search)
               (Some (queryRef b)) (Some (stateRef b)) in
    let (st, cq) := parsed r (internalState b) (queryRef b) in
    ({| keyMap := keyMap b;
        hookOptions := hookOptions b;
        queryRef := cq;
        stateRef := stateRef b;
        internalState := st;
        effectDeps := Some deps |},
     fst r).

(** One render of a mounted instance, with the effects it schedules. *)
Definition renderBinding (search : URLSearchParams) (b : Binding)
  : Binding * list Diagnostic :=
  runEffect search
    {| keyMap := keyMap b;
       hookOptions := hookOptions b;
       queryRef := initQueryRef (keyMap b) search (queryRef b);
       stateRef := stateRef b;
       internalState := internalState b;
       effectDeps := effectDeps b |}.

Definition render (bid : nat) (w : World) : World :=
  match instances w !! bid with
  | None => w
  | Some b =>
      let (b', d) := renderBinding (searchParams (adapter w)) b in
      {| adapter := adapter w;
         queue := queue w;
         emitter := emitter w;
         instances := <[bid := b']> (instances w);
         console := (console w ++ d)%list |}
  end.

(** The first render of a new instance: [useState] runs [parseMap] without
    caches (lines 85-88), [stateRef] starts as that state (line 90), the
    insertion effect subscribes one handler per key (lines 144-147), then
    the [useEffect] runs. *)
Definition mount (km : UseQueryStatesKeysMap) (h : HookOptions) (w : World)
  : World :=
  let search := searchParams (adapter w) in
  let r := parseMap km (Some search) None None in
  let (st, _) := parsed r [] [] in
  let bid := length (instances w) in
  let (b, d) :=
    runEffect search
      {| keyMap := km;
         hookOptions := h;
         queryRef := initQueryRef km search [];
         stateRef := st;
         internalState := st;
         effectDeps := None |} in
  {| adapter := adapter w;
     queue := queue w;
     emitter :=
       fold_left (fun e key => Sync.on key bid e) (obj_keys km) (emitter w);
     instances := (instances w ++ [b])%list;
     console := (console w ++ fst r ++ d)%list |}.

(** The cleanup of the insertion effect (lines 148-153). *)
Definition unmount (bid : nat) (w : World) : World :=
  {| adapter := adapter w;
     queue := queue w;
     emitter :=
       fold_left (fun e key => Sync.off key bid e)
                 (obj_keys (keyMap (instance (instances w) bid))) (emitter w);
     instances := instances w;
     console := console w |}.

(** The flush timer fires. *)
Definition flush (now : Z) (w : World) : World :=
  let (queue', adapter') := UpdateQueue.flush now (queue w) (adapter w) in
  {| adapter := adapter';
     queue := queue';
     emitter := emitter w;
     instances := instances w;
     console := console w |}.

(** The URL changes from outside (back and forward navigation, a link). *)
Definition navigate (search : URLSearchParams) (w : World) : World :=
  {| adapter :=
       {| searchParams := search;
          rateLimitFactor := rateLimitFactor (adapter w);
          navigations := navigations (adapter w) |};
     queue := queue w;
     emitter := emitter w;
     instances := instances w;
     console := console w |}.

(** ** Runs *)

Inductive Action : Type :=
| Mount (km : UseQueryStatesKeysMap) (h : HookOptions)
| Unmount (bid : nat)
| Render (bid : nat)
| Update (bid : nat) (stateUpdater : StateUpdater) (callOptions : Options)
         (now : Z)
| Flush (now : Z)
| Navigate (search : URLSearchParams).

(** One step; an [Update] also yields the Promise it returned. *)
Definition step (a : Action) (w : World) : option nat * World :=
  match a with
  | Mount km h => (None, mount km h w)
  | Unmount bid => (None, unmount bid w)
  | Render bid => (None, render bid w)
  | Update bid stateUpdater callOptions now =>
      let (p, w') := update bid stateUpdater callOptions now w in (Some p, w')
  | Flush now => (None, flush now w)
  | Navigate search => (None, navigate search w)
  end.

(** A run, with the Promises returned along the way, oldest first. *)
Fixpoint run (acts : list Action) (w : World) : list nat * World :=
  match acts with
  | [] => ([], w)
  | a :: acts' =>
      let (r, w') := step a w in
      let (ps, w'') := run acts' w' in
      (match r with Some p => p :: ps | None => ps end, w'')
  end.

Definition isFlush (a : Action) : bool :=
  match a with
  | Flush _ => true
  | _ => false
  end.

(** ** Auxiliary definitions for the statements below *)

(** What [parseMap] computes for one key taken alone: the branch of the
    reducer for [key], without the accumulator. *)
Definition resolveKey (p : KeyMapValue) (searchParams : option URLSearchParams)
    (cachedQuery : option QueryCache) (cachedState : option Values)
    (key : string) : Eff jsval :=
  let query := getQuery searchParams key in
  if cacheHit cachedQuery cachedState key query then
    ret (cachedValue cachedState key ?? Parser.defaultValue p ?? JNull)
  else
    bind match query with
         | None => ret JNull
         | Some q => safeParse (Parser.parse p) q key
         end
         (fun value => ret (value ?? Parser.defaultValue p ?? JNull)).

(** The query cache after [parseMap] went over the keys [done]: it agrees
    with the URL on those and is untouched elsewhere. *)
Definition cacheAfter (cq cq' : option QueryCache) (sp : option URLSearchParams)
    (done : list string) : Prop :=
  match cq, cq' with
  | Some c, Some c' =>
      forall k, obj_get c' k =
                if in_dec String.string_dec k done
                then Some (getQuery sp k) else obj_get c k
  | None, None => True
  | _, _ => False
  end.

(** What the loop of [update] does to the queue for one entry. *)
Definition enqueueEntry (keyMap : UseQueryStatesKeysMap) (h : HookOptions)
    (callOptions : Options) (q : UpdateQueue.State) (entry : string * jsval)
  : UpdateQueue.State :=
  match keyMapGet keyMap (fst entry) with
  | None => q
  | Some parser =>
      snd (UpdateQueue.enqueueQueryStringUpdate (fst entry)
             (clearOnDefaultValue callOptions parser h (snd entry))
             (orElse (Parser.serialize parser) String)
             (resolveOptions callOptions parser h) q)
  end.

(** The serialized form the queue computes for a value. *)
Definition serializedOf (parser : KeyMapValue) (value : jsval) : option string :=
  UpdateQueue.serializeOrNull value (orElse (Parser.serialize parser) String).

(** [(k, v)] is the entry of [k] that a loop over [es] meets last.  For the
    entries of an object, whose keys are distinct, this is membership. *)
Definition lastEntry (es : Values) (k : string) (v : jsval) : Prop :=
  exists pre post, es = (pre ++ (k, v) :: post)%list /\ ~ In k (obj_keys post).

(** What one turn of the loop of [update] does to one instance.  [self]
    tells whether the instance is the one whose [update] runs (it then
    writes its own [queryRef]); [e] is the emitter, [i] the instance's
    handler. *)
Definition entryOn (self : bool) (e : Sync.Emitter) (i : nat)
    (km : UseQueryStatesKeysMap) (h : HookOptions) (callOptions : Options)
    (b : Binding) (entry : string * jsval) : Binding :=
  match keyMapGet km (fst entry) with
  | None => b
  | Some parser =>
      let value := clearOnDefaultValue callOptions parser h (snd entry) in
      let serialized := serializedOf parser value in
      let b1 := if self then writeQuery (fst entry) serialized b else b in
      if in_dec Nat.eq_dec i (Sync.handlers (fst entry) e)
      then syncBinding (fst entry) {| state := value; query := serialized |} b1
      else b1
  end.

(** One call of [enqueueQueryStringUpdate], as its arguments. *)
Record EnqueueCall : Type := MkEnqueueCall {
  callKey : string;
  callValue : jsval;
  callSerialize : jsval -> string;
  callQueueOptions : Options
}.

(** A sequence of [enqueueQueryStringUpdate] calls, in order. *)
Definition enqueueAll (calls : list EnqueueCall) (q : UpdateQueue.State)
  : UpdateQueue.State :=
  fold_left
    (fun q c =>
       snd (UpdateQueue.enqueueQueryStringUpdate (callKey c) (callValue c)
              (callSerialize c) (callQueueOptions c) q))
    calls q.

(** Promise bookkeeping of the queue: the cached Promise is allocated and
    not yet resolved, and every resolved Promise was allocated. *)
Definition wfPromises (q : UpdateQueue.State) : Prop :=
  (forall p, UpdateQueue.flushPromiseCache q = Some p ->
             Nat.lt p (UpdateQueue.nextPromise q) /\
             ~ In p (map fst (UpdateQueue.settled q))) /\
  (forall p, In p (map fst (UpdateQueue.settled q)) ->
             Nat.lt p (UpdateQueue.nextPromise q)).

(** The Promise the next call of [scheduleFlushToURL] returns. *)
Definition nextHandle (q : UpdateQueue.State) : nat :=
  orElse (UpdateQueue.flushPromiseCache q) (UpdateQueue.nextPromise q).

(** A Promise that was allocated and is no longer the cached one. *)
Definition retired (q : UpdateQueue.State) (p : nat) : Prop :=
  Nat.lt p (UpdateQueue.nextPromise q) /\
  UpdateQueue.flushPromiseCache q <> Some p.

(** A world whose queue holds at most one Pending Update per key and whose
    Promise bookkeeping is sound. *)
Definition wfWorld (w : World) : Prop :=
  NoDup (obj_keys (UpdateQueue.updateQueue (queue w))) /\
  wfPromises (queue w).


(** The instance was last rendered against [search]: its [useEffect] has
    run for the dependency that [search] gives. *)
Definition inSync (b : Binding) (search : URLSearchParams) : Prop :=
  effectDeps b = Some (depsOf (keyMap b) search).

(** The parser reads the committed query back as [value], up to the key's
    default. *)
Definition readsBack (p : KeyMapValue) (committed : option string)
    (value : jsval) : Prop :=
  forall s, committed = Some s ->
    exists x, Parser.parse p s = Normal x /\
              x ?? Parser.defaultValue p ?? JNull =
              value ?? Parser.defaultValue p ?? JNull.


(** The entry passes the test of lines 168-171: [keyMap[key]] is there,
    as an own entry or as a member inherited from [Object.prototype]. *)
Definition managed (km : UseQueryStatesKeysMap) (entry : string * jsval) : bool :=
  match keyMapGet km (fst entry) with
  | Some _ => true
  | None => false
  end.

Definition isUpdate (a : Action) : bool :=
  match a with
  | Update _ _ _ _ => true
  | _ => false
  end.

(** What lines 237-238 give a key on a cache miss: the parsed query, else
    the default, else null; a query the parser rejects counts as null. *)
Definition parsedOrDefault (p : KeyMapValue) (query : option string) : jsval :=
  match query with
  | None => Parser.defaultValue p ?? JNull
  | Some q =>
      match Parser.parse p q with
      | Normal x => x ?? Parser.defaultValue p ?? JNull
      | Throw _ => Parser.defaultValue p ?? JNull
      end
  end.

(** Parsers and worlds for the concrete instances. *)
Module Examples.

Definition parseAsInteger : KeyMapValue :=
  {| Parser.parse := fun s =>
       match NilZero.int_of_string s with
       | Some i => Normal (JNum (Z.of_int i))
       | None => Normal JNull
       end;
     Parser.serialize := None;
     Parser.eq := None;
     Parser.defaultValue := JUndefined;
     Parser.options := noOptions |}.

Definition parseAsString : KeyMapValue :=
  {| Parser.parse := fun s => Normal (JStr s);
     Parser.serialize := None;
     Parser.eq := None;
     Parser.defaultValue := JUndefined;
     Parser.options := noOptions |}.

(** A parser that rejects every input by throwing. *)
Definition parseAsNever : KeyMapValue :=
  Parser.withParse parseAsString (fun s => Throw ("cannot parse " ++ s)).

Definition withDefault (p : KeyMapValue) (d : jsval) : KeyMapValue :=
  {| Parser.parse := Parser.parse p;
     Parser.serialize := Parser.serialize p;
     Parser.eq := Parser.eq p;
     Parser.defaultValue := d;
     Parser.options := Parser.options p |}.

Definition withOptions (p : KeyMapValue) (o : Options) : KeyMapValue :=
  {| Parser.parse := Parser.parse p;
     Parser.serialize := Parser.serialize p;
     Parser.eq := Parser.eq p;
     Parser.defaultValue := Parser.defaultValue p;
     Parser.options := o |}.


Definition defaults : HookOptions := destructureOptions 50 noOptions.

End Examples.

(** The soundness of a concrete world whose queue is idle, by evaluation. *)
Ltac idle_world :=
  split;
  [ vm_compute; constructor
  | split; vm_compute; [ discriminate | tauto ] ].

(** * Properties *)

(** ** Objects and search parameters *)

Section ObjectFacts.

Context {A : Type}.
Implicit Types (o : obj A) (k : string) (v : A).

Lemma obj_get_set_eq o k v : obj_get (obj_set k v o) k = Some v.
Proof.
  induction o as [|[k' v'] o IH]; simpl.
  - now rewrite String.eqb_refl.
  - destruct (String.eqb k' k) eqn:E; simpl; rewrite E; auto.
Qed.

Lemma obj_get_set_ne o k k' v :
  k <> k' -> obj_get (obj_set k v o) k' = obj_get o k'.
Proof.
  intros Hne. induction o as [|[k0 v0] o IH]; simpl.
  - destruct (String.eqb_spec k k'); congruence.
  - destruct (String.eqb_spec k0 k) as [->|Hk]; simpl.
    + destruct (String.eqb_spec k k'); congruence.
    + destruct (String.eqb_spec k0 k'); auto.
Qed.

Lemma obj_get_set o k k' v :
  obj_get (obj_set k v o) k' =
  if String.eqb k k' then Some v else obj_get o k'.
Proof.
  destruct (String.eqb_spec k k') as [->|Hne].
  - apply obj_get_set_eq.
  - now apply obj_get_set_ne.
Qed.

Lemma obj_get_Some_In o k v : obj_get o k = Some v -> In k (obj_keys o).
Proof.
  induction o as [|[k' v'] o IH]; simpl; [discriminate|].
  destruct (String.eqb_spec k' k); auto.
Qed.

Lemma obj_get_In o k : In k (obj_keys o) -> exists v, obj_get o k = Some v.
Proof.
  induction o as [|[k' v'] o IH]; simpl; [tauto|].
  intros [->|Hin].
  - rewrite String.eqb_refl. eauto.
  - destruct (String.eqb k' k); eauto.
Qed.

Lemma obj_get_None o k : ~ In k (obj_keys o) -> obj_get o k = None.
Proof.
  intros Hn. destruct (obj_get o k) eqn:E; [|reflexivity].
  exfalso. eauto using obj_get_Some_In.
Qed.

Lemma obj_keys_set_In o k v :
  In k (obj_keys o) -> obj_keys (obj_set k v o) = obj_keys o.
Proof.
  induction o as [|[k' v'] o IH]; simpl; [tauto|].
  destruct (String.eqb_spec k' k) as [->|Hne]; simpl; [reflexivity|].
  intros [?|Hin]; [congruence|]. f_equal. auto.
Qed.

Lemma obj_keys_set_fresh o k v :
  ~ In k (obj_keys o) -> obj_keys (obj_set k v o) = (obj_keys o ++ [k])%list.
Proof.
  induction o as [|[k' v'] o IH]; simpl; [reflexivity|].
  intros Hn. destruct (String.eqb_spec k' k) as [->|Hne]; [tauto|].
  simpl. f_equal. apply IH. tauto.
Qed.

(** Writing a property never duplicates a key. *)
Lemma obj_set_NoDup o k v :
  NoDup (obj_keys o) -> NoDup (obj_keys (obj_set k v o)).
Proof.
  intros Hnd. destruct (in_dec String.string_dec k (obj_keys o)) as [Hin|Hn].
  - now rewrite obj_keys_set_In.
  - rewrite obj_keys_set_fresh by assumption.
    apply NoDup_app. repeat split; auto.
    + intros x Hx Hx'. apply list_elem_of_In in Hx.
      apply list_elem_of_singleton in Hx'. congruence.
    + apply NoDup_singleton.
Qed.

End ObjectFacts.

Lemma queryEq_true (cached : option (option string)) (query : option string) :
  queryEq cached query = true <-> cached = Some query.
Proof.
  destruct cached as [[a|]|], query as [b|]; simpl;
    try (split; [discriminate|intros [=]]); try (split; congruence).
  rewrite String.eqb_eq. split; congruence.
Qed.

Lemma coalesce_idem (x d : jsval) : (x ?? d ?? JNull) ?? d ?? JNull = x ?? d ?? JNull.
Proof. destruct x, d; reflexivity. Qed.

(** ** [parseMap] *)

Lemma safeParse_cases (parse : string -> completion jsval) (value key : string) :
  match parse value with
  | Normal v => safeParse parse value key = ([], Normal v)
  | Throw e =>
      safeParse parse value key =
      ([MkDiagnostic LevelWarn key value e], Normal JNull)
  end.
Proof. unfold safeParse. destruct (parse value); reflexivity. Qed.

Lemma safeParse_normal (parse : string -> completion jsval) (value key : string) :
  exists d v, safeParse parse value key = (d, Normal v).
Proof.
  pose proof (safeParse_cases parse value key) as H.
  destruct (parse value); eauto.
Qed.

Lemma resolveKey_normal p sp cq cs key :
  exists d v, resolveKey p sp cq cs key = (d, Normal v).
Proof.
  unfold resolveKey. destruct (cacheHit cq cs key (getQuery sp key)).
  - unfold ret. eauto.
  - destruct (getQuery sp key) as [q|]; simpl.
    + destruct (safeParse_normal (Parser.parse p) q key) as (d & v & ->).
      simpl. eauto.
    + eauto.
Qed.

(** The reducer step in terms of [resolveKey]. *)
Lemma parseMapStep_resolveKey keyMap sp cs o cq key p d v :
  obj_get keyMap key = Some p ->
  resolveKey p sp cq cs key = (d, Normal v) ->
  parseMapStep keyMap sp cs (o, cq) key =
  (d, Normal (obj_set key v o,
              if cacheHit cq cs key (getQuery sp key) then cq
              else match cq with
                   | Some c => Some (obj_set key (getQuery sp key) c)
                   | None => None
                   end)).
Proof.
  intros Hp. unfold parseMapStep, resolveKey. rewrite Hp.
  destruct (cacheHit cq cs key (getQuery sp key)).
  - unfold ret. intros [= <- <-]. reflexivity.
  - destruct (getQuery sp key) as [q|]; simpl.
    + destruct (safeParse_normal (Parser.parse p) q key) as (d0 & v0 & ->).
      simpl. intros [= <- <-]. reflexivity.
    + intros [= <- <-]. reflexivity.
Qed.

(** [resolveKey] reads the cached query of its own key only. *)
Lemma resolveKey_cache_ext p sp cq cq' cs key :
  match cq, cq' with
  | Some c, Some c' => obj_get c key = obj_get c' key
  | None, None => True
  | _, _ => False
  end ->
  resolveKey p sp cq cs key = resolveKey p sp cq' cs key.
Proof.
  unfold resolveKey, cacheHit.
  destruct cq as [c|], cq' as [c'|]; try tauto.
  intros ->. reflexivity.
Qed.

Lemma parseMap_reduce keyMap sp cs ks :
  forall o cq,
    NoDup ks ->
    (forall k, In k ks -> In k (obj_keys keyMap)) ->
    exists o' cq' d,
      reduce (parseMapStep keyMap sp cs) ks (o, cq) = (d, Normal (o', cq')) /\
      cacheAfter cq cq' sp ks /\
      (forall k, ~ In k ks -> obj_get o' k = obj_get o k) /\
      (forall k p, In k ks -> obj_get keyMap k = Some p ->
         exists dk v, resolveKey p sp cq cs k = (dk, Normal v) /\
                      obj_get o' k = Some v /\
                      (forall x, In x dk -> In x d)).
Proof.
  induction ks as [|k0 ks IH]; intros o cq Hnd Hin.
  - exists o, cq, []. simpl. repeat split; try tauto.
    unfold cacheAfter. destruct cq; auto.
  - apply NoDup_cons in Hnd as [Hk0 Hnd].
    rewrite list_elem_of_In in Hk0.
    destruct (obj_get_In keyMap k0) as [p0 Hp0]; [apply Hin; now left|].
    destruct (resolveKey_normal p0 sp cq cs k0) as (d0 & v0 & Hr0).
    cbn [reduce]. rewrite (parseMapStep_resolveKey _ _ _ _ _ _ _ _ _ Hp0 Hr0).
    set (cq1 := if cacheHit cq cs k0 (getQuery sp k0) then cq else _).
    assert (Hcq1 : cacheAfter cq cq1 sp [k0]).
    { unfold cacheAfter, cq1, cacheHit. destruct cq as [c|]; [|now destruct cs].
      assert (Hset : forall k,
                 obj_get (obj_set k0 (getQuery sp k0) c) k =
                 if in_dec String.string_dec k [k0]
                 then Some (getQuery sp k) else obj_get c k).
      { intros k. rewrite obj_get_set.
        destruct (String.eqb_spec k0 k) as [<-|Hne];
          destruct (in_dec _ _ _) as [[?|[]]|Hn]; simpl in *;
          try tauto; congruence. }
      destruct cs as [s|]; [|exact Hset].
      destruct (queryEq (obj_get c k0) (getQuery sp k0)) eqn:E; [|exact Hset].
      apply queryEq_true in E. intros k.
      destruct (in_dec String.string_dec k [k0]) as [[<-|[]]|]; auto. }
    destruct (IH (obj_set k0 v0 o) cq1 Hnd) as (o' & cq' & d & Hred & Hc & Ho & Hk).
    { intros k Hk. apply Hin. now right. }
    unfold bind. rewrite Hred. exists o', cq', (d0 ++ d)%list.
    split; [reflexivity|]. split; [|split].
    + unfold cacheAfter in *. destruct cq as [c|], cq1 as [c1|], cq' as [c'|];
        try tauto.
      intros k. rewrite Hc, Hcq1.
      destruct (in_dec String.string_dec k ks) as [H1|H1],
        (in_dec String.string_dec k [k0]) as [H2|H2],
        (in_dec String.string_dec k (k0 :: ks)) as [H3|H3];
        simpl in *; try reflexivity; tauto.
    + intros k Hn. rewrite Ho by (simpl in Hn; tauto).
      apply obj_get_set_ne. simpl in Hn. intros ->. tauto.
    + intros k p [<-|Hink] Hp.
      * rewrite Hp0 in Hp. injection Hp as <-.
        exists d0, v0. split; [assumption|]. split.
        -- rewrite Ho by assumption. apply obj_get_set_eq.
        -- intros x Hx. apply in_or_app. now left.
      * destruct (Hk k p Hink Hp) as (dk & v & Hr & Hv & Hd).
        exists dk, v. split; [|split; [assumption|]].
        -- rewrite <- Hr. apply resolveKey_cache_ext.
           unfold cacheAfter in Hcq1. destruct cq as [c|], cq1 as [c1|]; try tauto.
           rewrite Hcq1.
           destruct (in_dec String.string_dec k [k0]) as [[<-|[]]|]; tauto.
        -- intros x Hx. apply in_or_app. right. auto.
Qed.

(** [parseMap] returns normally; for a key map without repeated keys each
    key gets the value [resolveKey] computes for it from the caches the
    call was given, and the cache handed in ends up agreeing with the URL
    on every managed key. *)
Lemma parseMap_lookup keyMap sp cq cs :
  NoDup (obj_keys keyMap) ->
  exists st cq' d,
    parseMap keyMap sp cq cs = (d, Normal (st, cq')) /\
    cacheAfter cq cq' sp (obj_keys keyMap) /\
    (forall k, ~ In k (obj_keys keyMap) -> obj_get st k = None) /\
    (forall k p, obj_get keyMap k = Some p ->
       exists dk v, resolveKey p sp cq cs k = (dk, Normal v) /\
                    obj_get st k = Some v /\
                    (forall x, In x dk -> In x d)).
Proof.
  intros Hnd. unfold parseMap.
  destruct (parseMap_reduce keyMap sp cs (obj_keys keyMap) [] cq Hnd)
    as (o' & cq' & d & Hred & Hc & Ho & Hk); [auto|].
  exists o', cq', d. repeat split; auto.
  intros k p Hp. apply Hk; eauto using obj_get_Some_In.
Qed.

(** [parseMap] never throws, whatever the key map. *)
Lemma parseMap_normal keyMap sp cq cs :
  exists st cq' d, parseMap keyMap sp cq cs = (d, Normal (st, cq')).
Proof.
  unfold parseMap.
  assert (H : forall ks o c, (forall k, In k ks -> In k (obj_keys keyMap)) ->
            exists st cq' d,
              reduce (parseMapStep keyMap sp cs) ks (o, c) = (d, Normal (st, cq'))).
  { induction ks as [|k0 ks IH]; intros o c Hin; cbn [reduce].
    - unfold ret. eauto.
    - destruct (obj_get_In keyMap k0) as [p0 Hp0]; [apply Hin; now left|].
      destruct (resolveKey_normal p0 sp c cs k0) as (d0 & v0 & Hr0).
      rewrite (parseMapStep_resolveKey _ _ _ _ _ _ _ _ _ Hp0 Hr0).
      edestruct IH as (st & cq' & d & Hred);
        [intros k Hk; apply Hin; now right|].
      unfold bind. rewrite Hred. eauto. }
  apply H. auto.
Qed.

Lemma obj_keys_set_present {A : Type} (o : obj A) (k : string) (v v' : A) :
  obj_get o k = Some v -> obj_keys (obj_set k v' o) = obj_keys o.
Proof. intros H. apply obj_keys_set_In. eauto using obj_get_Some_In. Qed.

(** Two runs of [parseMap] over key maps that differ in the entry of [key]
    only give every other key the same value. *)
Lemma parseMap_other_keys keyMap sp cq cs key p p' st st' cq1 cq2 d d' :
  NoDup (obj_keys keyMap) ->
  obj_get keyMap key = Some p ->
  parseMap keyMap sp cq cs = (d, Normal (st, cq1)) ->
  parseMap (obj_set key p' keyMap) sp cq cs = (d', Normal (st', cq2)) ->
  forall key', key' <> key -> obj_get st' key' = obj_get st key'.
Proof.
  intros Hnd Hp Hrun Hrun' key' Hne.
  assert (Hkeys : obj_keys (obj_set key p' keyMap) = obj_keys keyMap)
    by eauto using obj_keys_set_present.
  destruct (parseMap_lookup keyMap sp cq cs Hnd)
    as (s1 & c1 & d1 & E1 & _ & Hout1 & Hin1).
  destruct (parseMap_lookup (obj_set key p' keyMap) sp cq cs)
    as (s2 & c2 & d2 & E2 & _ & Hout2 & Hin2); [now rewrite Hkeys|].
  rewrite Hrun in E1. rewrite Hrun' in E2.
  injection E1 as <- <- <-. injection E2 as <- <- <-.
  destruct (obj_get keyMap key') as [p0|] eqn:Hp0.
  - destruct (Hin1 key' p0 Hp0) as (dk & v & Hr & Hv & _).
    destruct (Hin2 key' p0) as (dk' & v' & Hr' & Hv' & _).
    { rewrite obj_get_set_ne by congruence. assumption. }
    rewrite Hv, Hv'. congruence.
  - assert (Hn : ~ In key' (obj_keys keyMap)).
    { intros Hin. apply obj_get_In in Hin as [? ?]. congruence. }
    rewrite Hout1 by assumption. rewrite Hout2; [reflexivity|].
    now rewrite Hkeys.
Qed.

(** C8.  State derivation is memoized per key.  For a managed key whose
    serialized URL value equals the cached serialized value, [parseMap]
    yields the cached typed value (read through [?? defaultValue ?? null], so
    a value that was resolved under the key's default comes back as it
    is) and the key's [parse] function plays no part: any other [parse]
    gives the same value.  When the serialized value differs, the new string
    is parsed and the key resolves to the parsed value, else the default,
    else null; an absent value resolves to the default, else null. *)
Theorem parseMap_reuses_cached_value
    (keyMap : UseQueryStatesKeysMap) (sp : option URLSearchParams)
    (cq : QueryCache) (cs : Values) (key : string) (p : KeyMapValue) :
  NoDup (obj_keys keyMap) ->
  obj_get keyMap key = Some p ->
  exists st cq' d,
    parseMap keyMap sp (Some cq) (Some cs) = (d, Normal (st, Some cq')) /\
    (obj_get cq key = Some (getQuery sp key) ->
     obj_get st key =
       Some (cachedValue (Some cs) key ?? Parser.defaultValue p ?? JNull) /\
     (forall x, obj_get cs key = Some (x ?? Parser.defaultValue p ?? JNull) ->
                obj_get st key = obj_get cs key) /\
     (forall parse', exists st' cq'' d',
        parseMap (obj_set key (Parser.withParse p parse') keyMap) sp
                 (Some cq) (Some cs) = (d', Normal (st', cq'')) /\
        obj_get st' key = obj_get st key)) /\
    (obj_get cq key <> Some (getQuery sp key) ->
     match getQuery sp key with
     | None => obj_get st key = Some (Parser.defaultValue p ?? JNull)
     | Some q =>
         match Parser.parse p q with
         | Normal v =>
             obj_get st key = Some (v ?? Parser.defaultValue p ?? JNull)
         | Throw _ => obj_get st key = Some (Parser.defaultValue p ?? JNull)
         end
     end).
Proof.
  intros Hnd Hp.
  destruct (parseMap_lookup keyMap sp (Some cq) (Some cs) Hnd)
    as (st & cq' & d & Hrun & Hc & _ & Hin).
  destruct cq' as [cq'|]; [|contradiction].
  exists st, cq', d. split; [assumption|].
  destruct (Hin key p Hp) as (dk & v & Hr & Hv & _).
  unfold resolveKey, cacheHit in Hr. split.
  - intros Hhit. apply queryEq_true in Hhit as Hq. rewrite Hq in Hr.
    injection Hr as <- <-. split; [assumption|]. split.
    + intros x Hx. rewrite Hv, Hx. simpl. now rewrite coalesce_idem.
    + intros parse'.
      assert (Hkeys : obj_keys (obj_set key (Parser.withParse p parse') keyMap)
                      = obj_keys keyMap) by eauto using obj_keys_set_present.
      destruct (parseMap_lookup (obj_set key (Parser.withParse p parse') keyMap)
                  sp (Some cq) (Some cs))
        as (st' & cq'' & d' & Hrun' & _ & _ & Hin'); [now rewrite Hkeys|].
      exists st', cq'', d'. split; [assumption|].
      destruct (Hin' key (Parser.withParse p parse')) as (dk' & v' & Hr' & Hv' & _);
        [apply obj_get_set_eq|].
      unfold resolveKey, cacheHit in Hr'. rewrite Hq in Hr'.
      injection Hr' as <- <-. now rewrite Hv, Hv'.
  - intros Hmiss.
    destruct (queryEq (obj_get cq key) (getQuery sp key)) eqn:E;
      [apply queryEq_true in E; contradiction|].
    destruct (getQuery sp key) as [q|].
    + pose proof (safeParse_cases (Parser.parse p) q key) as Hs.
      destruct (Parser.parse p q); rewrite Hs in Hr; simpl in Hr;
        injection Hr as <- <-; assumption.
    + simpl in Hr. injection Hr as <- <-. assumption.
Qed.

Lemma parseMap_reuses_cached_value_witness :
  let keyMap := [("count", Examples.withDefault Examples.parseAsNever (JNum 0))] in
  NoDup (obj_keys keyMap) /\
  exists st cq' d,
    parseMap keyMap (Some [("count", "5")])
             (Some [("count", Some "5")]) (Some [("count", JNum 5)]) =
    (d, Normal (st, Some cq')) /\
    obj_get st "count" = Some (JNum 5).
Proof.
  assert (Hnd : NoDup (obj_keys
            [("count", Examples.withDefault Examples.parseAsNever (JNum 0))])).
  { apply NoDup_singleton. }
  split; [exact Hnd|].
  destruct (parseMap_reuses_cached_value
              [("count", Examples.withDefault Examples.parseAsNever (JNum 0))]
              (Some [("count", "5")]) [("count", Some "5")]
              [("count", JNum 5)] "count"
              (Examples.withDefault Examples.parseAsNever (JNum 0))
              Hnd eq_refl)
    as (st & cq' & d & Hrun & Hhit & _).
  exists st, cq', d. split; [exact Hrun|].
  destruct (Hhit eq_refl) as [H _]. exact H.
Defined.

(** C9.  A parse failure on one key is not fatal.  [parseMap] returns
    normally on every input.  When the parser of a managed key throws on the
    key's new URL value, the key resolves as if the value were absent (to
    its default, else null), a warning-level diagnostic naming the key, the
    value and the error is logged, and every other key resolves to what it
    resolves to when that parser is replaced by any other. *)
Theorem parseMap_parse_failure_is_not_fatal
    (keyMap : UseQueryStatesKeysMap) (sp : option URLSearchParams)
    (cq : option QueryCache) (cs : option Values) :
  (exists st cq' d, parseMap keyMap sp cq cs = (d, Normal (st, cq'))) /\
  (forall key p q e,
     NoDup (obj_keys keyMap) ->
     obj_get keyMap key = Some p ->
     getQuery sp key = Some q ->
     cacheHit cq cs key (Some q) = false ->
     Parser.parse p q = Throw e ->
     exists st cq' d,
       parseMap keyMap sp cq cs = (d, Normal (st, cq')) /\
       obj_get st key = Some (Parser.defaultValue p ?? JNull) /\
       In (MkDiagnostic LevelWarn key q e) d /\
       forall parse', exists st' cq'' d',
         parseMap (obj_set key (Parser.withParse p parse') keyMap) sp cq cs =
           (d', Normal (st', cq'')) /\
         forall key', key' <> key -> obj_get st' key' = obj_get st key').
Proof.
  split; [apply parseMap_normal|].
  intros key p q e Hnd Hp Hq Hmiss Hthrow.
  destruct (parseMap_lookup keyMap sp cq cs Hnd)
    as (st & cq' & d & Hrun & _ & _ & Hin).
  exists st, cq', d. split; [assumption|].
  destruct (Hin key p Hp) as (dk & v & Hr & Hv & Hd).
  unfold resolveKey in Hr. rewrite Hq, Hmiss in Hr.
  pose proof (safeParse_cases (Parser.parse p) q key) as Hs.
  rewrite Hthrow in Hs. rewrite Hs in Hr. simpl in Hr.
  injection Hr as <- <-. split; [assumption|]. split.
  - apply Hd. now left.
  - intros parse'.
    destruct (parseMap_normal (obj_set key (Parser.withParse p parse') keyMap)
                sp cq cs) as (st' & cq'' & d' & Hrun').
    exists st', cq'', d'. split; [assumption|].
    eapply parseMap_other_keys; eassumption.
Qed.

Lemma parseMap_parse_failure_is_not_fatal_witness :
  let keyMap := [("id", Examples.withDefault Examples.parseAsNever (JNum 1));
                 ("q", Examples.parseAsString)] in
  let sp := Some [("id", "x"); ("q", "tea")] in
  NoDup (obj_keys keyMap) /\
  exists st cq' d,
    parseMap keyMap sp None None = (d, Normal (st, cq')) /\
    obj_get st "id" = Some (JNum 1) /\
    In (MkDiagnostic LevelWarn "id" "x" "cannot parse x") d.
Proof.
  assert (Hnd : NoDup (obj_keys
            [("id", Examples.withDefault Examples.parseAsNever (JNum 1));
             ("q", Examples.parseAsString)])).
  { apply NoDup_ListNoDup. repeat constructor; simpl; intuition discriminate. }
  split; [exact Hnd|].
  destruct (proj2 (parseMap_parse_failure_is_not_fatal
              [("id", Examples.withDefault Examples.parseAsNever (JNum 1));
               ("q", Examples.parseAsString)]
              (Some [("id", "x"); ("q", "tea")]) None None)
              "id" (Examples.withDefault Examples.parseAsNever (JNum 1))
              "x" "cannot parse x" Hnd eq_refl eq_refl eq_refl eq_refl)
    as (st & cq' & d & Hrun & Hv & Hd & _).
  exists st, cq', d. auto.
Defined.

(** ** Search parameters *)

Lemma sp_get_delete (sp : URLSearchParams) (k k' : string) :
  sp_get (sp_delete k sp) k' = if String.eqb k k' then None else sp_get sp k'.
Proof.
  induction sp as [|[k0 v0] sp IH]; simpl.
  - now destruct (String.eqb k k').
  - destruct (String.eqb_spec k0 k) as [->|Hk]; simpl.
    + rewrite IH. destruct (String.eqb_spec k k'); reflexivity.
    + rewrite IH. destruct (String.eqb_spec k0 k') as [->|Hk'];
        destruct (String.eqb_spec k k'); congruence.
Qed.

Lemma sp_get_set (sp : URLSearchParams) (k v k' : string) :
  sp_get (sp_set k v sp) k' = if String.eqb k k' then Some v else sp_get sp k'.
Proof.
  induction sp as [|[k0 v0] sp IH]; simpl.
  - reflexivity.
  - destruct (String.eqb_spec k0 k) as [->|Hk]; simpl.
    + destruct (String.eqb_spec k k') as [->|Hk']; [reflexivity|].
      rewrite sp_get_delete. now destruct (String.eqb_spec k k').
    + rewrite IH. destruct (String.eqb_spec k0 k') as [->|Hk'];
        destruct (String.eqb_spec k k'); congruence.
Qed.

Lemma sp_get_In (sp : URLSearchParams) k s : sp_get sp k = Some s -> In (k, s) sp.
Proof.
  induction sp as [|[k0 v0] sp IH]; simpl; [discriminate|].
  destruct (String.eqb_spec k0 k) as [->|Hne]; [intros [= ->]; now left|].
  intros H. right. auto.
Qed.

Lemma In_sp_delete (sp : URLSearchParams) k k' s :
  In (k, s) (sp_delete k' sp) -> k <> k' /\ In (k, s) sp.
Proof.
  unfold sp_delete. rewrite filter_In. simpl.
  intros [Hin Hk]. split; [|assumption].
  destruct (String.eqb_spec k k'); [discriminate|assumption].
Qed.

Lemma In_sp_set (sp : URLSearchParams) k k' s v' :
  In (k, s) (sp_set k' v' sp) ->
  (k = k' /\ s = v') \/ (k <> k' /\ In (k, s) sp).
Proof.
  induction sp as [|[k0 v0] sp IH]; simpl.
  - intros [[= <- <-]|[]]. auto.
  - destruct (String.eqb_spec k0 k') as [->|Hne]; simpl.
    + intros [[= <- <-]|Hin]; [auto|].
      apply In_sp_delete in Hin as [Hk Hin]. auto.
    + intros [[= <- <-]|Hin]; [right; auto|].
      destruct (IH Hin) as [?|[? ?]]; auto.
Qed.

(** ** The update queue *)

Section QueueFacts.

Import UpdateQueue.

Lemma enqueue_result key value serialize options q :
  fst (enqueueQueryStringUpdate key value serialize options q) =
  serializeOrNull value serialize.
Proof. reflexivity. Qed.

Lemma enqueue_lookup key value serialize options q k :
  obj_get (updateQueue (snd (enqueueQueryStringUpdate key value serialize
                               options q))) k =
  if String.eqb key k
  then Some {| pendingValue := serializeOrNull value serialize;
               pendingOptions :=
                 match obj_get (updateQueue q) key with
                 | Some previous =>
                     mergeOptions options (pendingOptions previous)
                 | None => options
                 end |}
  else obj_get (updateQueue q) k.
Proof. simpl. apply obj_get_set. Qed.

Lemma enqueue_NoDup key value serialize options q :
  NoDup (obj_keys (updateQueue q)) ->
  NoDup (obj_keys (updateQueue (snd (enqueueQueryStringUpdate key value
                                       serialize options q)))).
Proof. simpl. apply obj_set_NoDup. Qed.

Lemma schedule_updateQueue factor now q :
  updateQueue (snd (scheduleFlushToURL factor now q)) = updateQueue q.
Proof. unfold scheduleFlushToURL. now destruct (flushPromiseCache q). Qed.

Lemma schedule_cached factor now q :
  flushPromiseCache (snd (scheduleFlushToURL factor now q)) =
  Some (fst (scheduleFlushToURL factor now q)).
Proof.
  unfold scheduleFlushToURL. destruct (flushPromiseCache q) eqn:E; simpl; auto.
Qed.

(** The committed parameter set, key by key: a pending value replaces the
    URL's, a tombstone removes it, and a key without Pending Update keeps
    what the URL had. *)
Lemma applyPending_get pending search k :
  NoDup (obj_keys pending) ->
  sp_get (applyPending pending search) k =
  match obj_get pending k with
  | Some u => pendingValue u
  | None => sp_get search k
  end.
Proof.
  unfold applyPending. revert search.
  induction pending as [|[k0 u0] pending IH]; intros search Hnd; simpl.
  - reflexivity.
  - apply NoDup_cons in Hnd as [Hk0 Hnd]. rewrite list_elem_of_In in Hk0.
    rewrite IH by assumption.
    destruct (String.eqb_spec k0 k) as [->|Hne].
    + rewrite (obj_get_None pending k Hk0).
      destruct (pendingValue u0).
      * rewrite sp_get_set. now rewrite String.eqb_refl.
      * rewrite sp_get_delete. now rewrite String.eqb_refl.
    + destruct (obj_get pending k); [reflexivity|].
      destruct (pendingValue u0).
      * rewrite sp_get_set. now destruct (String.eqb_spec k0 k).
      * rewrite sp_get_delete. now destruct (String.eqb_spec k0 k).
Qed.

Lemma applyPending_frame pending search k s :
  ~ In k (obj_keys pending) ->
  In (k, s) (applyPending pending search) -> In (k, s) search.
Proof.
  unfold applyPending. revert search.
  induction pending as [|[k0 u0] pending IH]; intros search Hn; simpl; auto.
  simpl in Hn. intros Hin. apply IH in Hin; [|tauto].
  destruct (pendingValue u0).
  - apply In_sp_set in Hin as [[-> _]|[_ ?]]; tauto.
  - now apply In_sp_delete in Hin as [_ ?].
Qed.

(** After the commit every entry the URL has for a key with a Pending
    Update carries the pending value. *)
Lemma applyPending_entries pending search k u s :
  NoDup (obj_keys pending) ->
  obj_get pending k = Some u ->
  In (k, s) (applyPending pending search) ->
  pendingValue u = Some s.
Proof.
  revert search. induction pending as [|[k0 u0] pending IH];
    intros search Hnd Hget; [discriminate|].
  apply NoDup_cons in Hnd as [Hk0 Hnd]. rewrite list_elem_of_In in Hk0.
  simpl in Hget. unfold applyPending. cbn [fold_left fst snd].
  fold (applyPending pending).
  destruct (String.eqb_spec k0 k) as [->|Hne].
  - injection Hget as <-. intros Hin.
    apply applyPending_frame in Hin; [|assumption].
    destruct (pendingValue u0).
    + apply In_sp_set in Hin as [[_ ->]|[? _]]; [reflexivity|congruence].
    + apply In_sp_delete in Hin as [? _]. congruence.
  - now apply IH.
Qed.

Lemma flush_searchParams now q a p :
  flushPromiseCache q = Some p ->
  searchParams (snd (flush now q a)) =
  applyPending (updateQueue q) (searchParams a).
Proof. unfold flush. intros ->. reflexivity. Qed.

Lemma enqueueAll_NoDup calls q :
  NoDup (obj_keys (updateQueue q)) ->
  NoDup (obj_keys (updateQueue (enqueueAll calls q))).
Proof.
  unfold enqueueAll. revert q.
  induction calls as [|c calls IH]; intros q Hnd; cbn [fold_left];
    [assumption|].
  apply IH. now apply enqueue_NoDup.
Qed.

Lemma enqueueAll_app calls calls' q :
  enqueueAll (calls ++ calls') q = enqueueAll calls' (enqueueAll calls q).
Proof. unfold enqueueAll. apply fold_left_app. Qed.

(** Calls for other keys leave the Pending Update of [k] alone. *)
Lemma enqueueAll_other calls q k :
  (forall c, In c calls -> callKey c <> k) ->
  obj_get (updateQueue (enqueueAll calls q)) k = obj_get (updateQueue q) k.
Proof.
  unfold enqueueAll. revert q.
  induction calls as [|c calls IH]; intros q Hne; cbn [fold_left];
    [reflexivity|].
  rewrite IH by (intros c' Hc'; apply Hne; now right).
  rewrite enqueue_lookup.
  destruct (String.eqb_spec (callKey c) k) as [E|]; [|reflexivity].
  exfalso. apply (Hne c); [now left|assumption].
Qed.

End QueueFacts.

(** C2.  At most one Pending Update per key, last write wins.  After any
    sequence of [enqueueQueryStringUpdate] calls on a queue that held one
    Pending Update per key, the queue still holds one per key; the Pending
    Update of a key carries the serialized value of the last call for that
    key, whatever was enqueued for it before; and once that window is
    flushed the committed parameter set has, for that key, exactly this last
    value and no entry with any other (the key is absent when the last
    value was null), and the queue is empty again. *)
Theorem enqueue_last_write_wins
    (q : UpdateQueue.State) (a : Adapter) (before after : list EnqueueCall)
    (last : EnqueueCall) (factor now now' : Z) :
  NoDup (obj_keys (UpdateQueue.updateQueue q)) ->
  (forall c, In c after -> callKey c <> callKey last) ->
  let lastValue :=
    UpdateQueue.serializeOrNull (callValue last) (callSerialize last) in
  let q1 := enqueueAll (before ++ last :: after) q in
  let q2 := snd (UpdateQueue.scheduleFlushToURL factor now q1) in
  let committed := UpdateQueue.flush now' q2 a in
  NoDup (obj_keys (UpdateQueue.updateQueue q1)) /\
  (exists o, obj_get (UpdateQueue.updateQueue q1) (callKey last) =
             Some (UpdateQueue.MkPendingUpdate lastValue o)) /\
  sp_get (searchParams (snd committed)) (callKey last) = lastValue /\
  (forall s, In (callKey last, s) (searchParams (snd committed)) ->
             lastValue = Some s) /\
  UpdateQueue.updateQueue (fst committed) = [].
Proof.
  intros Hnd Hafter lastValue q1 q2 committed.
  assert (Hnd1 : NoDup (obj_keys (UpdateQueue.updateQueue q1)))
    by now apply enqueueAll_NoDup.
  assert (Hget : exists o, obj_get (UpdateQueue.updateQueue q1) (callKey last) =
                           Some (UpdateQueue.MkPendingUpdate lastValue o)).
  { unfold q1. rewrite enqueueAll_app.
    change (enqueueAll (last :: after) ?x)
      with (enqueueAll after
              (snd (UpdateQueue.enqueueQueryStringUpdate (callKey last)
                      (callValue last) (callSerialize last)
                      (callQueueOptions last) x))).
    rewrite enqueueAll_other by assumption.
    rewrite enqueue_lookup, String.eqb_refl. eauto. }
  split; [assumption|]. split; [assumption|].
  destruct Hget as [o Hget].
  unfold committed, UpdateQueue.flush.
  pose proof (schedule_cached factor now q1) as Hc. fold q2 in Hc.
  rewrite Hc. simpl. unfold q2. rewrite schedule_updateQueue.
  split; [|split; [|reflexivity]].
  - rewrite applyPending_get by assumption. now rewrite Hget.
  - intros s Hin.
    now rewrite <- (applyPending_entries _ _ _ _ _ Hnd1 Hget Hin).
Qed.

Lemma enqueue_last_write_wins_witness :
  let before := [MkEnqueueCall "count" (JNum 1) String noOptions;
                 MkEnqueueCall "q" (JStr "tea") String noOptions] in
  let last := MkEnqueueCall "count" (JNum 2) String noOptions in
  let after := [MkEnqueueCall "q" JNull String noOptions] in
  let q1 := enqueueAll (before ++ last :: after) UpdateQueue.initial in
  let q2 := snd (UpdateQueue.scheduleFlushToURL 1 0 q1) in
  NoDup (obj_keys (UpdateQueue.updateQueue UpdateQueue.initial)) /\
  (forall c, In c after -> callKey c <> callKey last) /\
  sp_get (searchParams
            (snd (UpdateQueue.flush 50 q2 (MkAdapter [("count", "0")] None []))))
         "count" = Some "2".
Proof.
  assert (Hnd : NoDup (obj_keys (UpdateQueue.updateQueue UpdateQueue.initial)))
    by apply NoDup_nil_2.
  assert (Hafter : forall c,
             In c [MkEnqueueCall "q" JNull String noOptions] ->
             callKey c <> "count").
  { intros c [<-|[]]. discriminate. }
  split; [exact Hnd|]. split; [exact Hafter|].
  exact (proj1 (proj2 (proj2
    (enqueue_last_write_wins UpdateQueue.initial
       (MkAdapter [("count", "0")] None [])
       [MkEnqueueCall "count" (JNum 1) String noOptions;
        MkEnqueueCall "q" (JStr "tea") String noOptions]
       [MkEnqueueCall "q" JNull String noOptions]
       (MkEnqueueCall "count" (JNum 2) String noOptions)
       1 0 50 Hnd Hafter)))).
Defined.

(** ** [update] and the queue *)

(** Reading the key map: an own entry is found as it is, and a key that
    reads as [undefined] is not an own key. *)
Lemma keyMapGet_own km k p : obj_get km k = Some p -> keyMapGet km k = Some p.
Proof. unfold keyMapGet. now intros ->. Qed.

Lemma keyMapGet_None km k : keyMapGet km k = None -> obj_get km k = None.
Proof. unfold keyMapGet. now destruct (obj_get km k). Qed.

Lemma keyMapGet_inherited km k :
  obj_get km k = None -> In k objectPrototype ->
  keyMapGet km k = Some inheritedMember.
Proof.
  unfold keyMapGet. intros -> Hin.
  assert (H : existsb (String.eqb k) objectPrototype = true).
  { apply existsb_exists. exists k. split; [assumption|apply String.eqb_refl]. }
  now rewrite H.
Qed.

Lemma enqueueEntry_promises km h co q e :
  let q' := enqueueEntry km h co q e in
  UpdateQueue.flushPromiseCache q' = UpdateQueue.flushPromiseCache q /\
  UpdateQueue.nextPromise q' = UpdateQueue.nextPromise q /\
  UpdateQueue.settled q' = UpdateQueue.settled q /\
  UpdateQueue.flushTimer q' = UpdateQueue.flushTimer q /\
  UpdateQueue.lastFlushTimestamp q' = UpdateQueue.lastFlushTimestamp q.
Proof. unfold enqueueEntry. destruct (keyMapGet km e.1); simpl; auto. Qed.

Lemma enqueueEntry_NoDup km h co q e :
  NoDup (obj_keys (UpdateQueue.updateQueue q)) ->
  NoDup (obj_keys (UpdateQueue.updateQueue (enqueueEntry km h co q e))).
Proof.
  unfold enqueueEntry. destruct (keyMapGet km e.1); [|auto].
  apply enqueue_NoDup.
Qed.

Lemma fold_enqueueEntry_promises km h co es q :
  let q' := fold_left (enqueueEntry km h co) es q in
  UpdateQueue.flushPromiseCache q' = UpdateQueue.flushPromiseCache q /\
  UpdateQueue.nextPromise q' = UpdateQueue.nextPromise q /\
  UpdateQueue.settled q' = UpdateQueue.settled q /\
  UpdateQueue.flushTimer q' = UpdateQueue.flushTimer q /\
  UpdateQueue.lastFlushTimestamp q' = UpdateQueue.lastFlushTimestamp q.
Proof.
  revert q. induction es as [|e es IH]; intros q; cbn [fold_left]; [auto|].
  destruct (IH (enqueueEntry km h co q e)) as (-> & -> & -> & -> & ->).
  apply enqueueEntry_promises.
Qed.

Lemma fold_enqueueEntry_NoDup km h co es q :
  NoDup (obj_keys (UpdateQueue.updateQueue q)) ->
  NoDup (obj_keys (UpdateQueue.updateQueue
                     (fold_left (enqueueEntry km h co) es q))).
Proof.
  revert q. induction es as [|e es IH]; intros q Hnd; cbn [fold_left];
    [assumption|].
  apply IH. now apply enqueueEntry_NoDup.
Qed.

(** One turn of the loop touches the queue and the instances only. *)
Lemma updateEntry_frame bid km h co w e :
  let w' := updateEntry bid km h co w e in
  adapter w' = adapter w /\ emitter w' = emitter w /\ console w' = console w /\
  queue w' = enqueueEntry km h co (queue w) e.
Proof.
  unfold updateEntry, enqueueEntry. destruct e as [key value]. simpl.
  destruct (keyMapGet km key); simpl; auto.
Qed.

Lemma fold_updateEntry_frame bid km h co es w :
  let w' := fold_left (updateEntry bid km h co) es w in
  adapter w' = adapter w /\ emitter w' = emitter w /\ console w' = console w /\
  queue w' = fold_left (enqueueEntry km h co) es (queue w).
Proof.
  revert w. induction es as [|e es IH]; intros w; cbn [fold_left]; [auto|].
  destruct (IH (updateEntry bid km h co w e)) as (-> & -> & -> & ->).
  destruct (updateEntry_frame bid km h co w e) as (-> & -> & -> & ->). auto.
Qed.

(** [update] as seen from the queue: the entries are enqueued, then the
    flush is scheduled, and the Promise returned is the scheduler's. *)
Lemma update_queue bid su co now w :
  let b := instance (instances w) bid in
  let q1 := fold_left (enqueueEntry (keyMap b) (hookOptions b) co)
                      (newStateOf (keyMap b) (stateRef b) su) (queue w) in
  let r := UpdateQueue.scheduleFlushToURL
             (orElse (rateLimitFactor (adapter w)) 1) now q1 in
  fst (update bid su co now w) = fst r /\
  queue (snd (update bid su co now w)) = snd r /\
  adapter (snd (update bid su co now w)) = adapter w /\
  emitter (snd (update bid su co now w)) = emitter w.
Proof.
  unfold update.
  set (b := instance (instances w) bid).
  set (es := newStateOf (keyMap b) (stateRef b) su).
  destruct (fold_updateEntry_frame bid (keyMap b) (hookOptions b) co es w)
    as (Ha & He & _ & Hq).
  rewrite Hq, Ha.
  destruct (UpdateQueue.scheduleFlushToURL _ now _) as [p q'] eqn:E.
  simpl. auto.
Qed.

Lemma update_instances bid su co now w :
  let b := instance (instances w) bid in
  instances (snd (update bid su co now w)) =
  instances (fold_left (updateEntry bid (keyMap b) (hookOptions b) co)
               (newStateOf (keyMap b) (stateRef b) su) w).
Proof.
  unfold update.
  destruct (UpdateQueue.scheduleFlushToURL _ now _) as [p q']. reflexivity.
Qed.

(** ** Promise bookkeeping along a run *)

Lemma schedule_wfPromises factor now q :
  wfPromises q -> wfPromises (snd (UpdateQueue.scheduleFlushToURL factor now q)).
Proof.
  intros [Hc Hs]. unfold UpdateQueue.scheduleFlushToURL.
  destruct (UpdateQueue.flushPromiseCache q) as [p|] eqn:E; simpl.
  - split; [intros p' Hp'; apply Hc; congruence|assumption].
  - split; simpl.
    + intros p' [= <-]. split; [unfold Nat.lt; lia|].
      intros Hin. apply Hs in Hin. unfold Nat.lt in Hin. lia.
    + intros p' Hin. apply Hs in Hin. unfold Nat.lt in *. lia.
Qed.

Lemma flush_wfPromises now q a :
  wfPromises q -> wfPromises (fst (UpdateQueue.flush now q a)).
Proof.
  intros [Hc Hs]. unfold UpdateQueue.flush.
  destruct (UpdateQueue.flushPromiseCache q) as [p|] eqn:E; simpl.
  - split; simpl; [discriminate|].
    intros p'. rewrite map_app, in_app_iff. simpl.
    intros [Hin|[<-|[]]]; [now apply Hs|now apply Hc].
  - split; [intros p' Hp'; apply Hc; congruence|assumption].
Qed.

Lemma wfPromises_ext q q' :
  UpdateQueue.flushPromiseCache q' = UpdateQueue.flushPromiseCache q ->
  UpdateQueue.nextPromise q' = UpdateQueue.nextPromise q ->
  UpdateQueue.settled q' = UpdateQueue.settled q ->
  wfPromises q -> wfPromises q'.
Proof. unfold wfPromises. intros -> -> ->. auto. Qed.

Lemma update_wfWorld bid su co now w :
  wfWorld w -> wfWorld (snd (update bid su co now w)).
Proof.
  intros [Hnd Hwf]. unfold wfWorld.
  destruct (update_queue bid su co now w) as (_ & -> & _).
  rewrite schedule_updateQueue. split.
  - now apply fold_enqueueEntry_NoDup.
  - apply schedule_wfPromises.
    destruct (fold_enqueueEntry_promises
                (keyMap (instance (instances w) bid))
                (hookOptions (instance (instances w) bid)) co
                (newStateOf (keyMap (instance (instances w) bid))
                   (stateRef (instance (instances w) bid)) su) (queue w))
      as (H1 & H2 & H3 & _).
    eapply wfPromises_ext; eassumption.
Qed.

Lemma flush_wfWorld now w : wfWorld w -> wfWorld (flush now w).
Proof.
  intros [Hnd Hwf]. unfold wfWorld, flush.
  pose proof (flush_wfPromises now (queue w) (adapter w) Hwf) as H.
  destruct (UpdateQueue.flush now (queue w) (adapter w)) as [q' a'] eqn:E.
  simpl in *. split; [|assumption].
  unfold UpdateQueue.flush in E.
  destruct (UpdateQueue.flushPromiseCache (queue w));
    injection E as <- <-; [apply NoDup_nil_2|assumption].
Qed.

Lemma render_queue bid w : queue (render bid w) = queue w.
Proof.
  unfold render. destruct (instances w !! bid); [|reflexivity].
  destruct (renderBinding _ _). reflexivity.
Qed.

Lemma mount_queue km h w : queue (mount km h w) = queue w.
Proof.
  unfold mount. destruct (parsed _ _ _). destruct (runEffect _ _). reflexivity.
Qed.

(** Steps other than [Update] and [Flush] leave the queue alone. *)
Lemma step_queue a w :
  match a with
  | Update _ _ _ _ | Flush _ => True
  | _ => queue (snd (step a w)) = queue w
  end.
Proof.
  destruct a; simpl; auto using render_queue, mount_queue.
Qed.

Lemma step_wfWorld a w : wfWorld w -> wfWorld (snd (step a w)).
Proof.
  intros Hwf. pose proof (step_queue a w) as Hq.
  destruct a; try (unfold wfWorld in *; rewrite Hq; exact Hwf).
  - simpl. pose proof (update_wfWorld bid stateUpdater callOptions now w Hwf).
    destruct (update _ _ _ _ _). assumption.
  - simpl. now apply flush_wfWorld.
Qed.

(** Every world reached by a run from a sound world is sound: the queue
    never holds two Pending Updates for one key. *)
Lemma run_wfWorld acts w : wfWorld w -> wfWorld (snd (run acts w)).
Proof.
  revert w. induction acts as [|a acts IH]; intros w Hwf; simpl; [assumption|].
  pose proof (step_wfWorld a w Hwf) as H1.
  destruct (step a w) as [r w1]. specialize (IH w1 H1).
  destruct (run acts w1) as [ps w2]. assumption.
Qed.

Lemma emptyWorld_wf search : wfWorld (emptyWorld search).
Proof.
  split; simpl; [apply NoDup_nil_2|].
  split; simpl; [discriminate|tauto].
Qed.

Lemma schedule_handle factor now q :
  fst (UpdateQueue.scheduleFlushToURL factor now q) = nextHandle q /\
  UpdateQueue.settled (snd (UpdateQueue.scheduleFlushToURL factor now q)) =
    UpdateQueue.settled q.
Proof.
  unfold UpdateQueue.scheduleFlushToURL, nextHandle.
  destruct (UpdateQueue.flushPromiseCache q); simpl; auto.
Qed.

(** What an [update] call does to the Promise bookkeeping. *)
Lemma update_handle bid su co now w :
  let r := update bid su co now w in
  fst r = nextHandle (queue w) /\
  UpdateQueue.flushPromiseCache (queue (snd r)) = Some (nextHandle (queue w)) /\
  UpdateQueue.settled (queue (snd r)) = UpdateQueue.settled (queue w).
Proof.
  destruct (update_queue bid su co now w) as (Hp & Hq & _).
  set (b := instance (instances w) bid) in *.
  destruct (fold_enqueueEntry_promises (keyMap b) (hookOptions b) co
              (newStateOf (keyMap b) (stateRef b) su) (queue w))
    as (Hc & Hn & Hs & _).
  cbv zeta. rewrite Hp, Hq, schedule_cached.
  destruct (schedule_handle (orElse (rateLimitFactor (adapter w)) 1) now
              (fold_left (enqueueEntry (keyMap b) (hookOptions b) co)
                 (newStateOf (keyMap b) (stateRef b) su) (queue w)))
    as [-> ->].
  unfold nextHandle. rewrite Hc, Hn, Hs. auto.
Qed.

Lemma run_cons a acts w :
  run (a :: acts) w =
  (match fst (step a w) with
   | Some p => p :: fst (run acts (snd (step a w)))
   | None => fst (run acts (snd (step a w)))
   end,
   snd (run acts (snd (step a w)))).
Proof.
  cbn [run]. destruct (step a w) as [r w1]. cbn [fst snd].
  destruct (run acts w1) as [ps w2]. reflexivity.
Qed.

(** A step is an [update] call, a flush, or leaves the queue alone and
    returns nothing. *)
Lemma step_cases a w :
  (exists bid su co now, a = Update bid su co now) \/
  (exists now, a = Flush now) \/
  (fst (step a w) = None /\ queue (snd (step a w)) = queue w).
Proof.
  destruct a; eauto 6; right; right; simpl;
    auto using render_queue, mount_queue.
Qed.

(** Until a flush runs, every [update] call returns one and the same
    Promise, which stays cached, and nothing gets resolved. *)
Lemma run_without_flush acts w :
  forallb (fun a => negb (isFlush a)) acts = true ->
  (forall p, In p (fst (run acts w)) ->
     p = nextHandle (queue w) /\
     UpdateQueue.flushPromiseCache (queue (snd (run acts w))) = Some p) /\
  (forall c, UpdateQueue.flushPromiseCache (queue w) = Some c ->
     UpdateQueue.flushPromiseCache (queue (snd (run acts w))) = Some c) /\
  UpdateQueue.settled (queue (snd (run acts w))) = UpdateQueue.settled (queue w).
Proof.
  revert w. induction acts as [|a acts IH]; intros w Hnf.
  - simpl. split; [tauto|auto].
  - simpl in Hnf. apply andb_prop in Hnf as [Ha Hnf].
    rewrite run_cons. cbn [fst snd].
    destruct (step_cases a w) as [(bid & su & co & now & ->)|[[now ->]|[Hr Hq]]].
    + cbn [step].
      destruct (update_handle bid su co now w) as (Hp & Hc & Hs).
      destruct (update bid su co now w) as [p w1].
      simpl in Hp, Hc, Hs. subst p. cbn [fst snd].
      destruct (IH w1 Hnf) as (IH1 & IH2 & IH3).
      split; [|split].
      * intros p [<-|Hin].
        -- split; [reflexivity|]. now apply IH2.
        -- destruct (IH1 p Hin) as [-> Hc2]. unfold nextHandle in *.
           rewrite Hc in *. simpl in *. split; [reflexivity|assumption].
      * intros c Hcw. apply IH2. rewrite Hc. unfold nextHandle.
        now rewrite Hcw.
      * congruence.
    + discriminate.
    + rewrite Hr. destruct (IH (snd (step a w)) Hnf) as (IH1 & IH2 & IH3).
      rewrite Hq in *. auto.
Qed.

Lemma resolutions_app q p extra :
  map snd (List.filter (fun e => Nat.eqb (fst e) p)
             (UpdateQueue.settled q ++ extra)) =
  (UpdateQueue.resolutions q p ++
   map snd (List.filter (fun e => Nat.eqb (fst e) p) extra))%list.
Proof.
  unfold UpdateQueue.resolutions. now rewrite List.filter_app, map_app.
Qed.

Lemma resolutions_unsettled q p :
  ~ In p (map fst (UpdateQueue.settled q)) -> UpdateQueue.resolutions q p = [].
Proof.
  unfold UpdateQueue.resolutions.
  induction (UpdateQueue.settled q) as [|[p' s] l IH]; simpl; [auto|].
  intros Hn. destruct (Nat.eqb_spec p' p) as [->|Hne]; [tauto|].
  apply IH. tauto.
Qed.

(** The flush resolves the cached Promise with the parameter set it has
    just committed, and retires it. *)
Lemma flush_resolves now w p :
  wfWorld w ->
  UpdateQueue.flushPromiseCache (queue w) = Some p ->
  UpdateQueue.resolutions (queue (flush now w)) p =
    [searchParams (adapter (flush now w))] /\
  retired (queue (flush now w)) p.
Proof.
  intros [_ [Hc _]] Hp. destruct (Hc p Hp) as [Hlt Hnew].
  unfold flush, UpdateQueue.flush. rewrite Hp. simpl.
  unfold UpdateQueue.resolutions at 1. simpl.
  rewrite resolutions_app, (resolutions_unsettled _ _ Hnew). simpl.
  rewrite Nat.eqb_refl. simpl. split; [reflexivity|].
  split; simpl; [assumption|discriminate].
Qed.

(** A retired Promise stays retired and is never resolved again. *)
Lemma step_retired a w p :
  wfWorld w -> retired (queue w) p ->
  retired (queue (snd (step a w))) p /\
  UpdateQueue.resolutions (queue (snd (step a w))) p =
    UpdateQueue.resolutions (queue w) p.
Proof.
  intros [_ [Hc Hs]] [Hlt Hnc]. pose proof (step_queue a w) as Hq.
  destruct a; try (rewrite Hq; split; [split|]; auto).
  - cbn [step].
    destruct (update_handle bid stateUpdater callOptions now w)
      as (_ & Hc' & Hs').
    destruct (update_queue bid stateUpdater callOptions now w)
      as (_ & Hq' & _).
    destruct (update bid stateUpdater callOptions now w) as [p' w1].
    simpl in *. split; [split|].
    + rewrite Hq'. unfold UpdateQueue.scheduleFlushToURL.
      set (q1 := fold_left _ _ (queue w)).
      assert (Hn : UpdateQueue.nextPromise q1 = UpdateQueue.nextPromise (queue w))
        by apply fold_enqueueEntry_promises.
      destruct (UpdateQueue.flushPromiseCache q1); simpl; rewrite Hn;
        unfold Nat.lt in *; lia.
    + rewrite Hc'. unfold nextHandle.
      destruct (UpdateQueue.flushPromiseCache (queue w)) as [c|] eqn:E; simpl.
      * congruence.
      * intros [= <-]. unfold Nat.lt in Hlt. lia.
    + unfold UpdateQueue.resolutions. now rewrite Hs'.
  - cbn [step snd]. unfold flush, UpdateQueue.flush.
    destruct (UpdateQueue.flushPromiseCache (queue w)) as [c|] eqn:E; simpl.
    + split; [split; simpl; [assumption|discriminate]|].
      unfold UpdateQueue.resolutions at 1. simpl.
      rewrite resolutions_app. simpl.
      destruct (Nat.eqb_spec c p) as [->|Hne]; [congruence|].
      simpl. apply app_nil_r.
    + split; [split; [assumption|congruence]|reflexivity].
Qed.

Lemma run_retired acts w p :
  wfWorld w -> retired (queue w) p ->
  UpdateQueue.resolutions (queue (snd (run acts w))) p =
    UpdateQueue.resolutions (queue w) p.
Proof.
  revert w. induction acts as [|a acts IH]; intros w Hwf Hr; simpl;
    [reflexivity|].
  destruct (step_retired a w p Hwf Hr) as [Hr1 He1].
  pose proof (step_wfWorld a w Hwf) as Hwf1.
  destruct (step a w) as [r w1]. simpl in *.
  specialize (IH w1 Hwf1 Hr1).
  destruct (run acts w1) as [ps w2]. simpl in *. congruence.
Qed.

(** C1.  The flush Promise is shared and resolves exactly once.  In a run
    that contains no flush, every [update] call, of whatever instance,
    returns the same Promise; that Promise is the cached one and is still
    unresolved when the run ends.  The next flush resolves it with the
    parameter set the adapter holds right after the commit, and whatever
    happens afterwards it has been resolved that one time only. *)
Theorem flush_promise_is_shared_and_resolves_once
    (w : World) (acts : list Action) :
  wfWorld w ->
  forallb (fun a => negb (isFlush a)) acts = true ->
  let ps := fst (run acts w) in
  let w1 := snd (run acts w) in
  (forall p q, In p ps -> In q ps -> p = q) /\
  (forall p, In p ps ->
     UpdateQueue.flushPromiseCache (queue w1) = Some p /\
     UpdateQueue.resolutions (queue w1) p = [] /\
     forall now later,
       let w2 := flush now w1 in
       UpdateQueue.resolutions (queue w2) p = [searchParams (adapter w2)] /\
       UpdateQueue.resolutions (queue (snd (run later w2))) p =
         [searchParams (adapter w2)]).
Proof.
  intros Hwf Hnf ps w1.
  destruct (run_without_flush acts w Hnf) as (Hps & _ & Hs).
  pose proof (run_wfWorld acts w Hwf) as Hwf1. fold w1 in Hwf1, Hps, Hs.
  fold ps in Hps. split.
  - intros p q Hp Hq. destruct (Hps p Hp) as [-> _].
    destruct (Hps q Hq) as [-> _]. reflexivity.
  - intros p Hp. destruct (Hps p Hp) as [_ Hc]. split; [assumption|]. split.
    + apply resolutions_unsettled. destruct Hwf1 as [_ [Hc1 _]].
      now apply Hc1.
    + intros now later w2.
      destruct (flush_resolves now w1 p Hwf1 Hc) as [Hres Hret].
      fold w2 in Hres, Hret. split; [assumption|].
      rewrite run_retired; [assumption| |assumption].
      now apply flush_wfWorld.
Qed.

Lemma flush_promise_is_shared_and_resolves_once_witness :
  let km := [("lat", Examples.parseAsInteger); ("lng", Examples.parseAsInteger)] in
  let w := mount km Examples.defaults (emptyWorld []) in
  let acts := [Update 0%nat (Partial [("lat", JNum 42)]) noOptions 0;
               Render 0%nat;
               Update 0%nat (Partial [("lng", JNum 12)]) noOptions 1] in
  wfWorld w /\
  fst (run acts w) = [0%nat; 0%nat] /\
  UpdateQueue.resolutions (queue (flush 50 (snd (run acts w)))) 0%nat =
    [[("lat", "42"); ("lng", "12")]].
Proof.
  intros km w acts.
  assert (Hwf : wfWorld w) by idle_world.
  split; [exact Hwf|]. split; [reflexivity|].
  destruct (flush_promise_is_shared_and_resolves_once w acts Hwf eq_refl)
    as [_ H].
  destruct (H 0%nat (or_introl eq_refl)) as (_ & _ & H2).
  destruct (H2 50 []) as [H3 _].
  rewrite H3. reflexivity.
Defined.

(** ** The emitter and the instances *)

Lemma obj_set_set_eq {A : Type} (o : obj A) (k : string) (v v' : A) :
  obj_set k v (obj_set k v' o) = obj_set k v o.
Proof.
  induction o as [|[k0 v0] o IH]; simpl.
  - now rewrite String.eqb_refl.
  - destruct (String.eqb k0 k) eqn:E; simpl; rewrite E; [reflexivity|].
    now rewrite IH.
Qed.

Lemma syncBinding_keyMap key payload b :
  keyMap (syncBinding key payload b) = keyMap b /\
  hookOptions (syncBinding key payload b) = hookOptions b /\
  effectDeps (syncBinding key payload b) = effectDeps b.
Proof. unfold syncBinding. destruct (obj_get (keyMap b) key); auto. Qed.

Lemma syncBinding_idem key payload b :
  syncBinding key payload (syncBinding key payload b) =
  syncBinding key payload b.
Proof.
  unfold syncBinding. destruct (obj_get (keyMap b) key) eqn:E; simpl;
    rewrite E; [|reflexivity].
  simpl. now rewrite !obj_set_set_eq.
Qed.

(** Emitting runs the handler of every instance registered for the key,
    once as far as the instance can tell, and touches no other instance. *)
Lemma emit_lookup key payload e (bs : list Binding) i :
  Sync.emit syncHandler key payload e bs !! i =
  (if in_dec Nat.eq_dec i (Sync.handlers key e)
   then syncBinding key payload else id) <$> bs !! i.
Proof.
  unfold Sync.emit. generalize (Sync.handlers key e) as hs. intros hs.
  revert bs. induction hs as [|h hs IH]; intros bs; cbn [fold_left].
  - simpl. now destruct (bs !! i).
  - rewrite IH. unfold syncHandler. rewrite list_lookup_alter.
    destruct (in_dec Nat.eq_dec i hs) as [Hin|Hn],
      (in_dec Nat.eq_dec i (h :: hs)) as [Hin'|Hn'];
      simpl in *; try tauto;
      destruct (decide (h = i)) as [->|Hne];
      destruct (bs !! i) as [b|]; simpl; try reflexivity; try tauto.
    now rewrite syncBinding_idem.
Qed.

Lemma setQueryRef_lookup bid key q (bs : list Binding) i :
  setQueryRef bid key q bs !! i =
  (if bool_decide (i = bid) then writeQuery key q else id) <$> bs !! i.
Proof.
  unfold setQueryRef. rewrite list_lookup_alter.
  destruct (decide (bid = i)) as [->|Hne].
  - now rewrite bool_decide_true.
  - rewrite bool_decide_false by congruence. now destruct (bs !! i).
Qed.

Lemma readQueryRef_set bid key q (bs : list Binding) b :
  bs !! bid = Some b ->
  readQueryRef bid key (setQueryRef bid key q bs) = q.
Proof.
  intros Hb. unfold readQueryRef, instance.
  rewrite setQueryRef_lookup, Hb, bool_decide_true by reflexivity.
  simpl. now rewrite obj_get_set_eq.
Qed.

(** One turn of the loop, instance by instance. *)
Lemma updateEntry_lookup bid km h co w entry b0 i :
  instances w !! bid = Some b0 ->
  instances (updateEntry bid km h co w entry) !! i =
  (fun b => entryOn (bool_decide (i = bid)) (emitter w) i km h co b entry)
    <$> instances w !! i.
Proof.
  intros Hb. unfold updateEntry, entryOn. destruct entry as [key value].
  cbn [fst snd]. destruct (keyMapGet km key) as [parser|].
  - cbn [instances UpdateQueue.enqueueQueryStringUpdate].
    rewrite (readQueryRef_set _ _ _ _ _ Hb).
    rewrite emit_lookup, setQueryRef_lookup.
    unfold serializedOf.
    destruct (instances w !! i) as [b|]; [|reflexivity]. simpl.
    destruct (bool_decide (i = bid)), (in_dec Nat.eq_dec i _); reflexivity.
  - now destruct (instances w !! i).
Qed.

Lemma fold_updateEntry_lookup bid km h co es w b0 i :
  instances w !! bid = Some b0 ->
  instances (fold_left (updateEntry bid km h co) es w) !! i =
  (fun b => fold_left
              (entryOn (bool_decide (i = bid)) (emitter w) i km h co) es b)
    <$> instances w !! i.
Proof.
  revert w b0. induction es as [|e es IH]; intros w b0 Hb; cbn [fold_left].
  - now destruct (instances w !! i).
  - pose proof (updateEntry_lookup bid km h co w e b0 bid Hb) as Hb'.
    rewrite Hb in Hb'. simpl in Hb'.
    rewrite (IH _ _ Hb'), (updateEntry_lookup _ _ _ _ _ _ _ _ Hb).
    destruct (updateEntry_frame bid km h co w e) as (_ & -> & _).
    now destruct (instances w !! i).
Qed.

(** [update], instance by instance. *)
Lemma update_lookup bid su co now w b0 i :
  instances w !! bid = Some b0 ->
  instances (snd (update bid su co now w)) !! i =
  (fun b => fold_left
              (entryOn (bool_decide (i = bid)) (emitter w) i (keyMap b0)
                 (hookOptions b0) co)
              (newStateOf (keyMap b0) (stateRef b0) su) b)
    <$> instances w !! i.
Proof.
  intros Hb. rewrite update_instances. unfold instance. rewrite Hb.
  now apply fold_updateEntry_lookup with (b0 := b0).
Qed.

Lemma lastEntry_unique_key (es : Values) (k : string) (v : jsval) :
  NoDup (obj_keys es) -> In (k, v) es -> lastEntry es k v.
Proof.
  intros Hnd Hin. apply in_split in Hin as (pre & post & ->).
  exists pre, post. split; [reflexivity|].
  unfold obj_keys in Hnd. rewrite map_app in Hnd. simpl in Hnd.
  apply NoDup_app in Hnd as (_ & _ & Hnd).
  apply NoDup_cons in Hnd as [Hk _]. now rewrite list_elem_of_In in Hk.
Qed.

(** *** The queue after the loop *)

Lemma enqueueEntry_other km h co q entry k :
  fst entry <> k \/ keyMapGet km (fst entry) = None ->
  obj_get (UpdateQueue.updateQueue (enqueueEntry km h co q entry)) k =
  obj_get (UpdateQueue.updateQueue q) k.
Proof.
  unfold enqueueEntry. intros H.
  destruct (keyMapGet km entry.1) as [parser|]; [|reflexivity].
  destruct H as [H|H]; [|discriminate].
  rewrite enqueue_lookup. now destruct (String.eqb_spec entry.1 k).
Qed.

Lemma fold_enqueueEntry_other km h co es q k :
  (forall entry, In entry es ->
     fst entry <> k \/ keyMapGet km (fst entry) = None) ->
  obj_get (UpdateQueue.updateQueue (fold_left (enqueueEntry km h co) es q)) k =
  obj_get (UpdateQueue.updateQueue q) k.
Proof.
  revert q. induction es as [|e es IH]; intros q H; cbn [fold_left];
    [reflexivity|].
  rewrite IH by (intros e' He'; apply H; now right).
  apply enqueueEntry_other. apply H. now left.
Qed.

Lemma entries_other_keys (post : Values) k (km : UseQueryStatesKeysMap) :
  ~ In k (obj_keys post) ->
  forall entry, In entry post ->
    fst entry <> k \/ keyMapGet km (fst entry) = None.
Proof.
  intros Hn entry Hin. left. intros <-. apply Hn.
  unfold obj_keys. now apply in_map.
Qed.

(** The Pending Update the loop leaves for a key it wrote, as [keyMap[key]]
    reads: the serialized form of the value after the clear-on-default
    test, under the resolved options, merged over what was queued for the
    key before. *)
Lemma fold_enqueueEntry_member km h co es q k v parser :
  lastEntry es k v ->
  keyMapGet km k = Some parser ->
  exists o,
    obj_get (UpdateQueue.updateQueue (fold_left (enqueueEntry km h co) es q)) k =
      Some (UpdateQueue.MkPendingUpdate
              (serializedOf parser (clearOnDefaultValue co parser h v)) o) /\
    (o = resolveOptions co parser h \/
     exists previous,
       o = UpdateQueue.mergeOptions (resolveOptions co parser h) previous).
Proof.
  intros (pre & post & -> & Hpost) Hp.
  rewrite fold_left_app. cbn [fold_left].
  rewrite fold_enqueueEntry_other by eauto using entries_other_keys.
  unfold enqueueEntry at 1. cbn [fst snd]. rewrite Hp.
  rewrite enqueue_lookup, String.eqb_refl.
  eexists. split; [reflexivity|].
  destruct (obj_get (UpdateQueue.updateQueue _) k); eauto.
Qed.

(** The same for a key of the key map. *)
Lemma fold_enqueueEntry_last km h co es q k v parser :
  lastEntry es k v ->
  obj_get km k = Some parser ->
  exists o,
    obj_get (UpdateQueue.updateQueue (fold_left (enqueueEntry km h co) es q)) k =
      Some (UpdateQueue.MkPendingUpdate
              (serializedOf parser (clearOnDefaultValue co parser h v)) o) /\
    (o = resolveOptions co parser h \/
     exists previous,
       o = UpdateQueue.mergeOptions (resolveOptions co parser h) previous).
Proof.
  intros Hlast Hp. apply fold_enqueueEntry_member; [assumption|].
  now apply keyMapGet_own.
Qed.

(** *** One instance under the loop *)

Lemma entryOn_keyMap self e i km h co b entry :
  keyMap (entryOn self e i km h co b entry) = keyMap b.
Proof.
  unfold entryOn. destruct (keyMapGet km entry.1); [|reflexivity].
  destruct (in_dec _ _ _); [rewrite (proj1 (syncBinding_keyMap _ _ _))|];
    now destruct self.
Qed.

Lemma fold_entryOn_keyMap self e i km h co es b :
  keyMap (fold_left (entryOn self e i km h co) es b) = keyMap b.
Proof.
  revert b. induction es as [|x es IH]; intros b; cbn [fold_left]; auto.
  rewrite IH. apply entryOn_keyMap.
Qed.

Lemma syncBinding_other key payload b k :
  key <> k ->
  obj_get (stateRef (syncBinding key payload b)) k = obj_get (stateRef b) k /\
  obj_get (queryRef (syncBinding key payload b)) k = obj_get (queryRef b) k.
Proof.
  intros Hne. unfold syncBinding. destruct (obj_get (keyMap b) key); simpl;
    [|auto].
  now rewrite !obj_get_set_ne.
Qed.

(** A turn for another key, or for a key without parser, leaves the refs of
    every instance alone at [k]. *)
Lemma entryOn_other self e i km h co b entry k :
  fst entry <> k \/ keyMapGet km (fst entry) = None ->
  obj_get (stateRef (entryOn self e i km h co b entry)) k =
    obj_get (stateRef b) k /\
  obj_get (queryRef (entryOn self e i km h co b entry)) k =
    obj_get (queryRef b) k.
Proof.
  unfold entryOn. intros H.
  destruct (keyMapGet km entry.1) as [parser|]; [|auto].
  destruct H as [H|H]; [|discriminate].
  destruct (in_dec _ _ _).
  - destruct (syncBinding_other entry.1
                {| state := clearOnDefaultValue co parser h entry.2;
                   query := serializedOf parser
                              (clearOnDefaultValue co parser h entry.2) |}
                (if self then writeQuery entry.1
                                (serializedOf parser
                                   (clearOnDefaultValue co parser h entry.2)) b
                 else b) k H) as [-> ->].
    destruct self; simpl; [|auto]. now rewrite obj_get_set_ne.
  - destruct self; simpl; [|auto]. now rewrite obj_get_set_ne.
Qed.

Lemma fold_entryOn_other self e i km h co es b k :
  (forall entry, In entry es ->
     fst entry <> k \/ keyMapGet km (fst entry) = None) ->
  obj_get (stateRef (fold_left (entryOn self e i km h co) es b)) k =
    obj_get (stateRef b) k /\
  obj_get (queryRef (fold_left (entryOn self e i km h co) es b)) k =
    obj_get (queryRef b) k.
Proof.
  revert b. induction es as [|x es IH]; intros b H; cbn [fold_left]; [auto|].
  destruct (IH (entryOn self e i km h co b x)) as [-> ->];
    [intros y Hy; apply H; now right|].
  apply entryOn_other. apply H. now left.
Qed.

(** Once the rendered state is the object in [stateRef], the loop keeps it
    so. *)
Lemma entryOn_rendered self e i km h co b entry :
  internalState b = stateRef b ->
  internalState (entryOn self e i km h co b entry) =
  stateRef (entryOn self e i km h co b entry).
Proof.
  unfold entryOn. intros H. destruct (keyMapGet km entry.1); [|assumption].
  destruct (in_dec _ _ _).
  - unfold syncBinding. destruct (obj_get _ _); [reflexivity|].
    now destruct self.
  - now destruct self.
Qed.

Lemma fold_entryOn_rendered self e i km h co es b :
  internalState b = stateRef b ->
  internalState (fold_left (entryOn self e i km h co) es b) =
  stateRef (fold_left (entryOn self e i km h co) es b).
Proof.
  revert b. induction es as [|x es IH]; intros b H; cbn [fold_left]; auto.
  apply IH. now apply entryOn_rendered.
Qed.

(** An instance registered for [k] comes out of the loop holding, for [k],
    the value written (its own default when that value is null), the
    serialized query, and the same object as rendered state. *)
Lemma fold_entryOn_synced self e i km h co es b k v parser p :
  lastEntry es k v ->
  obj_get km k = Some parser ->
  In i (Sync.handlers k e) ->
  obj_get (keyMap b) k = Some p ->
  let value := clearOnDefaultValue co parser h v in
  let b' := fold_left (entryOn self e i km h co) es b in
  obj_get (stateRef b') k = Some (value ?? Parser.defaultValue p ?? JNull) /\
  obj_get (queryRef b') k = Some (serializedOf parser value) /\
  internalState b' = stateRef b'.
Proof.
  intros (pre & post & -> & Hpost) Hparser Hi Hp value b'.
  unfold b'. rewrite fold_left_app. cbn [fold_left].
  set (b1 := fold_left _ pre b).
  assert (Hk1 : obj_get (keyMap b1) k = Some p)
    by (unfold b1; now rewrite fold_entryOn_keyMap).
  set (b2 := entryOn self e i km h co b1 (k, v)).
  assert (H2 : obj_get (stateRef b2) k
               = Some (value ?? Parser.defaultValue p ?? JNull) /\
               obj_get (queryRef b2) k = Some (serializedOf parser value) /\
               internalState b2 = stateRef b2).
  { unfold b2, entryOn. cbn [fst snd]. rewrite (keyMapGet_own _ _ _ Hparser).
    destruct (in_dec Nat.eq_dec i (Sync.handlers k e)) as [_|Hn]; [|tauto].
    unfold syncBinding.
    replace (keyMap (if self then _ else b1)) with (keyMap b1)
      by now destruct self.
    rewrite Hk1. cbn [stateRef queryRef internalState state query].
    rewrite !obj_get_set_eq. auto. }
  destruct H2 as (Hs & Hq & Hr).
  destruct (fold_entryOn_other self e i km h co post b2 k) as [-> ->];
    [eauto using entries_other_keys|].
  split; [assumption|]. split; [assumption|].
  now apply fold_entryOn_rendered.
Qed.

(** *** The URL after [update] and the flush *)

Lemma update_updateQueue bid su co now w :
  let b := instance (instances w) bid in
  UpdateQueue.updateQueue (queue (snd (update bid su co now w))) =
  UpdateQueue.updateQueue
    (fold_left (enqueueEntry (keyMap b) (hookOptions b) co)
       (newStateOf (keyMap b) (stateRef b) su) (queue w)).
Proof.
  destruct (update_queue bid su co now w) as (_ & -> & _).
  apply schedule_updateQueue.
Qed.

(** The parameter set committed by the flush that follows an [update]. *)
Lemma flush_after_update bid su co now now' w k :
  wfWorld w ->
  let w' := snd (update bid su co now w) in
  sp_get (searchParams (adapter (flush now' w'))) k =
  match obj_get (UpdateQueue.updateQueue (queue w')) k with
  | Some u => UpdateQueue.pendingValue u
  | None => sp_get (searchParams (adapter w)) k
  end.
Proof.
  intros Hwf w'. destruct (update_wfWorld bid su co now w Hwf) as [Hnd _].
  destruct (update_handle bid su co now w) as (_ & Hc & _).
  destruct (update_queue bid su co now w) as (_ & _ & Ha & _).
  fold w' in Hnd, Hc, Ha. unfold flush.
  pose proof (flush_searchParams now' (queue w') (adapter w') _ Hc) as H.
  destruct (UpdateQueue.flush now' (queue w') (adapter w')) as [q2 a2].
  simpl in *. rewrite H, applyPending_get, Ha by assumption. reflexivity.
Qed.

Lemma merged_resolved_fields co parser h o :
  o = resolveOptions co parser h \/
  (exists previous,
     o = UpdateQueue.mergeOptions (resolveOptions co parser h) previous) ->
  history o = history (resolveOptions co parser h) /\
  shallow o = shallow (resolveOptions co parser h) /\
  scroll o = scroll (resolveOptions co parser h) /\
  throttleMs o = throttleMs (resolveOptions co parser h) /\
  (forall t, startTransition (resolveOptions co parser h) = Some t ->
             startTransition o = Some t).
Proof.
  intros [->|[previous ->]]; [auto 6|].
  simpl. repeat split; auto. intros t ->. reflexivity.
Qed.

(** C3.  Option precedence.  For every key that an [update] call writes,
    the Pending Update left in the queue carries, for each of [history],
    [shallow], [scroll] and [throttleMs], the call-level value when the call
    gave one, otherwise the parser's when it has one, otherwise the hook's
    (given or defaulted); [startTransition] is resolved in the same order
    whenever one of the three levels provides it.  When the queue was idle
    and the call writes that one key, the flush timer is armed with the
    delay computed from the resolved [throttleMs]. *)
Theorem update_resolves_options_call_parser_hook
    (w : World) (bid : nat) (b : Binding) (su : StateUpdater) (co : Options)
    (now : Z) (k : string) (v : jsval) (parser : KeyMapValue) :
  instances w !! bid = Some b ->
  obj_get (keyMap b) k = Some parser ->
  lastEntry (newStateOf (keyMap b) (stateRef b) su) k v ->
  let w' := snd (update bid su co now w) in
  let perKey := Parser.options parser in
  let hook := hookOptions b in
  exists u,
    obj_get (UpdateQueue.updateQueue (queue w')) k = Some u /\
    history (UpdateQueue.pendingOptions u) =
      Some (orElse (history co) (orElse (history perKey) (hookHistory hook))) /\
    shallow (UpdateQueue.pendingOptions u) =
      Some (orElse (shallow co) (orElse (shallow perKey) (hookShallow hook))) /\
    scroll (UpdateQueue.pendingOptions u) =
      Some (orElse (scroll co) (orElse (scroll perKey) (hookScroll hook))) /\
    throttleMs (UpdateQueue.pendingOptions u) =
      Some (orElse (throttleMs co)
              (orElse (throttleMs perKey) (hookThrottleMs hook))) /\
    (forall t,
       orOpt (startTransition co)
         (orOpt (startTransition perKey) (hookStartTransition hook)) = Some t ->
       startTransition (UpdateQueue.pendingOptions u) = Some t) /\
    (UpdateQueue.flushPromiseCache (queue w) = None ->
     UpdateQueue.updateQueue (queue w) = [] ->
     newStateOf (keyMap b) (stateRef b) su = [(k, v)] ->
     UpdateQueue.flushTimer (queue w') =
       Some (UpdateQueue.flushDelay
               (orElse (throttleMs co)
                  (orElse (throttleMs perKey) (hookThrottleMs hook)))
               (orElse (rateLimitFactor (adapter w)) 1)
               (now - UpdateQueue.lastFlushTimestamp (queue w)))).
Proof.
  intros Hb Hp Hlast w' perKey hook.
  pose proof (update_updateQueue bid su co now w) as Hq.
  pose proof (update_queue bid su co now w) as (_ & Hq' & _).
  unfold instance in Hq, Hq'. rewrite Hb in Hq, Hq'. cbv zeta in Hq, Hq'.
  fold w' in Hq, Hq'.
  destruct (fold_enqueueEntry_last (keyMap b) (hookOptions b) co _ (queue w)
              k v parser Hlast Hp) as (o & Hget & Ho).
  destruct (merged_resolved_fields _ _ _ _ Ho) as (H1 & H2 & H3 & H4 & H5).
  eexists. rewrite Hq. split; [exact Hget|]. cbn [UpdateQueue.pendingOptions].
  rewrite H1, H2, H3, H4. repeat split; try reflexivity.
  - intros t Ht. now apply H5.
  - intros Hidle Hempty Hone. rewrite Hq', Hone. cbn [fold_left].
    unfold enqueueEntry. cbn [fst snd]. rewrite (keyMapGet_own _ _ _ Hp).
    unfold UpdateQueue.scheduleFlushToURL, UpdateQueue.enqueueQueryStringUpdate.
    cbn [snd UpdateQueue.flushPromiseCache UpdateQueue.updateQueue
         UpdateQueue.lastFlushTimestamp UpdateQueue.flushTimer].
    rewrite Hidle, Hempty. reflexivity.
Qed.

Lemma update_resolves_options_call_parser_hook_witness :
  let parser :=
    Examples.withOptions Examples.parseAsInteger
      (MkOptions None None None (Some 200) None None) in
  let hook := destructureOptions 50 (MkOptions None None None (Some 50) None None) in
  let w := mount [("x", parser)] hook (emptyWorld []) in
  let co := MkOptions None None None (Some 10) None None in
  let w' := snd (update 0%nat (Partial [("x", JNum 1)]) co 0 w) in
  lastEntry [("x", JNum 1)] "x" (JNum 1) /\
  (exists u, obj_get (UpdateQueue.updateQueue (queue w')) "x" = Some u /\
             throttleMs (UpdateQueue.pendingOptions u) = Some 10) /\
  UpdateQueue.flushTimer (queue w') = Some 10.
Proof.
  intros parser hook w co w'.
  assert (Hlast : lastEntry [("x", JNum 1)] "x" (JNum 1)).
  { exists [], []. split; [reflexivity|]. simpl. tauto. }
  split; [exact Hlast|].
  destruct (update_resolves_options_call_parser_hook w 0%nat
              (instance (instances w) 0%nat) (Partial [("x", JNum 1)]) co 0
              "x" (JNum 1) parser eq_refl eq_refl Hlast)
    as (u & Hu & _ & _ & _ & Ht & _ & Htimer).
  split.
  - exists u. split; [exact Hu|exact Ht].
  - exact (Htimer eq_refl eq_refl eq_refl).
Defined.

(** *** Clear on default *)

Lemma strictEq_JNull v : strictEq v JNull = false <-> v <> JNull.
Proof. destruct v; simpl; split; congruence. Qed.

Lemma strictEq_JUndefined v : strictEq v JUndefined = false <-> v <> JUndefined.
Proof. destruct v; simpl; split; congruence. Qed.

(** C4, as the specification states it, fails: it lets an equality given
    with the call decide the test.  Take a hook over the one key [count]
    with default [0], clear-on-default asked for by the call, and the value
    [1].  A call-level equality that relates [1] and [0] would have the
    value replaced by null and [count] removed from the URL; [update] reads
    no such equality, compares with [===], enqueues [1], and the flush
    writes [count=1]. *)
Lemma clear_on_default_call_level_equality_counterexample :
  ~ (forall (callEq : option (jsval -> jsval -> bool)) (co : Options)
            (parser : KeyMapValue) (h : HookOptions) (v : jsval),
       orElse (clearOnDefault co)
         (orElse (clearOnDefault (Parser.options parser))
            (hookClearOnDefault h)) = true ->
       v <> JNull ->
       Parser.defaultValue parser <> JUndefined ->
       orElse callEq (orElse (Parser.eq parser) strictEq)
         v (Parser.defaultValue parser) = true ->
       let w := mount [("count", parser)] h (emptyWorld []) in
       let w' := snd (update 0%nat (Partial [("count", v)]) co 0 w) in
       clearOnDefaultValue co parser h v = JNull /\
       sp_get (searchParams (adapter (flush 50 w'))) "count" = None).
Proof.
  intros H.
  destruct (H (Some (fun _ _ => true))
              (MkOptions None None None None (Some true) None)
              (Examples.withDefault Examples.parseAsInteger (JNum 0))
              Examples.defaults (JNum 1))
    as [Hvalue Hurl].
  - reflexivity.
  - discriminate.
  - discriminate.
  - reflexivity.
  - vm_compute in Hurl. discriminate Hurl.
Qed.

(** C4, amended.  In an [update] call, for every key whose clear-on-default
    policy is active (call-level, else the parser's, else the hook's) and
    whose new non-null value equals the configured default under the key's
    equality (the parser's [eq], else [===]), null is enqueued in place of
    the value: the Pending Update of the key is a tombstone and the flush
    that follows leaves the key absent from the URL. *)
Theorem update_clears_value_equal_to_default
    (w : World) (bid : nat) (b : Binding) (su : StateUpdater) (co : Options)
    (now : Z) (k : string) (v : jsval) (parser : KeyMapValue) :
  wfWorld w ->
  instances w !! bid = Some b ->
  obj_get (keyMap b) k = Some parser ->
  lastEntry (newStateOf (keyMap b) (stateRef b) su) k v ->
  orElse (clearOnDefault co)
    (orElse (clearOnDefault (Parser.options parser))
       (hookClearOnDefault (hookOptions b))) = true ->
  v <> JNull ->
  Parser.defaultValue parser <> JUndefined ->
  orElse (Parser.eq parser) strictEq v (Parser.defaultValue parser) = true ->
  let w' := snd (update bid su co now w) in
  clearOnDefaultValue co parser (hookOptions b) v = JNull /\
  (exists o, obj_get (UpdateQueue.updateQueue (queue w')) k =
             Some (UpdateQueue.MkPendingUpdate None o)) /\
  forall now', sp_get (searchParams (adapter (flush now' w'))) k = None.
Proof.
  intros Hwf Hb Hp Hlast Hactive Hv Hd Heq w'.
  assert (Hnull : clearOnDefaultValue co parser (hookOptions b) v = JNull).
  { unfold clearOnDefaultValue. rewrite Hactive, Heq.
    apply strictEq_JNull in Hv. apply strictEq_JUndefined in Hd.
    now rewrite Hv, Hd. }
  pose proof (update_updateQueue bid su co now w) as Hq.
  unfold instance in Hq. rewrite Hb in Hq. cbv zeta in Hq. fold w' in Hq.
  destruct (fold_enqueueEntry_last (keyMap b) (hookOptions b) co _ (queue w)
              k v parser Hlast Hp) as (o & Hget & _).
  rewrite Hnull in Hget. rewrite <- Hq in Hget.
  split; [assumption|]. split; [eauto|].
  intros now'. unfold w'. rewrite flush_after_update by assumption.
  fold w'. now rewrite Hget.
Qed.

Lemma update_clears_value_equal_to_default_witness :
  let parser := Examples.withDefault Examples.parseAsInteger (JNum 0) in
  let w := mount [("count", parser)] Examples.defaults
                 (emptyWorld [("count", "3")]) in
  let co := MkOptions None None None None (Some true) None in
  let w' := snd (update 0%nat (Partial [("count", JNum 0)]) co 0 w) in
  wfWorld w /\
  lastEntry [("count", JNum 0)] "count" (JNum 0) /\
  sp_get (searchParams (adapter w)) "count" = Some "3" /\
  sp_get (searchParams (adapter (flush 50 w'))) "count" = None.
Proof.
  intros parser w co w'.
  assert (Hwf : wfWorld w) by idle_world.
  assert (Hlast : lastEntry [("count", JNum 0)] "count" (JNum 0)).
  { exists [], []. split; [reflexivity|]. simpl. tauto. }
  split; [exact Hwf|]. split; [exact Hlast|]. split; [reflexivity|].
  assert (Hv : JNum 0 <> JNull) by discriminate.
  assert (Hd : Parser.defaultValue parser <> JUndefined) by discriminate.
  destruct (update_clears_value_equal_to_default w 0%nat
              (instance (instances w) 0%nat) (Partial [("count", JNum 0)])
              co 0 "count" (JNum 0) parser Hwf eq_refl eq_refl Hlast
              eq_refl Hv Hd eq_refl)
    as (_ & _ & H).
  exact (H 50).
Defined.

(** *** Clear all *)

Lemma fold_obj_set_keys {A : Type} (es : list (string * A)) (o : obj A) k :
  In k (obj_keys (fold_left (fun o e => obj_set (fst e) (snd e) o) es o)) <->
  In k (obj_keys o) \/ In k (map fst es).
Proof.
  revert o. induction es as [|[k0 v0] es IH]; intros o; cbn [fold_left].
  - simpl. tauto.
  - rewrite IH. cbn [fst snd map In].
    destruct (in_dec String.string_dec k0 (obj_keys o)) as [Hin|Hn].
    + rewrite obj_keys_set_In by assumption.
      split; [tauto|]. intros [?|[<-|?]]; auto.
    + rewrite obj_keys_set_fresh by assumption. rewrite in_app_iff. simpl.
      tauto.
Qed.

Lemma fold_obj_set_NoDup {A : Type} (es : list (string * A)) (o : obj A) :
  NoDup (obj_keys o) ->
  NoDup (obj_keys (fold_left (fun o e => obj_set (fst e) (snd e) o) es o)).
Proof.
  revert o. induction es as [|e es IH]; intros o Hnd; cbn [fold_left]; auto.
  apply IH. now apply obj_set_NoDup.
Qed.

Lemma obj_set_values {A : Type} (P : A -> Prop) (o : obj A) k v :
  P v -> (forall e, In e o -> P (snd e)) ->
  forall e, In e (obj_set k v o) -> P (snd e).
Proof.
  intros Hv. induction o as [|[k0 v0] o IH]; simpl; intros Ho e.
  - intros [<-|[]]. assumption.
  - destruct (String.eqb k0 k); simpl.
    + intros [<-|Hin]; [assumption|]. apply Ho. now right.
    + intros [<-|Hin]; [apply (Ho (k0, v0)); now left|].
      apply IH; [|assumption]. intros e' He'. apply Ho. now right.
Qed.

(** The expansion of the clear-all signal: one entry per managed key, each
    of them null, no key twice. *)
Lemma clearAll_entries (km : UseQueryStatesKeysMap) (current : Values) :
  let es := newStateOf km current ClearAll in
  NoDup (obj_keys es) /\
  (forall k, In k (obj_keys es) <-> In k (obj_keys km)) /\
  (forall e, In e es -> snd e = JNull).
Proof.
  cbn [newStateOf]. unfold fromEntries. split; [|split].
  - apply fold_obj_set_NoDup. apply NoDup_nil_2.
  - intros k. rewrite fold_obj_set_keys, map_map. simpl.
    rewrite map_id. tauto.
  - assert (H : forall ks (o : Values),
              (forall e, In e o -> snd e = JNull) ->
              forall e,
                In e (fold_left (fun o e => obj_set (fst e) (snd e) o)
                        (map (fun key => (key, JNull)) ks) o) ->
                snd e = JNull).
    { induction ks as [|k0 ks IH]; intros o Ho; cbn [map fold_left]; auto.
      apply IH. cbn [fst snd].
      now apply (obj_set_values (fun v => v = JNull)). }
    apply H. intros e [].
Qed.

Lemma In_key_entry {A : Type} (o : obj A) k :
  In k (obj_keys o) -> exists v, In (k, v) o.
Proof.
  unfold obj_keys. rewrite in_map_iff. intros [[k' v] [<- Hin]]. eauto.
Qed.

Lemma clearOnDefaultValue_null co parser h :
  clearOnDefaultValue co parser h JNull = JNull.
Proof.
  unfold clearOnDefaultValue. simpl.
  rewrite andb_false_r. reflexivity.
Qed.

(** C5.  Clear all.  Passing null to [update] expands to one null entry per
    key of the hook's key map (an empty mapping, by contrast, enqueues
    nothing).  Every managed key is left with a tombstone in the queue and
    is absent from the URL once the flush has run.  A key outside the key
    map is not enqueued (its Pending Update, if any, is the one it had), is
    not emitted (the [stateRef] and [queryRef] of every instance still hold
    for it what they held, and so does the rendered state of an instance
    that rendered its [stateRef]), and comes out of the flush with the value
    it would have had without the call. *)
Theorem clear_all_removes_managed_keys_only
    (w : World) (bid : nat) (b : Binding) (co : Options) (now : Z) :
  wfWorld w ->
  instances w !! bid = Some b ->
  let w' := snd (update bid ClearAll co now w) in
  let newState := newStateOf (keyMap b) (stateRef b) ClearAll in
  (forall k v, In (k, v) newState <-> In k (obj_keys (keyMap b)) /\ v = JNull) /\
  UpdateQueue.updateQueue (queue (snd (update bid (Partial []) co now w))) =
    UpdateQueue.updateQueue (queue w) /\
  (forall k, In k (obj_keys (keyMap b)) ->
     (exists o, obj_get (UpdateQueue.updateQueue (queue w')) k =
                Some (UpdateQueue.MkPendingUpdate None o)) /\
     forall now', sp_get (searchParams (adapter (flush now' w'))) k = None) /\
  (forall k, ~ In k (obj_keys (keyMap b)) ->
     obj_get (UpdateQueue.updateQueue (queue w')) k =
       obj_get (UpdateQueue.updateQueue (queue w)) k /\
     (forall i bi, instances w !! i = Some bi ->
        exists bi', instances w' !! i = Some bi' /\
                    obj_get (stateRef bi') k = obj_get (stateRef bi) k /\
                    obj_get (queryRef bi') k = obj_get (queryRef bi) k /\
                    (internalState bi = stateRef bi ->
                     obj_get (internalState bi') k =
                       obj_get (internalState bi) k)) /\
     (forall now',
        sp_get (searchParams (adapter (flush now' w'))) k =
        match obj_get (UpdateQueue.updateQueue (queue w)) k with
        | Some u => UpdateQueue.pendingValue u
        | None => sp_get (searchParams (adapter w)) k
        end)).
Proof.
  intros Hwf Hb w' newState.
  destruct (clearAll_entries (keyMap b) (stateRef b)) as (Hnd & Hkeys & Hnull).
  fold newState in Hnd, Hkeys, Hnull.
  pose proof (update_updateQueue bid ClearAll co now w) as Hq.
  unfold instance in Hq. rewrite Hb in Hq. cbv zeta in Hq.
  fold w' newState in Hq.
  assert (Hentries : forall k v,
            In (k, v) newState <-> In k (obj_keys (keyMap b)) /\ v = JNull).
  { intros k v. split.
    - intros Hin. split; [|exact (Hnull _ Hin)].
      apply Hkeys. unfold obj_keys. now apply (in_map fst) in Hin.
    - intros [Hk ->]. apply Hkeys in Hk. apply In_key_entry in Hk as [v Hv].
      now rewrite <- (Hnull _ Hv). }
  split; [exact Hentries|]. split; [|split].
  - pose proof (update_updateQueue bid (Partial []) co now w) as Hq0.
    cbv zeta in Hq0. rewrite Hq0. reflexivity.
  - intros k Hk. destruct (obj_get_In _ _ Hk) as [parser Hp].
    assert (Hlast : lastEntry newState k JNull).
    { apply lastEntry_unique_key; [assumption|]. now apply Hentries. }
    destruct (fold_enqueueEntry_last (keyMap b) (hookOptions b) co _ (queue w)
                k JNull parser Hlast Hp) as (o & Hget & _).
    rewrite clearOnDefaultValue_null in Hget. rewrite <- Hq in Hget.
    split; [eauto|]. intros now'. unfold w'.
    rewrite flush_after_update by assumption. fold w'. now rewrite Hget.
  - intros k Hk.
    assert (Hother : forall entry, In entry newState ->
              fst entry <> k \/ keyMapGet (keyMap b) (fst entry) = None).
    { intros [k0 v0] Hin. left. simpl. intros ->.
      apply Hentries in Hin. tauto. }
    assert (Hsame : obj_get (UpdateQueue.updateQueue (queue w')) k =
                    obj_get (UpdateQueue.updateQueue (queue w)) k).
    { rewrite Hq. now apply fold_enqueueEntry_other. }
    split; [exact Hsame|]. split.
    + intros i bi Hi. unfold w'.
      rewrite (update_lookup _ _ _ _ _ _ _ Hb), Hi. simpl.
      eexists. split; [reflexivity|].
      destruct (fold_entryOn_other (bool_decide (i = bid)) (emitter w) i
                  (keyMap b) (hookOptions b) co newState bi k Hother)
        as [Hs Hq'].
      split; [exact Hs|]. split; [exact Hq'|].
      intros Hsame'. rewrite fold_entryOn_rendered by assumption.
      rewrite Hsame'. exact Hs.
    + intros now'. unfold w'. rewrite flush_after_update by assumption.
      fold w'. now rewrite Hsame.
Qed.

Lemma clear_all_removes_managed_keys_only_witness :
  let km := [("lat", Examples.parseAsInteger); ("lng", Examples.parseAsInteger)] in
  let w := mount km Examples.defaults
             (emptyWorld [("lat", "45"); ("page", "2"); ("lng", "5")]) in
  let w' := snd (update 0%nat ClearAll noOptions 0 w) in
  wfWorld w /\
  sp_get (searchParams (adapter (flush 50 w'))) "lat" = None /\
  sp_get (searchParams (adapter (flush 50 w'))) "lng" = None /\
  sp_get (searchParams (adapter (flush 50 w'))) "page" = Some "2".
Proof.
  intros km w w'.
  assert (Hwf : wfWorld w) by idle_world.
  split; [exact Hwf|].
  pose proof (clear_all_removes_managed_keys_only w 0%nat
                (instance (instances w) 0%nat) noOptions 0 Hwf eq_refl)
    as (_ & _ & Hin & Hout).
  split; [|split].
  - exact (proj2 (Hin "lat" (or_introl eq_refl)) 50).
  - exact (proj2 (Hin "lng" (or_intror (or_introl eq_refl))) 50).
  - assert (Hpage : ~ In "page" (obj_keys km)).
    { simpl. intros [H|[H|[]]]; discriminate H. }
    exact (proj2 (proj2 (Hout "page" Hpage)) 50).
Defined.

(** *** What a subscriber holds when [update] returns *)

Lemma entryOn_static self e i km h co b entry :
  hookOptions (entryOn self e i km h co b entry) = hookOptions b /\
  effectDeps (entryOn self e i km h co b entry) = effectDeps b.
Proof.
  unfold entryOn. destruct (keyMapGet km entry.1) as [parser|]; [|auto].
  set (value := clearOnDefaultValue co parser h entry.2).
  destruct (in_dec _ _ _).
  - destruct (syncBinding_keyMap entry.1
                {| state := value; query := serializedOf parser value |}
                (if self
                 then writeQuery entry.1 (serializedOf parser value) b
                 else b)) as (_ & -> & ->).
    now destruct self.
  - now destruct self.
Qed.

Lemma fold_entryOn_static self e i km h co es b :
  hookOptions (fold_left (entryOn self e i km h co) es b) = hookOptions b /\
  effectDeps (fold_left (entryOn self e i km h co) es b) = effectDeps b.
Proof.
  revert b. induction es as [|x es IH]; intros b; cbn [fold_left]; auto.
  destruct (IH (entryOn self e i km h co b x)) as [-> ->].
  apply entryOn_static.
Qed.

(** When [update] returns, every instance registered for a key the call
    wrote holds the new value for it (its own default when the value is
    null) in [stateRef] and as rendered state, and the serialized query in
    [queryRef]. *)
Lemma update_syncs_subscriber w bid B0 i Bi su co now k v parser p :
  instances w !! bid = Some B0 ->
  instances w !! i = Some Bi ->
  obj_get (keyMap B0) k = Some parser ->
  obj_get (keyMap Bi) k = Some p ->
  In i (Sync.handlers k (emitter w)) ->
  lastEntry (newStateOf (keyMap B0) (stateRef B0) su) k v ->
  let value := clearOnDefaultValue co parser (hookOptions B0) v in
  exists Bi',
    instances (snd (update bid su co now w)) !! i = Some Bi' /\
    keyMap Bi' = keyMap Bi /\
    effectDeps Bi' = effectDeps Bi /\
    obj_get (stateRef Bi') k = Some (value ?? Parser.defaultValue p ?? JNull) /\
    obj_get (queryRef Bi') k = Some (serializedOf parser value) /\
    internalState Bi' = stateRef Bi'.
Proof.
  intros Hb Hi Hparser Hp Hsub Hlast value.
  rewrite (update_lookup _ _ _ _ _ _ _ Hb), Hi. simpl.
  eexists. split; [reflexivity|].
  split; [apply fold_entryOn_keyMap|].
  split; [apply fold_entryOn_static|].
  now apply fold_entryOn_synced.
Qed.

(** C7.  The broadcast comes before the Promise.  In an [update] call the
    loop that enqueues and emits runs to its end before
    [scheduleFlushToURL] is called: in the world the loop leaves, every
    instance registered for a written key has already taken the new value,
    while the call has neither created nor resolved a Promise.  The Promise
    returned is the one [scheduleFlushToURL] gives on that world; it is
    unresolved when [update] returns and is resolved only by the flush
    that follows. *)
Theorem broadcast_precedes_promise_resolution
    (w : World) (bid i : nat) (B0 Bi : Binding) (su : StateUpdater)
    (co : Options) (now : Z) (k : string) (v : jsval)
    (parser p : KeyMapValue) :
  wfWorld w ->
  instances w !! bid = Some B0 ->
  instances w !! i = Some Bi ->
  obj_get (keyMap B0) k = Some parser ->
  obj_get (keyMap Bi) k = Some p ->
  In i (Sync.handlers k (emitter w)) ->
  lastEntry (newStateOf (keyMap B0) (stateRef B0) su) k v ->
  let value := clearOnDefaultValue co parser (hookOptions B0) v in
  let afterLoop :=
    fold_left (updateEntry bid (keyMap B0) (hookOptions B0) co)
              (newStateOf (keyMap B0) (stateRef B0) su) w in
  let r := update bid su co now w in
  (exists Bi',
     instances afterLoop !! i = Some Bi' /\
     obj_get (stateRef Bi') k = Some (value ?? Parser.defaultValue p ?? JNull) /\
     obj_get (queryRef Bi') k = Some (serializedOf parser value) /\
     internalState Bi' = stateRef Bi') /\
  UpdateQueue.flushPromiseCache (queue afterLoop) =
    UpdateQueue.flushPromiseCache (queue w) /\
  UpdateQueue.nextPromise (queue afterLoop) = UpdateQueue.nextPromise (queue w) /\
  UpdateQueue.settled (queue afterLoop) = UpdateQueue.settled (queue w) /\
  fst r = fst (UpdateQueue.scheduleFlushToURL
                 (orElse (rateLimitFactor (adapter afterLoop)) 1) now
                 (queue afterLoop)) /\
  instances (snd r) = instances afterLoop /\
  UpdateQueue.resolutions (queue (snd r)) (fst r) = [] /\
  forall now',
    UpdateQueue.resolutions (queue (flush now' (snd r))) (fst r) =
      [searchParams (adapter (flush now' (snd r)))].
Proof.
  intros Hwf Hb Hi Hparser Hp Hsub Hlast value afterLoop r.
  destruct (update_syncs_subscriber w bid B0 i Bi su co now k v parser p
              Hb Hi Hparser Hp Hsub Hlast) as (Bi' & HBi' & _ & _ & Hs & Hq & Hr).
  pose proof (update_instances bid su co now w) as Hinst.
  unfold instance in Hinst. rewrite Hb in Hinst. cbv zeta in Hinst.
  fold afterLoop r in Hinst.
  destruct (fold_updateEntry_frame bid (keyMap B0) (hookOptions B0) co
              (newStateOf (keyMap B0) (stateRef B0) su) w)
    as (Ha & _ & _ & Hqueue).
  fold afterLoop in Ha, Hqueue.
  destruct (fold_enqueueEntry_promises (keyMap B0) (hookOptions B0) co
              (newStateOf (keyMap B0) (stateRef B0) su) (queue w))
    as (Hc & Hn & Hset & _).
  rewrite <- Hqueue in Hc, Hn, Hset.
  destruct (update_queue bid su co now w) as (Hfst & _).
  unfold instance in Hfst. rewrite Hb in Hfst. cbv zeta in Hfst.
  rewrite <- Hqueue, <- Ha in Hfst. fold r in Hfst.
  destruct (update_handle bid su co now w) as (_ & Hcached & _).
  fold r in Hcached, HBi'.
  pose proof (update_wfWorld bid su co now w Hwf) as Hwf'. fold r in Hwf'.
  assert (Hcached' : UpdateQueue.flushPromiseCache (queue (snd r)) = Some (fst r)).
  { rewrite Hcached. f_equal. symmetry. apply update_handle. }
  split; [|repeat split; try assumption].
  - exists Bi'. rewrite <- Hinst. auto.
  - apply resolutions_unsettled. destruct Hwf' as [_ [H _]]. now apply H.
  - intros now'. now apply flush_resolves.
Qed.

Lemma broadcast_precedes_promise_resolution_witness :
  let km := [("q", Examples.withDefault Examples.parseAsString (JStr ""))] in
  let w := mount km Examples.defaults (mount km Examples.defaults (emptyWorld [])) in
  let r := update 0%nat (Partial [("q", JStr "tea")]) noOptions 0 w in
  wfWorld w /\
  In 1%nat (Sync.handlers "q" (emitter w)) /\
  lastEntry [("q", JStr "tea")] "q" (JStr "tea") /\
  obj_get (stateRef (instance (instances (snd r)) 1%nat)) "q" = Some (JStr "tea") /\
  UpdateQueue.resolutions (queue (snd r)) (fst r) = [] /\
  UpdateQueue.resolutions (queue (flush 50 (snd r))) (fst r) = [[("q", "tea")]].
Proof.
  intros km w r.
  assert (Hwf : wfWorld w) by idle_world.
  assert (Hsub : In 1%nat (Sync.handlers "q" (emitter w))).
  { simpl. auto. }
  assert (Hlast : lastEntry [("q", JStr "tea")] "q" (JStr "tea")).
  { exists [], []. split; [reflexivity|]. simpl. tauto. }
  split; [exact Hwf|]. split; [exact Hsub|]. split; [exact Hlast|].
  destruct (broadcast_precedes_promise_resolution w 0%nat 1%nat
              (instance (instances w) 0%nat) (instance (instances w) 1%nat)
              (Partial [("q", JStr "tea")]) noOptions 0 "q" (JStr "tea")
              (Examples.withDefault Examples.parseAsString (JStr ""))
              (Examples.withDefault Examples.parseAsString (JStr ""))
              Hwf eq_refl eq_refl eq_refl eq_refl Hsub Hlast)
    as ((Bi' & HBi' & Hs & _) & _ & _ & _ & _ & Hinst & Hunres & Hres).
  split; [|split].
  - unfold instance. fold r in Hinst. rewrite Hinst, HBi'. exact Hs.
  - exact Hunres.
  - etransitivity; [exact (Hres 50)|reflexivity].
Defined.

(** C10.  An updater function is applied to [stateRef.current], and that
    ref already holds what earlier calls of the same tick wrote.  After an
    [update] call by any instance (the instance itself or a sibling whose
    broadcast it receives) and with no render in between, the state handed
    to an updater function of instance [bid] has, for each key the earlier
    call wrote, the value written (the default of [bid] when it was null):
    calling [update] with the updater [f] is calling it with the mapping
    [f] returns on that state. *)
Theorem updater_function_sees_same_tick_writes
    (w : World) (first bid : nat) (B0 B : Binding) (su : StateUpdater)
    (co : Options) (now : Z) (k : string) (v : jsval)
    (parser p : KeyMapValue) (f : Values -> Values) (co2 : Options)
    (now2 : Z) :
  instances w !! first = Some B0 ->
  instances w !! bid = Some B ->
  obj_get (keyMap B0) k = Some parser ->
  obj_get (keyMap B) k = Some p ->
  In bid (Sync.handlers k (emitter w)) ->
  lastEntry (newStateOf (keyMap B0) (stateRef B0) su) k v ->
  let value := clearOnDefaultValue co parser (hookOptions B0) v in
  let w1 := snd (update first su co now w) in
  let current := stateRef (instance (instances w1) bid) in
  obj_get current k = Some (value ?? Parser.defaultValue p ?? JNull) /\
  update bid (UpdaterFn f) co2 now2 w1 =
  update bid (Partial (f current)) co2 now2 w1.
Proof.
  intros Hb0 Hb Hparser Hp Hsub Hlast value w1 current.
  destruct (update_syncs_subscriber w first B0 bid B su co now k v parser p
              Hb0 Hb Hparser Hp Hsub Hlast) as (B' & HB' & Hkm & _ & Hs & _).
  fold w1 in HB'. split.
  - unfold current, instance. rewrite HB'. exact Hs.
  - unfold update at 1 2. cbn [newStateOf]. reflexivity.
Qed.

Lemma updater_function_sees_same_tick_writes_witness :
  let km := [("count", Examples.withDefault Examples.parseAsInteger (JNum 0))] in
  let w := mount km Examples.defaults (emptyWorld []) in
  let increment := fun old : Values =>
    match obj_get old "count" with
    | Some (JNum n) => [("count", JNum (n + 1))]
    | _ => []
    end in
  let w1 := snd (update 0%nat (Partial [("count", JNum 1)]) noOptions 0 w) in
  let w2 := snd (update 0%nat (UpdaterFn increment) noOptions 0 w1) in
  In 0%nat (Sync.handlers "count" (emitter w)) /\
  lastEntry [("count", JNum 1)] "count" (JNum 1) /\
  obj_get (stateRef (instance (instances w1) 0%nat)) "count" = Some (JNum 1) /\
  w2 = snd (update 0%nat (Partial [("count", JNum 2)]) noOptions 0 w1) /\
  searchParams (adapter (flush 50 w2)) = [("count", "2")].
Proof.
  intros km w increment w1 w2.
  assert (Hsub : In 0%nat (Sync.handlers "count" (emitter w))).
  { simpl. auto. }
  assert (Hlast : lastEntry [("count", JNum 1)] "count" (JNum 1)).
  { exists [], []. split; [reflexivity|]. simpl. tauto. }
  split; [exact Hsub|]. split; [exact Hlast|].
  destruct (updater_function_sees_same_tick_writes w 0%nat 0%nat
              (instance (instances w) 0%nat) (instance (instances w) 0%nat)
              (Partial [("count", JNum 1)]) noOptions 0 "count" (JNum 1)
              (Examples.withDefault Examples.parseAsInteger (JNum 0))
              (Examples.withDefault Examples.parseAsInteger (JNum 0))
              increment noOptions 0 eq_refl eq_refl eq_refl eq_refl Hsub Hlast)
    as [Hcur Hcall].
  split; [exact Hcur|]. split.
  - unfold w2. fold w1 in Hcall. rewrite Hcall. reflexivity.
  - reflexivity.
Defined.

(** *** The query cache rebuilt from the URL *)

Lemma fold_obj_set_get {A : Type} (es : list (string * A)) (o : obj A) k x :
  (forall v, In (k, v) es -> v = x) ->
  obj_get (fold_left (fun o e => obj_set (fst e) (snd e) o) es o) k =
  if in_dec String.string_dec k (map fst es) then Some x else obj_get o k.
Proof.
  revert o. induction es as [|[k0 v0] es IH]; intros o Hall; cbn [fold_left].
  - reflexivity.
  - rewrite IH by (intros v Hv; apply Hall; now right).
    cbn [fst snd map].
    destruct (in_dec String.string_dec k (map fst es)) as [Hin|Hn],
      (in_dec String.string_dec k (k0 :: map fst es)) as [Hin'|Hn'];
      simpl in *; try reflexivity; try tauto.
    + rewrite obj_get_set. destruct (String.eqb_spec k0 k) as [->|Hne].
      * f_equal. apply Hall. now left.
      * tauto.
    + rewrite obj_get_set_ne; [reflexivity|]. tauto.
Qed.

(** *** Rendering after the flush *)

Lemma serializedOf_None parser value :
  serializedOf parser value = None -> value = JNull.
Proof. unfold serializedOf, UpdateQueue.serializeOrNull. now destruct value. Qed.



Lemma render_lookup bid w i :
  instances (render bid w) !! i =
  (if bool_decide (i = bid)
   then fun b => fst (renderBinding (searchParams (adapter w)) b)
   else id) <$> instances w !! i.
Proof.
  unfold render. destruct (instances w !! bid) as [b|] eqn:Hb.
  - destruct (renderBinding _ b) as [b' d] eqn:E. cbn [instances].
    destruct (decide (i = bid)) as [->|Hne].
    + rewrite bool_decide_true, Hb by reflexivity. simpl. rewrite E.
      apply list_lookup_insert_eq. now apply lookup_lt_Some in Hb.
    + rewrite bool_decide_false by assumption.
      rewrite list_lookup_insert_ne by congruence.
      now destruct (instances w !! i).
  - destruct (decide (i = bid)) as [->|Hne].
    + now rewrite Hb.
    + rewrite bool_decide_false by assumption.
      now destruct (instances w !! i).
Qed.


Lemma flush_instances now w : instances (flush now w) = instances w.
Proof. unfold flush. now destruct (UpdateQueue.flush _ _ _). Qed.


(** *** Renders between the update and the flush *)











(** ** [parseMap]: the shape of its result, a second pass, its log *)

Lemma coalesce_defined (x d : jsval) : x ?? d ?? JNull <> JUndefined.
Proof. destruct x, d; discriminate. Qed.

Lemma parseMapStep_shape keyMap sp cs o cq key d o1 cq1 :
  parseMapStep keyMap sp cs (o, cq) key = (d, Normal (o1, cq1)) ->
  exists v, o1 = obj_set key v o /\ v <> JUndefined.
Proof.
  unfold parseMapStep. destruct (obj_get keyMap key) as [p|]; [|discriminate].
  destruct (cacheHit cq cs key (getQuery sp key)).
  - unfold ret. intros [= <- <- <-].
    eexists; split; [reflexivity|apply coalesce_defined].
  - destruct (getQuery sp key) as [q|]; simpl.
    + destruct (safeParse_normal (Parser.parse p) q key) as (d0 & v0 & ->).
      simpl. intros [= <- <- <-].
      eexists; split; [reflexivity|apply coalesce_defined].
    + intros [= <- <- <-]. eexists; split; [reflexivity|].
      apply (coalesce_defined JNull).
Qed.

Lemma reduce_cons_normal {A B : Type} (f : B -> A -> Eff B) x xs init d r :
  reduce f (x :: xs) init = (d, Normal r) ->
  exists d1 acc d2,
    f init x = (d1, Normal acc) /\ reduce f xs acc = (d2, Normal r) /\
    d = (d1 ++ d2)%list.
Proof.
  cbn [reduce]. unfold bind. destruct (f init x) as [d1 [acc|e]]; [|discriminate].
  destruct (reduce f xs acc) as [d2 r'] eqn:E. intros [= <- ->]. eauto 6.
Qed.

(** The reducer appends the keys it goes over, in order, to the object it
    builds. *)
Lemma parseMap_reduce_shape keyMap sp cs ks :
  forall o cq d o' cq',
    reduce (parseMapStep keyMap sp cs) ks (o, cq) = (d, Normal (o', cq')) ->
    NoDup ks ->
    (forall k, In k ks -> ~ In k (obj_keys o)) ->
    (forall e, In e o -> snd e <> JUndefined) ->
    obj_keys o' = (obj_keys o ++ ks)%list /\
    (forall e, In e o' -> snd e <> JUndefined).
Proof.
  induction ks as [|k0 ks IH]; intros o cq d o' cq' Hred Hnd Hfresh Hdef.
  - cbn in Hred. injection Hred as <- <- <-. now rewrite app_nil_r.
  - apply reduce_cons_normal in Hred as (d1 & [o1 cq1] & d2 & Hstep & Hred & _).
    apply parseMapStep_shape in Hstep as (v & -> & Hv).
    apply NoDup_cons in Hnd as [Hk0 Hnd]. rewrite list_elem_of_In in Hk0.
    assert (Hkeys : obj_keys (obj_set k0 v o) = (obj_keys o ++ [k0])%list).
    { apply obj_keys_set_fresh. apply Hfresh. now left. }
    destruct (IH _ _ _ _ _ Hred Hnd) as [Hk Hd].
    + intros k Hin. rewrite Hkeys, in_app_iff. simpl.
      intros [H|[<-|[]]]; [|tauto]. apply (Hfresh k); [now right|assumption].
    + exact (obj_set_values (fun x => x <> JUndefined) o k0 v Hv Hdef).
    + split; [|exact Hd]. rewrite Hk, Hkeys, <- app_assoc. reflexivity.
Qed.

Lemma parseMap_shape keyMap sp cq cs d st cq' :
  NoDup (obj_keys keyMap) ->
  parseMap keyMap sp cq cs = (d, Normal (st, cq')) ->
  obj_keys st = obj_keys keyMap /\
  (forall k v, In (k, v) st -> v <> JUndefined).
Proof.
  intros Hnd Hrun. unfold parseMap in Hrun.
  destruct (parseMap_reduce_shape _ _ _ _ _ _ _ _ _ Hrun Hnd) as [Hk Hd].
  - intros k _ [].
  - intros e [].
  - split; [exact Hk|]. intros k v Hin. exact (Hd (k, v) Hin).
Qed.

(** X1.  The state [parseMap] returns has exactly the keys of the key map,
    in the key map's order, whatever the URL and the caches hold.  No key is
    left [undefined]: each one holds a value, and a key with a default other
    than null never resolves to null. *)
Theorem parseMap_state_has_the_keys_of_the_key_map
    (keyMap : UseQueryStatesKeysMap) (sp : option URLSearchParams)
    (cq : option QueryCache) (cs : option Values) :
  NoDup (obj_keys keyMap) ->
  exists st cq' d,
    parseMap keyMap sp cq cs = (d, Normal (st, cq')) /\
    obj_keys st = obj_keys keyMap /\
    (forall k v, In (k, v) st -> v <> JUndefined) /\
    (forall k p, obj_get keyMap k = Some p ->
       exists v, obj_get st k = Some v /\
                 (v = JNull -> Parser.defaultValue p = JUndefined \/
                               Parser.defaultValue p = JNull)).
Proof.
  intros Hnd.
  destruct (parseMap_lookup keyMap sp cq cs Hnd)
    as (st & cq' & d & Hrun & _ & _ & Hin).
  destruct (parseMap_shape keyMap sp cq cs d st cq' Hnd Hrun) as [Hk Hd].
  exists st, cq', d. split; [exact Hrun|]. split; [exact Hk|].
  split; [exact Hd|].
  intros k p Hp. destruct (Hin k p Hp) as (dk & v & Hr & Hv & _).
  exists v. split; [exact Hv|]. intros ->.
  unfold resolveKey in Hr.
  destruct (cacheHit cq cs k (getQuery sp k)).
  - injection Hr as _ Hr. destruct (Parser.defaultValue p); auto;
      destruct (cachedValue cs k); discriminate.
  - destruct (getQuery sp k) as [q|]; simpl in Hr.
    + destruct (safeParse_normal (Parser.parse p) q k) as (d0 & v0 & E).
      rewrite E in Hr. simpl in Hr. injection Hr as _ Hr.
      destruct (Parser.defaultValue p); auto; destruct v0; discriminate.
    + injection Hr as _ Hr. destruct (Parser.defaultValue p); auto; discriminate.
Qed.

Lemma parseMap_state_has_the_keys_of_the_key_map_witness :
  let keyMap := [("id", Examples.withDefault Examples.parseAsNever (JNum 1));
                 ("q", Examples.parseAsString)] in
  NoDup (obj_keys keyMap) /\
  exists st cq' d,
    parseMap keyMap (Some [("q", "tea"); ("id", "x")]) None None =
      (d, Normal (st, cq')) /\
    obj_keys st = ["id"; "q"].
Proof.
  intros keyMap.
  assert (Hnd : NoDup (obj_keys keyMap)).
  { apply NoDup_ListNoDup. repeat constructor; simpl; intuition discriminate. }
  split; [exact Hnd|].
  destruct (parseMap_state_has_the_keys_of_the_key_map keyMap
              (Some [("q", "tea"); ("id", "x")]) None None Hnd)
    as (st & cq' & d & Hrun & Hkeys & _).
  exists st, cq', d. split; [exact Hrun|exact Hkeys].
Defined.

(** Objects with the same keys, in the same order, and the same value under
    each key are the same object. *)
Lemma obj_ext {A : Type} (a b : obj A) :
  obj_keys a = obj_keys b ->
  NoDup (obj_keys a) ->
  (forall k, obj_get a k = obj_get b k) ->
  a = b.
Proof.
  revert b. induction a as [|[k v] a IH]; intros [|[k' v'] b] Hk Hnd Hget;
    try discriminate; [reflexivity|].
  cbn in Hk. injection Hk as <- Hk.
  apply NoDup_cons in Hnd as [Hfresh Hnd]. rewrite list_elem_of_In in Hfresh.
  pose proof (Hget k) as Hv. cbn in Hv. rewrite String.eqb_refl in Hv.
  injection Hv as <-. f_equal. apply IH; [assumption..|].
  intros k'. destruct (String.eqb_spec k k') as [<-|Hne].
  - rewrite (obj_get_None a k Hfresh). symmetry. apply obj_get_None.
    unfold obj_keys in *. now rewrite <- Hk.
  - pose proof (Hget k') as H. cbn in H.
    apply String.eqb_neq in Hne. now rewrite Hne in H.
Qed.

Lemma resolveKey_value_form p sp cq cs key d v :
  resolveKey p sp cq cs key = (d, Normal v) ->
  exists x, v = x ?? Parser.defaultValue p ?? JNull.
Proof.
  unfold resolveKey. destruct (cacheHit cq cs key (getQuery sp key)).
  - intros [= _ <-]. eauto.
  - destruct (getQuery sp key) as [q|]; simpl.
    + destruct (safeParse_normal (Parser.parse p) q key) as (d0 & v0 & ->).
      simpl. intros [= _ <-]. eauto.
    + intros [= _ <-]. now exists JNull.
Qed.

Lemma resolveKey_hit p sp c cs key :
  obj_get c key = Some (getQuery sp key) ->
  resolveKey p sp (Some c) (Some cs) key =
  ([], Normal (cachedValue (Some cs) key ?? Parser.defaultValue p ?? JNull)).
Proof.
  intros H. unfold resolveKey, cacheHit.
  now rewrite (proj2 (queryEq_true _ _) H).
Qed.

(** When every key is a cache hit the reducer logs nothing and leaves the
    cache alone. *)
Lemma parseMap_reduce_hits keyMap sp cs c ks :
  forall o,
    (forall k, In k ks ->
       In k (obj_keys keyMap) /\ obj_get c k = Some (getQuery sp k)) ->
    exists o',
      reduce (parseMapStep keyMap sp (Some cs)) ks (o, Some c) =
      ([], Normal (o', Some c)).
Proof.
  induction ks as [|k0 ks IH]; intros o Hall; cbn [reduce].
  - unfold ret. eauto.
  - destruct (Hall k0) as [Hin Hhit]; [now left|].
    destruct (obj_get_In keyMap k0 Hin) as [p0 Hp0].
    rewrite (parseMapStep_resolveKey _ _ _ _ _ _ _ _ _ Hp0
               (resolveKey_hit p0 sp c cs k0 Hhit)).
    unfold cacheHit. rewrite (proj2 (queryEq_true _ _) Hhit).
    destruct (IH (obj_set k0
                    (cachedValue (Some cs) k0 ?? Parser.defaultValue p0 ?? JNull) o))
      as (o' & Hred).
    { intros k Hk. apply Hall. now right. }
    unfold bind. rewrite Hred. eauto.
Qed.

(** X2.  [parseMap] called with a query cache leaves that cache agreeing
    with the URL on every key of the key map and as it was on every other
    key.  A second call on the same URL with the cache and the state of the
    first one returns the same state, changes nothing in the cache and logs
    nothing: every key is a cache hit, so no parser runs again, not even
    one that threw the first time. *)
Theorem parseMap_second_pass_reuses_everything
    (keyMap : UseQueryStatesKeysMap) (sp : option URLSearchParams)
    (cq : QueryCache) (cs : option Values) :
  NoDup (obj_keys keyMap) ->
  exists st cq' d,
    parseMap keyMap sp (Some cq) cs = (d, Normal (st, Some cq')) /\
    (forall k, In k (obj_keys keyMap) -> obj_get cq' k = Some (getQuery sp k)) /\
    (forall k, ~ In k (obj_keys keyMap) -> obj_get cq' k = obj_get cq k) /\
    parseMap keyMap sp (Some cq') (Some st) = ([], Normal (st, Some cq')).
Proof.
  intros Hnd.
  destruct (parseMap_lookup keyMap sp (Some cq) cs Hnd)
    as (st & cq' & d & Hrun & Hc & _ & Hin).
  destruct cq' as [cq'|]; [|contradiction]. cbn [cacheAfter] in Hc.
  assert (Hmanaged : forall k, In k (obj_keys keyMap) ->
                       obj_get cq' k = Some (getQuery sp k)).
  { intros k Hk. rewrite Hc. now destruct (in_dec _ _ _). }
  exists st, cq', d. split; [exact Hrun|]. split; [exact Hmanaged|]. split.
  { intros k Hk. rewrite Hc. now destruct (in_dec _ _ _). }
  destruct (parseMap_shape _ _ _ _ _ _ _ Hnd Hrun) as [Hkeys _].
  destruct (parseMap_reduce_hits keyMap sp st cq' (obj_keys keyMap) [])
    as (st2 & Hrun2); [auto|].
  change (parseMap keyMap sp (Some cq') (Some st) =
          ([], Normal (st2, Some cq'))) in Hrun2.
  rewrite Hrun2. do 3 f_equal.
  destruct (parseMap_shape _ _ _ _ _ _ _ Hnd Hrun2) as [Hkeys2 _].
  destruct (parseMap_lookup keyMap sp (Some cq') (Some st) Hnd)
    as (st3 & cq3 & d3 & Hrun3 & _ & Hout3 & Hin3).
  rewrite Hrun2 in Hrun3. injection Hrun3 as <- <- <-.
  apply obj_ext; [congruence|now rewrite Hkeys2|].
  intros k. destruct (obj_get keyMap k) as [p|] eqn:Hp.
  - destruct (Hin k p Hp) as (dk & v & Hr & Hv & _).
    destruct (Hin3 k p Hp) as (dk3 & v3 & Hr3 & Hv3 & _).
    rewrite Hv3, Hv. f_equal.
    rewrite resolveKey_hit in Hr3
      by (apply Hmanaged; eauto using obj_get_Some_In).
    injection Hr3 as _ <-. unfold cachedValue. rewrite Hv. cbn [orElse].
    apply resolveKey_value_form in Hr as [x ->]. apply coalesce_idem.
  - assert (Hn : ~ In k (obj_keys keyMap)).
    { intros H. apply obj_get_In in H as [? ?]. congruence. }
    rewrite Hout3 by assumption.
    symmetry. apply obj_get_None. now rewrite Hkeys.
Qed.

Lemma parseMap_second_pass_reuses_everything_witness :
  let keyMap := [("id", Examples.withDefault Examples.parseAsNever (JNum 1));
                 ("q", Examples.parseAsString)] in
  let sp := Some [("id", "x"); ("q", "tea")] in
  NoDup (obj_keys keyMap) /\
  exists st cq' d,
    parseMap keyMap sp (Some []) None = (d, Normal (st, Some cq')) /\
    d = [MkDiagnostic LevelWarn "id" "x" "cannot parse x"] /\
    parseMap keyMap sp (Some cq') (Some st) = ([], Normal (st, Some cq')).
Proof.
  intros keyMap sp.
  assert (Hnd : NoDup (obj_keys keyMap)).
  { apply NoDup_ListNoDup. repeat constructor; simpl; intuition discriminate. }
  split; [exact Hnd|].
  destruct (parseMap_second_pass_reuses_everything keyMap sp [] None Hnd)
    as (st & cq' & d & Hrun & _ & _ & Hagain).
  exists st, cq', d. split; [exact Hrun|]. split; [|exact Hagain].
  vm_compute in Hrun. now injection Hrun as <- _ _.
Defined.

Lemma parseMapStep_diagnostics keyMap sp cs acc key d r x :
  parseMapStep keyMap sp cs acc key = (d, r) ->
  In x d ->
  exists p q e,
    obj_get keyMap key = Some p /\ getQuery sp key = Some q /\
    Parser.parse p q = Throw e /\ x = MkDiagnostic LevelWarn key q e.
Proof.
  unfold parseMapStep. destruct acc as [o cq].
  destruct (obj_get keyMap key) as [p|]; [|intros [= <- _] []].
  destruct (cacheHit cq cs key (getQuery sp key)); [intros [= <- _] []|].
  destruct (getQuery sp key) as [q|]; [|intros [= <- _] []].
  pose proof (safeParse_cases (Parser.parse p) q key) as Hs.
  destruct (Parser.parse p q) as [v|e] eqn:Hparse; rewrite Hs; simpl.
  - intros [= <- _] [].
  - intros [= <- _] [<-|[]]. eauto 7.
Qed.

Lemma reduce_diagnostics keyMap sp cs ks : forall acc d r x,
  reduce (parseMapStep keyMap sp cs) ks acc = (d, r) ->
  In x d ->
  exists key p q e,
    In key ks /\ obj_get keyMap key = Some p /\ getQuery sp key = Some q /\
    Parser.parse p q = Throw e /\ x = MkDiagnostic LevelWarn key q e.
Proof.
  induction ks as [|k0 ks IH]; intros acc d r x; cbn [reduce].
  - intros [= <- _] [].
  - unfold bind.
    destruct (parseMapStep keyMap sp cs acc k0) as [d1 [acc1|e1]] eqn:Hstep.
    + destruct (reduce (parseMapStep keyMap sp cs) ks acc1) as [d2 r2] eqn:Hred.
      intros [= <- _] Hin. apply in_app_or in Hin as [Hin|Hin].
      * destruct (parseMapStep_diagnostics _ _ _ _ _ _ _ _ Hstep Hin)
          as (p & q & e & H). exists k0, p, q, e. split; [now left|exact H].
      * destruct (IH _ _ _ _ Hred Hin) as (key & p & q & e & Hk & H).
        exists key, p, q, e. split; [now right|exact H].
    + intros [= <- _] Hin.
      destruct (parseMapStep_diagnostics _ _ _ _ _ _ _ _ Hstep Hin)
        as (p & q & e & H). exists k0, p, q, e. split; [now left|exact H].
Qed.

(** X3.  Whatever [parseMap] logs is the warning of a parse failure: every
    diagnostic names a key of the key map whose query in the URL the key's
    parser rejected by throwing.  A URL that every parser accepts is parsed
    silently. *)
Theorem parseMap_logs_only_parse_failures
    (keyMap : UseQueryStatesKeysMap) (sp : option URLSearchParams)
    (cq : option QueryCache) (cs : option Values) (x : Diagnostic) :
  In x (fst (parseMap keyMap sp cq cs)) ->
  exists key p q e,
    obj_get keyMap key = Some p /\ getQuery sp key = Some q /\
    Parser.parse p q = Throw e /\ x = MkDiagnostic LevelWarn key q e.
Proof.
  intros Hin. unfold parseMap in Hin.
  destruct (reduce _ _ _) as [d r] eqn:Hred. cbn [fst] in Hin.
  destruct (reduce_diagnostics _ _ _ _ _ _ _ _ Hred Hin)
    as (key & p & q & e & _ & H).
  eauto.
Qed.

Lemma parseMap_logs_only_parse_failures_witness :
  let keyMap := [("id", Examples.parseAsNever); ("q", Examples.parseAsString)] in
  let sp := Some [("id", "x"); ("q", "tea")] in
  let x := MkDiagnostic LevelWarn "id" "x" "cannot parse x" in
  In x (fst (parseMap keyMap sp None None)) /\
  exists key p q e,
    obj_get keyMap key = Some p /\ getQuery sp key = Some q /\
    Parser.parse p q = Throw e /\ x = MkDiagnostic LevelWarn key q e.
Proof.
  intros keyMap sp x.
  assert (Hin : In x (fst (parseMap keyMap sp None None))) by (now left).
  split; [exact Hin|].
  exact (parseMap_logs_only_parse_failures keyMap sp None None x Hin).
Defined.

(** ** The first render *)

Lemma parsedOrDefault_form p query :
  exists x, parsedOrDefault p query = x ?? Parser.defaultValue p ?? JNull.
Proof.
  unfold parsedOrDefault. destruct query as [q|]; [|now exists JNull].
  destruct (Parser.parse p q) as [x|e]; [now exists x|now exists JNull].
Qed.

Lemma resolveKey_miss p sp cq cs key d v :
  cacheHit cq cs key (getQuery sp key) = false ->
  resolveKey p sp cq cs key = (d, Normal v) ->
  v = parsedOrDefault p (getQuery sp key).
Proof.
  unfold resolveKey, parsedOrDefault. intros ->.
  destruct (getQuery sp key) as [q|]; simpl.
  - pose proof (safeParse_cases (Parser.parse p) q key) as Hs.
    destruct (Parser.parse p q); rewrite Hs; simpl; now intros [= _ <-].
  - now intros [= _ <-].
Qed.

(** The effect leaves the key map, the options and [stateRef] alone, and
    has run for the URL afterwards. *)
Lemma runEffect_static search b :
  keyMap (fst (runEffect search b)) = keyMap b /\
  hookOptions (fst (runEffect search b)) = hookOptions b /\
  stateRef (fst (runEffect search b)) = stateRef b /\
  inSync (fst (runEffect search b)) search.
Proof.
  unfold runEffect, inSync.
  destruct (bool_decide (effectDeps b = Some (depsOf (keyMap b) search))) eqn:E.
  - apply bool_decide_eq_true in E. cbn [fst]. auto.
  - destruct (parsed _ _ _) as [st cq]. cbn. auto.
Qed.

(** When the effect runs, each key gets what [parseMap] resolves for it
    from [queryRef] and [stateRef], and [queryRef] takes the URL's query. *)
Lemma runEffect_lookup search b k p :
  NoDup (obj_keys (keyMap b)) ->
  obj_get (keyMap b) k = Some p ->
  ~ inSync b search ->
  exists dk v,
    resolveKey p (Some search) (Some (queryRef b)) (Some (stateRef b)) k =
      (dk, Normal v) /\
    obj_get (internalState (fst (runEffect search b))) k = Some v /\
    obj_get (queryRef (fst (runEffect search b))) k = Some (sp_get search k).
Proof.
  intros Hnd Hp Hsync. unfold runEffect.
  rewrite bool_decide_false by exact Hsync.
  destruct (parseMap_lookup (keyMap b) (Some search) (Some (queryRef b))
              (Some (stateRef b)) Hnd)
    as (st & cq' & d & Hrun & Hc & _ & Hin).
  destruct cq' as [cq'|]; [|contradiction].
  unfold parsed. rewrite Hrun. cbn [snd fst internalState queryRef].
  destruct (Hin k p Hp) as (dk & v & Hr & Hv & _).
  exists dk, v. split; [exact Hr|]. split; [exact Hv|].
  cbn [cacheAfter] in Hc. rewrite Hc.
  destruct (in_dec _ _ _) as [|Hn]; [reflexivity|].
  exfalso. eauto using obj_get_Some_In.
Qed.

Lemma mount_instances km h w :
  let search := searchParams (adapter w) in
  let st := fst (parsed (parseMap km (Some search) None None) [] []) in
  instances (mount km h w) =
  (instances w ++
   [fst (runEffect search
           {| keyMap := km;
              hookOptions := h;
              queryRef := initQueryRef km search [];
              stateRef := st;
              internalState := st;
              effectDeps := None |})])%list.
Proof.
  intros search st. unfold mount. fold search.
  unfold st. destruct (parsed _ _ _) as [st0 c0]. cbn [fst].
  now destruct (runEffect _ _).
Qed.

(** The instance a mount adds, under the id it gets. *)
Lemma mount_new_instance km h w :
  let search := searchParams (adapter w) in
  let st := fst (parsed (parseMap km (Some search) None None) [] []) in
  instance (instances (mount km h w)) (length (instances w)) =
  fst (runEffect search
         {| keyMap := km;
            hookOptions := h;
            queryRef := initQueryRef km search [];
            stateRef := st;
            internalState := st;
            effectDeps := None |}).
Proof.
  intros search st. unfold instance.
  pose proof (mount_instances km h w) as Hinst. cbv zeta in Hinst.
  rewrite Hinst. now rewrite list_lookup_middle.
Qed.

(** The state of lines 85-88 and the state the effect sets right after are,
    key by key, the value parsed from the URL: on a cache hit the effect
    takes it from [stateRef], on a miss it parses the same query again. *)
Lemma mount_first_state km h w k p :
  NoDup (obj_keys km) ->
  obj_get km k = Some p ->
  let search := searchParams (adapter w) in
  let b := instance (instances (mount km h w)) (length (instances w)) in
  obj_get (stateRef b) k = Some (parsedOrDefault p (sp_get search k)) /\
  obj_get (internalState b) k = Some (parsedOrDefault p (sp_get search k)).
Proof.
  intros Hnd Hp search b.
  pose proof (mount_new_instance km h w) as Hb. cbv zeta in Hb.
  fold search b in Hb.
  set (st := fst (parsed (parseMap km (Some search) None None) [] [])) in Hb.
  set (b0 := {| keyMap := km; hookOptions := h;
                queryRef := initQueryRef km search [];
                stateRef := st; internalState := st; effectDeps := None |})
    in Hb.
  destruct (parseMap_lookup km (Some search) None None Hnd)
    as (st1 & cq1 & d1 & Hrun & _ & _ & Hin).
  assert (Hst : st = st1).
  { unfold st, parsed. rewrite Hrun. now destruct cq1. }
  destruct (Hin k p Hp) as (dk & v & Hr & Hv & _).
  apply resolveKey_miss in Hr; [|reflexivity]. cbn [getQuery] in Hr.
  rewrite <- Hst in Hv. subst v.
  destruct (runEffect_static search b0) as (_ & _ & Hs & _).
  rewrite Hb, Hs. cbn [stateRef b0]. split; [exact Hv|].
  destruct (runEffect_lookup search b0 k p Hnd Hp) as (dk2 & v2 & Hr2 & Hv2 & _).
  { unfold inSync. cbn. discriminate. }
  rewrite Hv2. f_equal. cbn [queryRef stateRef b0] in Hr2.
  destruct (cacheHit (Some (initQueryRef km search [])) (Some st) k
              (getQuery (Some search) k)) eqn:Hhit.
  - unfold resolveKey in Hr2. rewrite Hhit in Hr2. injection Hr2 as _ <-.
    unfold cachedValue. rewrite Hv. cbn [orElse].
    destruct (parsedOrDefault_form p (sp_get search k)) as [x ->].
    apply coalesce_idem.
  - apply (resolveKey_miss _ _ _ _ _ _ _ Hhit Hr2).
Qed.

(** X4.  The first render.  A hook mounted on a URL holds, for every key,
    the parsed value of the key's first entry in the URL, else the key's
    default, else null (a value the parser rejects counts as absent), both
    as rendered state and in [stateRef]; [stateRef] has the keys of the key
    map, the effect has run for the URL, and the instances mounted before
    are untouched. *)
Theorem mount_renders_url_value_or_default
    (w : World) (km : UseQueryStatesKeysMap) (h : HookOptions)
    (k : string) (p : KeyMapValue) :
  NoDup (obj_keys km) ->
  obj_get km k = Some p ->
  let search := searchParams (adapter w) in
  let w' := mount km h w in
  let b := instance (instances w') (length (instances w)) in
  keyMap b = km /\
  hookOptions b = h /\
  obj_keys (stateRef b) = obj_keys km /\
  obj_get (stateRef b) k = Some (parsedOrDefault p (sp_get search k)) /\
  obj_get (internalState b) k = Some (parsedOrDefault p (sp_get search k)) /\
  inSync b search /\
  (forall i bi, instances w !! i = Some bi -> instances w' !! i = Some bi).
Proof.
  intros Hnd Hp search w' b.
  destruct (mount_first_state km h w k p Hnd Hp) as [Hstate Hrendered].
  fold search b in Hstate, Hrendered.
  pose proof (mount_new_instance km h w) as Hb. cbv zeta in Hb.
  fold search w' b in Hb.
  set (st := fst (parsed (parseMap km (Some search) None None) [] [])) in Hb.
  set (b0 := {| keyMap := km; hookOptions := h;
                queryRef := initQueryRef km search [];
                stateRef := st; internalState := st; effectDeps := None |})
    in Hb.
  destruct (runEffect_static search b0) as (Hk & Hh & Hs & Hsync).
  rewrite <- Hb in Hk, Hh, Hs, Hsync. cbn [keyMap hookOptions stateRef b0] in *.
  split; [exact Hk|]. split; [exact Hh|]. split; [|split; [exact Hstate|]].
  - rewrite Hs. unfold st.
    destruct (parseMap_normal km (Some search) None None)
      as (st1 & cq1 & d1 & Hrun).
    destruct (parseMap_shape _ _ _ _ _ _ _ Hnd Hrun) as [Hkeys _].
    unfold parsed. rewrite Hrun. now destruct cq1.
  - split; [exact Hrendered|]. split; [exact Hsync|].
    intros i bi Hi. unfold w'. rewrite mount_instances. cbv zeta.
    now apply lookup_app_l_Some.
Qed.

Lemma mount_renders_url_value_or_default_witness :
  let km := [("id", Examples.withDefault Examples.parseAsNever (JNum 1));
             ("q", Examples.parseAsString)] in
  let w := emptyWorld [("q", "tea"); ("id", "x"); ("q", "milk")] in
  let b := instance (instances (mount km Examples.defaults w)) 0%nat in
  NoDup (obj_keys km) /\
  obj_get (internalState b) "q" = Some (JStr "tea") /\
  inSync b (searchParams (adapter w)).
Proof.
  intros km w b.
  assert (Hnd : NoDup (obj_keys km)).
  { apply NoDup_ListNoDup. repeat constructor; simpl; intuition discriminate. }
  split; [exact Hnd|].
  destruct (mount_renders_url_value_or_default w km Examples.defaults "q"
              Examples.parseAsString Hnd eq_refl)
    as (_ & _ & _ & _ & Hstate & Hsync & _).
  split; [exact Hstate|exact Hsync].
Defined.

(** ** Renders after the URL changed from outside *)




Lemma renderBinding_static search b :
  keyMap (fst (renderBinding search b)) = keyMap b /\
  hookOptions (fst (renderBinding search b)) = hookOptions b /\
  stateRef (fst (renderBinding search b)) = stateRef b /\
  inSync (fst (renderBinding search b)) search.
Proof.
  unfold renderBinding.
  exact (runEffect_static search
           {| keyMap := keyMap b;
              hookOptions := hookOptions b;
              queryRef := initQueryRef (keyMap b) search (queryRef b);
              stateRef := stateRef b;
              internalState := internalState b;
              effectDeps := effectDeps b |}).
Qed.

Lemma render_at bid w b :
  instances w !! bid = Some b ->
  instances (render bid w) !! bid =
  Some (fst (renderBinding (searchParams (adapter w)) b)).
Proof.
  intros Hb. rewrite render_lookup, Hb, bool_decide_true by reflexivity.
  reflexivity.
Qed.

(** X6.  A re-render after the URL changed from outside, for an instance
    whose query cache holds as many keys as the key map, so that lines
    81-83 leave it alone.  When the effect runs again, a key whose cached
    query differs from the URL's is parsed afresh: the rendered state takes
    the parsed value, else the default, else null, and the query cache
    takes the URL's query.  [stateRef] is not updated. *)
Theorem render_follows_external_url_change
    (w : World) (bid : nat) (b : Binding) (search : URLSearchParams)
    (k : string) (p : KeyMapValue) :
  instances w !! bid = Some b ->
  NoDup (obj_keys (keyMap b)) ->
  obj_get (keyMap b) k = Some p ->
  length (obj_keys (queryRef b)) = length (obj_keys (keyMap b)) ->
  obj_get (queryRef b) k <> Some (sp_get search k) ->
  ~ inSync b search ->
  exists b',
    instances (render bid (navigate search w)) !! bid = Some b' /\
    obj_get (internalState b') k = Some (parsedOrDefault p (sp_get search k)) /\
    obj_get (queryRef b') k = Some (sp_get search k) /\
    stateRef b' = stateRef b.
Proof.
  intros Hb Hnd Hp Hlen Hcache Hsync.
  rewrite (render_at bid (navigate search w) b Hb).
  cbn [navigate adapter searchParams].
  eexists. split; [reflexivity|].
  destruct (renderBinding_static search b) as (_ & _ & Hs & _).
  split; [|split; [|exact Hs]]; unfold renderBinding, initQueryRef;
    rewrite (proj2 (Nat.eqb_eq _ _) Hlen);
    set (b0 := {| keyMap := keyMap b; hookOptions := hookOptions b;
                  queryRef := queryRef b; stateRef := stateRef b;
                  internalState := internalState b;
                  effectDeps := effectDeps b |});
    destruct (runEffect_lookup search b0 k p Hnd Hp Hsync)
      as (dk & v & Hr & Hv & Hq).
  - rewrite Hv. f_equal.
    assert (Hmiss : cacheHit (Some (queryRef b0)) (Some (stateRef b0)) k
                      (getQuery (Some search) k) = false).
    { unfold cacheHit. cbn [queryRef b0 getQuery].
      destruct (queryEq (obj_get (queryRef b) k) (sp_get search k)) eqn:E;
        [|reflexivity].
      apply queryEq_true in E. contradiction. }
    exact (resolveKey_miss _ _ _ _ _ _ _ Hmiss Hr).
  - exact Hq.
Qed.

Lemma render_follows_external_url_change_witness :
  let km := [("a", Examples.parseAsInteger); ("b", Examples.parseAsInteger)] in
  let w := mount km Examples.defaults (emptyWorld [("a", "1")]) in
  let search := [("a", "5")] in
  let b := instance (instances w) 0%nat in
  NoDup (obj_keys km) /\
  length (obj_keys (queryRef b)) = length (obj_keys (keyMap b)) /\
  ~ inSync b search /\
  exists b',
    instances (render 0%nat (navigate search w)) !! 0%nat = Some b' /\
    obj_get (internalState b') "a" = Some (JNum 5).
Proof.
  intros km w search b.
  assert (Hnd : NoDup (obj_keys km)).
  { apply NoDup_ListNoDup. repeat constructor; simpl; intuition discriminate. }
  assert (Hlen : length (obj_keys (queryRef b)) = length (obj_keys (keyMap b)))
    by reflexivity.
  assert (Hsync : ~ inSync b search) by (vm_compute; discriminate).
  assert (Hcache : obj_get (queryRef b) "a" <> Some (sp_get search "a"))
    by (vm_compute; discriminate).
  split; [exact Hnd|]. split; [exact Hlen|]. split; [exact Hsync|].
  destruct (render_follows_external_url_change w 0%nat b search "a"
              Examples.parseAsInteger eq_refl Hnd eq_refl Hlen Hcache Hsync)
    as (b' & Hb' & Hi & _).
  exists b'. split; [exact Hb'|exact Hi].
Defined.

Lemma initQueryRef_reset km search cache k s :
  length (obj_keys cache) <> length (obj_keys km) ->
  sp_get search k = Some s ->
  (forall s', In (k, s') search -> s' = s) ->
  obj_get (initQueryRef km search cache) k = Some (Some s).
Proof.
  intros Hlen Hget Hall. unfold initQueryRef.
  rewrite (proj2 (Nat.eqb_neq _ _) Hlen).
  unfold fromEntries, sp_entries.
  rewrite (fold_obj_set_get _ _ k (Some s)).
  - rewrite map_map. cbn [fst].
    destruct (in_dec _ _ _) as [Hin|Hn]; [reflexivity|].
    exfalso. apply Hn. apply sp_get_In in Hget.
    now apply (in_map fst) in Hget.
  - intros v. rewrite in_map_iff. intros [[k' s'] [[= <- <-] Hin]].
    f_equal. now apply Hall.
Qed.

(** X7.  The same re-render when the query cache does not hold as many keys
    as the key map, as after a first render on a URL with parameters the
    hook does not manage.  Lines 81-83 then rebuild the cache from the URL
    before the effect runs, so a key the URL carries once is a cache hit
    whatever its value: the rendered state is [stateRef]'s value for the
    key (else the default, else null), and the URL's new value is not
    parsed. *)
Theorem render_reuses_stateRef_after_query_cache_reset
    (w : World) (bid : nat) (b : Binding) (search : URLSearchParams)
    (k s : string) (p : KeyMapValue) :
  instances w !! bid = Some b ->
  NoDup (obj_keys (keyMap b)) ->
  obj_get (keyMap b) k = Some p ->
  length (obj_keys (queryRef b)) <> length (obj_keys (keyMap b)) ->
  sp_get search k = Some s ->
  (forall s', In (k, s') search -> s' = s) ->
  ~ inSync b search ->
  exists b',
    instances (render bid (navigate search w)) !! bid = Some b' /\
    obj_get (internalState b') k =
      Some (cachedValue (Some (stateRef b)) k ?? Parser.defaultValue p ?? JNull) /\
    stateRef b' = stateRef b.
Proof.
  intros Hb Hnd Hp Hlen Hget Hall Hsync.
  rewrite (render_at bid (navigate search w) b Hb).
  cbn [navigate adapter searchParams].
  eexists. split; [reflexivity|].
  destruct (renderBinding_static search b) as (_ & _ & Hs & _).
  split; [|exact Hs]. unfold renderBinding.
  set (b0 := {| keyMap := keyMap b; hookOptions := hookOptions b;
                queryRef := initQueryRef (keyMap b) search (queryRef b);
                stateRef := stateRef b;
                internalState := internalState b;
                effectDeps := effectDeps b |}).
  destruct (runEffect_lookup search b0 k p Hnd Hp Hsync)
    as (dk & v & Hr & Hv & _).
  rewrite Hv. f_equal. cbn [queryRef stateRef b0] in Hr.
  rewrite resolveKey_hit in Hr.
  - now injection Hr as _ <-.
  - cbn [getQuery]. rewrite Hget.
    now apply initQueryRef_reset.
Qed.

Lemma render_reuses_stateRef_after_query_cache_reset_witness :
  let km := [("a", Examples.parseAsInteger)] in
  let w := mount km Examples.defaults (emptyWorld [("a", "1"); ("utm", "x")]) in
  let search := [("a", "5"); ("utm", "x")] in
  let b := instance (instances w) 0%nat in
  NoDup (obj_keys km) /\
  length (obj_keys (queryRef b)) <> length (obj_keys (keyMap b)) /\
  ~ inSync b search /\
  exists b',
    instances (render 0%nat (navigate search w)) !! 0%nat = Some b' /\
    obj_get (internalState b') "a" = Some (JNum 1).
Proof.
  intros km w search b.
  assert (Hnd : NoDup (obj_keys km)).
  { apply NoDup_ListNoDup. repeat constructor; simpl; intuition discriminate. }
  assert (Hlen : length (obj_keys (queryRef b)) <> length (obj_keys (keyMap b)))
    by (vm_compute; lia).
  assert (Hsync : ~ inSync b search) by (vm_compute; discriminate).
  assert (Hall : forall s', In ("a", s') search -> s' = "5").
  { intros s' [[= <-]|[[=]|[]]]. reflexivity. }
  split; [exact Hnd|]. split; [exact Hlen|]. split; [exact Hsync|].
  destruct (render_reuses_stateRef_after_query_cache_reset w 0%nat b search
              "a" "5" Examples.parseAsInteger eq_refl Hnd eq_refl Hlen
              eq_refl Hall Hsync)
    as (b' & Hb' & Hi & _).
  exists b'. split; [exact Hb'|exact Hi].
Defined.

(** ** What moves [stateRef] *)

Lemma step_keeps_stateRef a w i b :
  isUpdate a = false ->
  instances w !! i = Some b ->
  exists b', instances (snd (step a w)) !! i = Some b' /\
             stateRef b' = stateRef b /\ keyMap b' = keyMap b /\
             hookOptions b' = hookOptions b.
Proof.
  intros Ha Hi. destruct a as [km h|bid|bid|bid su co now|now|search];
    try discriminate; cbn [step snd].
  - exists b. rewrite mount_instances. cbv zeta.
    split; [now apply lookup_app_l_Some|auto].
  - exists b. auto.
  - rewrite render_lookup, Hi. cbn [fmap option_fmap option_map].
    destruct (bool_decide (i = bid)); [|exists b; auto].
    destruct (renderBinding_static (searchParams (adapter w)) b)
      as (Hk & Hh & Hs & _).
    eexists. split; [reflexivity|auto].
  - exists b. rewrite flush_instances. auto.
  - exists b. auto.
Qed.

Lemma run_keeps_stateRef acts : forall w i b,
  forallb (fun a => negb (isUpdate a)) acts = true ->
  instances w !! i = Some b ->
  exists b', instances (snd (run acts w)) !! i = Some b' /\
             stateRef b' = stateRef b /\ keyMap b' = keyMap b /\
             hookOptions b' = hookOptions b.
Proof.
  induction acts as [|a acts IH]; intros w i b Hall Hi.
  - exists b. auto.
  - cbn [forallb] in Hall. apply andb_true_iff in Hall as [Ha Hall].
    apply negb_true_iff in Ha.
    destruct (step_keeps_stateRef a w i b Ha Hi) as (b1 & Hi1 & Hs1 & Hk1 & Hh1).
    destruct (IH (snd (step a w)) i b1 Hall Hi1) as (b2 & Hi2 & Hs2 & Hk2 & Hh2).
    exists b2. rewrite run_cons. cbn [snd].
    split; [exact Hi2|]. repeat split; congruence.
Qed.

(** X8.  [stateRef] is written by the handlers only.  Along any run without
    a call of [update] (mounting other hooks, re-rendering, flushing,
    unmounting, URL changes from outside) every mounted instance keeps its
    [stateRef], even where its rendered state follows the URL; an updater
    function passed to [update] afterwards receives that [stateRef]. *)
Theorem stateRef_moves_only_on_update
    (w : World) (acts : list Action) (i : nat) (b : Binding) :
  forallb (fun a => negb (isUpdate a)) acts = true ->
  instances w !! i = Some b ->
  let w' := snd (run acts w) in
  (exists b', instances w' !! i = Some b' /\ stateRef b' = stateRef b) /\
  forall f co now,
    update i (UpdaterFn f) co now w' =
    update i (Partial (f (stateRef b))) co now w'.
Proof.
  intros Hall Hi w'.
  destruct (run_keeps_stateRef acts w i b Hall Hi) as (b' & Hi' & Hs & _).
  split; [eauto|].
  intros f co now. subst w'. unfold update, instance. rewrite Hi'.
  cbn [newStateOf]. now rewrite Hs.
Qed.

Lemma stateRef_moves_only_on_update_witness :
  let km := [("a", Examples.parseAsInteger); ("b", Examples.parseAsInteger)] in
  let w := mount km Examples.defaults (emptyWorld [("a", "1")]) in
  let acts := [Navigate [("a", "5")]; Render 0%nat] in
  let w' := snd (run acts w) in
  obj_get (internalState (instance (instances w') 0%nat)) "a" = Some (JNum 5) /\
  exists b', instances w' !! 0%nat = Some b' /\
             obj_get (stateRef b') "a" = Some (JNum 1).
Proof.
  intros km w acts w'. split; [reflexivity|].
  destruct (stateRef_moves_only_on_update w acts 0%nat
              (instance (instances w) 0%nat) eq_refl eq_refl)
    as [(b' & Hb' & Hs) _].
  exists b'. split; [exact Hb'|]. now rewrite Hs.
Defined.

(** X9.  A handler publishes the whole of [stateRef] as the rendered state
    (lines 125-128 and 138).  When an instance takes a broadcast for a key
    from an [update], every key that the call does not write (no entry for
    it passes the test of line 169) is rendered with the value [stateRef]
    held for it before the call, whatever was rendered until then. *)
Theorem broadcast_renders_stateRef_for_other_keys
    (w : World) (bid i : nat) (B0 Bi : Binding) (su : StateUpdater)
    (co : Options) (now : Z) (k j : string) (v : jsval)
    (parser p : KeyMapValue) :
  instances w !! bid = Some B0 ->
  instances w !! i = Some Bi ->
  obj_get (keyMap B0) k = Some parser ->
  obj_get (keyMap Bi) k = Some p ->
  In i (Sync.handlers k (emitter w)) ->
  lastEntry (newStateOf (keyMap B0) (stateRef B0) su) k v ->
  (forall entry,
     In entry (newStateOf (keyMap B0) (stateRef B0) su) ->
     fst entry <> j \/ keyMapGet (keyMap B0) (fst entry) = None) ->
  exists Bi',
    instances (snd (update bid su co now w)) !! i = Some Bi' /\
    obj_get (internalState Bi') j = obj_get (stateRef Bi) j /\
    obj_get (stateRef Bi') j = obj_get (stateRef Bi) j.
Proof.
  intros Hbid Hi Hparser Hp Hsub Hlast Hother.
  rewrite (update_lookup bid su co now w B0 i Hbid), Hi.
  cbn [fmap option_fmap option_map].
  eexists. split; [reflexivity|].
  destruct (fold_entryOn_synced (bool_decide (i = bid)) (emitter w) i
              (keyMap B0) (hookOptions B0) co
              (newStateOf (keyMap B0) (stateRef B0) su) Bi k v parser p
              Hlast Hparser Hsub Hp) as (_ & _ & Hrendered).
  destruct (fold_entryOn_other (bool_decide (i = bid)) (emitter w) i
              (keyMap B0) (hookOptions B0) co
              (newStateOf (keyMap B0) (stateRef B0) su) Bi j Hother)
    as [Hstate _].
  rewrite Hrendered. split; exact Hstate.
Qed.

Lemma broadcast_renders_stateRef_for_other_keys_witness :
  let km := [("a", Examples.parseAsInteger); ("b", Examples.parseAsInteger)] in
  let w0 := mount km Examples.defaults (emptyWorld [("a", "1")]) in
  let w := render 0%nat (navigate [("a", "5")] w0) in
  let w' := snd (update 0%nat (Partial [("b", JNum 2)]) noOptions 0 w) in
  In 0%nat (Sync.handlers "b" (emitter w)) /\
  lastEntry [("b", JNum 2)] "b" (JNum 2) /\
  obj_get (internalState (instance (instances w) 0%nat)) "a" = Some (JNum 5) /\
  (exists B', instances w' !! 0%nat = Some B' /\
              obj_get (internalState B') "a" = Some (JNum 1)) /\
  sp_get (searchParams (adapter (flush 50 w'))) "a" = Some "5".
Proof.
  intros km w0 w w'.
  assert (Hsub : In 0%nat (Sync.handlers "b" (emitter w))) by (now left).
  assert (Hlast : lastEntry [("b", JNum 2)] "b" (JNum 2)).
  { exists [], []. split; [reflexivity|]. simpl. tauto. }
  split; [exact Hsub|]. split; [exact Hlast|]. split; [reflexivity|].
  split; [|reflexivity].
  destruct (broadcast_renders_stateRef_for_other_keys w 0%nat 0%nat
              (instance (instances w) 0%nat) (instance (instances w) 0%nat)
              (Partial [("b", JNum 2)]) noOptions 0 "b" "a" (JNum 2)
              Examples.parseAsInteger Examples.parseAsInteger
              eq_refl eq_refl eq_refl eq_refl Hsub Hlast)
    as (B' & HB' & Hi & _).
  - intros entry [<-|[]]. left. discriminate.
  - exists B'. split; [exact HB'|]. rewrite Hi. reflexivity.
Defined.

(** ** [update]: what it skips, what it leaves alone, what it writes *)

(** The clear-on-default test of lines 172-181 leaves a value alone when
    one of its conditions fails. *)
Lemma clearOnDefaultValue_keeps co parser h v :
  orElse (clearOnDefault co)
    (orElse (clearOnDefault (Parser.options parser)) (hookClearOnDefault h))
    = false \/
  Parser.defaultValue parser = JUndefined \/
  orElse (Parser.eq parser) strictEq v (Parser.defaultValue parser) = false ->
  clearOnDefaultValue co parser h v = v.
Proof.
  unfold clearOnDefaultValue. intros [-> | [-> | ->]].
  - reflexivity.
  - cbn [strictEq negb]. now rewrite !andb_false_r.
  - now rewrite andb_false_r.
Qed.

Lemma fold_updateEntry_managed bid km h co es w :
  fold_left (updateEntry bid km h co) es w =
  fold_left (updateEntry bid km h co) (List.filter (managed km) es) w.
Proof.
  revert w. induction es as [|[k v] es IH]; intros w; [reflexivity|].
  cbn [List.filter fold_left]. unfold managed at 1. cbn [fst].
  destruct (keyMapGet km k) as [p|] eqn:Hk.
  - cbn [fold_left]. apply IH.
  - unfold updateEntry at 2. rewrite Hk. apply IH.
Qed.

Lemma filter_managed_nil km (es : Values) :
  (forall entry, In entry es -> keyMapGet km (fst entry) = None) ->
  List.filter (managed km) es = [].
Proof.
  induction es as [|e es IH]; intros H; [reflexivity|].
  cbn [List.filter]. unfold managed at 1. rewrite (H e) by now left.
  apply IH. intros entry He. apply H. now right.
Qed.

(** X10.  The loop of [update] skips exactly the entries for which
    [keyMap[key]] reads as [undefined] (lines 168-171): [update] behaves as
    if they had not been passed.  When no entry is left, no instance and no
    pending update changes, and the call still returns the Promise of the
    next flush.  A key that is not in the key map but names a member of
    [Object.prototype] ([toString], [constructor], ...) is not skipped: the
    inherited member passes the test, and the value is queued for the key,
    serialized by [String], with nothing cleared. *)
Theorem update_skips_unmanaged_keys
    (w : World) (bid : nat) (su : StateUpdater) (co : Options) (now : Z) :
  let b := instance (instances w) bid in
  let newState := newStateOf (keyMap b) (stateRef b) su in
  let r := update bid su co now w in
  r = update bid (Partial (List.filter (managed (keyMap b)) newState)) co now w /\
  ((forall entry, In entry newState -> keyMapGet (keyMap b) (fst entry) = None) ->
   instances (snd r) = instances w /\
   UpdateQueue.updateQueue (queue (snd r)) = UpdateQueue.updateQueue (queue w) /\
   adapter (snd r) = adapter w /\
   fst r = nextHandle (queue w) /\
   UpdateQueue.flushPromiseCache (queue (snd r)) = Some (fst r)) /\
  (forall k v,
     lastEntry newState k v ->
     obj_get (keyMap b) k = None ->
     In k objectPrototype ->
     exists o, obj_get (UpdateQueue.updateQueue (queue (snd r))) k =
               Some (UpdateQueue.MkPendingUpdate
                       (UpdateQueue.serializeOrNull v String) o)).
Proof.
  intros b newState r. split; [|split].
  - unfold r, update. fold b. cbn [newStateOf]. fold newState.
    now rewrite (fold_updateEntry_managed bid (keyMap b) (hookOptions b) co
                   newState w).
  - intros Hnone.
    destruct (update_handle bid su co now w) as (Hfst & Hcache & _).
    destruct (update_queue bid su co now w) as (_ & _ & Hadapter & _).
    fold r in Hfst, Hcache, Hadapter.
    split; [|split; [|split; [|split]]]; try assumption.
    + unfold r. rewrite update_instances. fold b newState.
      rewrite fold_updateEntry_managed, filter_managed_nil by assumption.
      reflexivity.
    + unfold r. rewrite update_updateQueue. fold b newState.
      assert (E : forall q,
                 fold_left (enqueueEntry (keyMap b) (hookOptions b) co)
                           newState q = q).
      { clear - Hnone. induction newState as [|e es IH]; intros q; [reflexivity|].
        cbn [fold_left]. unfold enqueueEntry at 2. rewrite (Hnone e) by now left.
        apply IH. intros entry He. apply Hnone. now right. }
      now rewrite E.
    + now rewrite Hcache, Hfst.
  - intros k v Hlast Hown Hproto.
    unfold r. rewrite update_updateQueue. fold b newState.
    destruct (fold_enqueueEntry_member (keyMap b) (hookOptions b) co newState
                (queue w) k v inheritedMember Hlast
                (keyMapGet_inherited _ _ Hown Hproto)) as (o & Ho & _).
    rewrite (clearOnDefaultValue_keeps co inheritedMember (hookOptions b) v
               (or_intror (or_introl eq_refl))) in Ho.
    exists o. exact Ho.
Qed.

Lemma update_skips_unmanaged_keys_witness :
  let w := mount [("q", Examples.parseAsString)] Examples.defaults
             (emptyWorld [("page", "3")]) in
  let r := update 0%nat (Partial [("page", JNum 4)]) noOptions 0 w in
  let r' := update 0%nat (Partial [("page", JNum 4); ("toString", JStr "x")])
              noOptions 0 w in
  r = update 0%nat (Partial []) noOptions 0 w /\
  instances (snd r) = instances w /\
  UpdateQueue.flushPromiseCache (queue (snd r)) = Some (fst r) /\
  r' = update 0%nat (Partial [("toString", JStr "x")]) noOptions 0 w /\
  lastEntry [("page", JNum 4); ("toString", JStr "x")] "toString" (JStr "x") /\
  exists o, obj_get (UpdateQueue.updateQueue (queue (snd r'))) "toString" =
            Some (UpdateQueue.MkPendingUpdate (Some "x") o).
Proof.
  intros w r r'.
  destruct (update_skips_unmanaged_keys w 0%nat (Partial [("page", JNum 4)])
              noOptions 0) as (Heq & Hnone & _).
  destruct (update_skips_unmanaged_keys w 0%nat
              (Partial [("page", JNum 4); ("toString", JStr "x")])
              noOptions 0) as (Heq' & _ & Hproto).
  assert (Hlast : lastEntry [("page", JNum 4); ("toString", JStr "x")]
                    "toString" (JStr "x")).
  { exists [("page", JNum 4)], []. split; [reflexivity|]. simpl. tauto. }
  split; [exact Heq|].
  destruct Hnone as (Hi & _ & _ & _ & Hc).
  - intros entry [<-|[]]. reflexivity.
  - split; [exact Hi|]. split; [exact Hc|]. split; [exact Heq'|].
    split; [exact Hlast|].
    apply (Hproto "toString" (JStr "x") Hlast eq_refl).
    simpl. tauto.
Defined.

Lemma fold_entryOn_unsubscribed e i km h co es b :
  (forall entry, In entry es -> keyMapGet km (fst entry) <> None ->
     ~ In i (Sync.handlers (fst entry) e)) ->
  fold_left (entryOn false e i km h co) es b = b.
Proof.
  induction es as [|entry es IH]; intros H; [reflexivity|].
  cbn [fold_left].
  assert (E : entryOn false e i km h co b entry = b).
  { unfold entryOn. destruct (keyMapGet km (fst entry)) as [p|] eqn:Hp; [|reflexivity].
    destruct (in_dec Nat.eq_dec i (Sync.handlers (fst entry) e)) as [Hin|Hn];
      [|reflexivity].
    exfalso. apply (H entry); [now left|congruence|assumption]. }
  rewrite E. apply IH. intros entry' He. apply H. now right.
Qed.

(** X11.  [update] reaches other instances through the emitter only: an
    instance other than the caller that has no handler registered for any
    of the keys written (those whose entry passes the test of line 169) is
    left exactly as it was. *)
Theorem update_leaves_unsubscribed_instances
    (w : World) (bid i : nat) (B0 : Binding) (su : StateUpdater)
    (co : Options) (now : Z) :
  instances w !! bid = Some B0 ->
  i <> bid ->
  (forall entry,
     In entry (newStateOf (keyMap B0) (stateRef B0) su) ->
     keyMapGet (keyMap B0) (fst entry) <> None ->
     ~ In i (Sync.handlers (fst entry) (emitter w))) ->
  instances (snd (update bid su co now w)) !! i = instances w !! i.
Proof.
  intros Hbid Hne Hnone.
  rewrite (update_lookup bid su co now w B0 i Hbid).
  rewrite bool_decide_false by assumption.
  destruct (instances w !! i) as [b|]; [|reflexivity].
  cbn [fmap option_fmap option_map]. f_equal.
  now apply fold_entryOn_unsubscribed.
Qed.

Lemma update_leaves_unsubscribed_instances_witness :
  let w := mount [("page", Examples.parseAsInteger)] Examples.defaults
             (mount [("q", Examples.parseAsString)] Examples.defaults
                (emptyWorld [("page", "3")])) in
  1%nat <> 0%nat /\
  instances (snd (update 0%nat (Partial [("q", JStr "tea"); ("page", JNum 9)])
                    noOptions 0 w)) !! 1%nat =
  instances w !! 1%nat.
Proof.
  intros w.
  assert (Hne : 1%nat <> 0%nat) by lia.
  split; [exact Hne|].
  apply (update_leaves_unsubscribed_instances w 0%nat 1%nat
           (instance (instances w) 0%nat)
           (Partial [("q", JStr "tea"); ("page", JNum 9)]) noOptions 0
           eq_refl Hne).
  intros entry [<-|[<-|[]]]; vm_compute; intros H1 H2.
  - destruct H2 as [H2|[]]. discriminate.
  - congruence.
Defined.

(** X12.  The converse of clear-on-default.  A value other than null is
    queued as it is, serialized by the key's serializer, and is what the
    flush writes to the URL, when [clearOnDefault] resolves to false (call
    level, else the key's, else the hook's), or the key has no default, or
    the value is not equal to the default under the key's equality. *)
Theorem update_keeps_value_unless_default
    (w : World) (bid : nat) (b : Binding) (su : StateUpdater) (co : Options)
    (now : Z) (k : string) (v : jsval) (parser : KeyMapValue) :
  wfWorld w ->
  instances w !! bid = Some b ->
  obj_get (keyMap b) k = Some parser ->
  lastEntry (newStateOf (keyMap b) (stateRef b) su) k v ->
  v <> JNull ->
  orElse (clearOnDefault co)
    (orElse (clearOnDefault (Parser.options parser))
       (hookClearOnDefault (hookOptions b))) = false \/
  Parser.defaultValue parser = JUndefined \/
  orElse (Parser.eq parser) strictEq v (Parser.defaultValue parser) = false ->
  let w' := snd (update bid su co now w) in
  let serialized := orElse (Parser.serialize parser) String v in
  (exists o, obj_get (UpdateQueue.updateQueue (queue w')) k =
             Some (UpdateQueue.MkPendingUpdate (Some serialized) o)) /\
  forall now', sp_get (searchParams (adapter (flush now' w'))) k = Some serialized.
Proof.
  intros Hwf Hb Hp Hlast Hv Hkeep w' serialized.
  assert (Hq : exists o, obj_get (UpdateQueue.updateQueue (queue w')) k =
                 Some (UpdateQueue.MkPendingUpdate (Some serialized) o)).
  { unfold w'. rewrite update_updateQueue. unfold instance. rewrite Hb.
    destruct (fold_enqueueEntry_last (keyMap b) (hookOptions b) co _ (queue w)
                k v parser Hlast Hp) as (o & Ho & _).
    exists o. rewrite Ho.
    rewrite (clearOnDefaultValue_keeps co parser (hookOptions b) v Hkeep).
    unfold serializedOf, UpdateQueue.serializeOrNull, serialized.
    now destruct v. }
  split; [exact Hq|].
  intros now'. destruct Hq as (o & Ho).
  unfold w'. rewrite (flush_after_update bid su co now now' w k Hwf).
  fold w'. now rewrite Ho.
Qed.

Lemma update_keeps_value_unless_default_witness :
  let parser := Examples.withOptions
                  (Examples.withDefault Examples.parseAsInteger (JNum 0))
                  (MkOptions None None None None (Some true) None) in
  let w := mount [("count", parser)] Examples.defaults (emptyWorld []) in
  let co := MkOptions None None None None (Some false) None in
  let w' := snd (update 0%nat (Partial [("count", JNum 0)]) co 0 w) in
  wfWorld w /\
  lastEntry [("count", JNum 0)] "count" (JNum 0) /\
  sp_get (searchParams (adapter (flush 50 w'))) "count" = Some "0".
Proof.
  intros parser w co w'.
  assert (Hwf : wfWorld w) by idle_world.
  assert (Hlast : lastEntry [("count", JNum 0)] "count" (JNum 0)).
  { exists [], []. split; [reflexivity|]. simpl. tauto. }
  assert (Hv : JNum 0 <> JNull) by discriminate.
  split; [exact Hwf|]. split; [exact Hlast|].
  destruct (update_keeps_value_unless_default w 0%nat
              (instance (instances w) 0%nat) (Partial [("count", JNum 0)]) co 0
              "count" (JNum 0) parser Hwf eq_refl eq_refl Hlast Hv
              (or_introl eq_refl)) as [_ H].
  exact (H 50).
Defined.

(** X14.  Round trip through the URL.  After [update] wrote a value for a
    key and the flush ran, a hook mounted on the resulting URL renders that
    value for the key (its own default when the value is null), provided
    its parser reads the serialized value back. *)
Theorem update_flush_mount_round_trip
    (w : World) (bid : nat) (b : Binding) (su : StateUpdater) (co : Options)
    (now now' : Z) (k : string) (v : jsval) (parser : KeyMapValue)
    (km : UseQueryStatesKeysMap) (h : HookOptions) (p : KeyMapValue) :
  wfWorld w ->
  instances w !! bid = Some b ->
  obj_get (keyMap b) k = Some parser ->
  lastEntry (newStateOf (keyMap b) (stateRef b) su) k v ->
  NoDup (obj_keys km) ->
  obj_get km k = Some p ->
  let value := clearOnDefaultValue co parser (hookOptions b) v in
  readsBack p (serializedOf parser value) value ->
  let w1 := flush now' (snd (update bid su co now w)) in
  let fresh := instance (instances (mount km h w1)) (length (instances w1)) in
  obj_get (internalState fresh) k =
    Some (value ?? Parser.defaultValue p ?? JNull).
Proof.
  intros Hwf Hb Hparser Hlast Hnd Hp value Hrt w1 fresh.
  assert (Hurl : sp_get (searchParams (adapter w1)) k = serializedOf parser value).
  { unfold w1. rewrite (flush_after_update bid su co now now' w k Hwf).
    rewrite update_updateQueue. unfold instance. rewrite Hb.
    destruct (fold_enqueueEntry_last (keyMap b) (hookOptions b) co _ (queue w)
                k v parser Hlast Hparser) as (o & -> & _).
    reflexivity. }
  destruct (mount_first_state km h w1 k p Hnd Hp) as [_ Hstate].
  fold fresh in Hstate. rewrite Hstate, Hurl. f_equal.
  unfold parsedOrDefault.
  destruct (serializedOf parser value) as [s|] eqn:Hser.
  - destruct (Hrt s eq_refl) as (x & -> & Hx). exact Hx.
  - now rewrite (serializedOf_None parser value Hser).
Qed.

Lemma update_flush_mount_round_trip_witness :
  let km := [("count", Examples.withDefault Examples.parseAsInteger (JNum 0))] in
  let w := mount km Examples.defaults (emptyWorld [("count", "3")]) in
  let w1 := flush 50 (snd (update 0%nat (Partial [("count", JNum 7)])
                             noOptions 0 w)) in
  let fresh := instance (instances (mount km Examples.defaults w1)) 1%nat in
  wfWorld w /\
  NoDup (obj_keys km) /\
  lastEntry [("count", JNum 7)] "count" (JNum 7) /\
  readsBack (Examples.withDefault Examples.parseAsInteger (JNum 0))
            (Some "7") (JNum 7) /\
  obj_get (internalState fresh) "count" = Some (JNum 7).
Proof.
  intros km w w1 fresh.
  assert (Hwf : wfWorld w) by idle_world.
  assert (Hnd : NoDup (obj_keys km)).
  { apply NoDup_ListNoDup. repeat constructor; simpl; intuition discriminate. }
  assert (Hlast : lastEntry [("count", JNum 7)] "count" (JNum 7)).
  { exists [], []. split; [reflexivity|]. simpl. tauto. }
  assert (Hrt : readsBack (Examples.withDefault Examples.parseAsInteger (JNum 0))
                  (Some "7") (JNum 7)).
  { intros s [= <-]. exists (JNum 7). split; reflexivity. }
  split; [exact Hwf|]. split; [exact Hnd|]. split; [exact Hlast|].
  split; [exact Hrt|].
  exact (update_flush_mount_round_trip w 0%nat (instance (instances w) 0%nat)
              (Partial [("count", JNum 7)]) noOptions 0 50 "count" (JNum 7)
              (Examples.withDefault Examples.parseAsInteger (JNum 0))
              km Examples.defaults
              (Examples.withDefault Examples.parseAsInteger (JNum 0))
              Hwf eq_refl eq_refl Hlast Hnd eq_refl Hrt).
Defined.

(** ** Subscribing and unsubscribing *)

Lemma fold_on bid ks : forall e,
  fold_left (fun e key => Sync.on key bid e) ks e =
  (e ++ map (fun key => (key, bid)) ks)%list.
Proof.
  induction ks as [|k0 ks IH]; intros e; cbn [fold_left map].
  - now rewrite app_nil_r.
  - rewrite IH. unfold Sync.on. now rewrite <- app_assoc.
Qed.

Lemma off_app_fresh key h (e l : Sync.Emitter) :
  ~ In (key, h) e ->
  Sync.off key h (e ++ l)%list = (e ++ Sync.off key h l)%list.
Proof.
  induction e as [|[k h0] e IH]; intros Hfresh; [reflexivity|].
  cbn [app Sync.off].
  destruct (String.eqb_spec k key) as [->|Hk]; cbn [andb].
  - destruct (Nat.eqb_spec h0 h) as [->|Hh].
    + exfalso. apply Hfresh. now left.
    + f_equal. apply IH. intros H. apply Hfresh. now right.
  - f_equal. apply IH. intros H. apply Hfresh. now right.
Qed.

Lemma fold_off_on bid ks (e : Sync.Emitter) :
  (forall key, ~ In (key, bid) e) ->
  fold_left (fun e key => Sync.off key bid e) ks
            (e ++ map (fun key => (key, bid)) ks)%list = e.
Proof.
  intros Hfresh. induction ks as [|k0 ks IH]; cbn [fold_left map].
  - apply app_nil_r.
  - rewrite off_app_fresh by apply Hfresh.
    cbn [Sync.off]. now rewrite String.eqb_refl, Nat.eqb_refl.
Qed.

Lemma In_off key h (e : Sync.Emitter) x : In x (Sync.off key h e) -> In x e.
Proof.
  induction e as [|[k h0] e IH]; [tauto|]. cbn [Sync.off].
  destruct (String.eqb k key && Nat.eqb h0 h); simpl; tauto.
Qed.

Lemma updateEntry_length bid km h co w entry :
  length (instances (updateEntry bid km h co w entry)) = length (instances w).
Proof.
  unfold updateEntry. destruct entry as [key value].
  destruct (keyMapGet km key) as [parser|]; [|reflexivity].
  destruct (UpdateQueue.enqueueQueryStringUpdate _ _ _ _ _) as [serialized q'].
  cbn [instances]. unfold Sync.emit.
  set (payload := {| state := _; query := _ |}). clearbody payload.
  assert (H : forall hs bs,
            length (fold_left (fun s h0 => syncHandler h0 key payload s) hs bs) =
            length bs).
  { induction hs as [|h0 hs IH]; intros bs; cbn [fold_left]; [reflexivity|].
    rewrite IH. unfold syncHandler. apply length_alter. }
  rewrite H. unfold setQueryRef. apply length_alter.
Qed.

Lemma update_length bid su co now w :
  length (instances (snd (update bid su co now w))) = length (instances w).
Proof.
  rewrite update_instances.
  generalize (newStateOf (keyMap (instance (instances w) bid))
                (stateRef (instance (instances w) bid)) su).
  generalize (keyMap (instance (instances w) bid)),
             (hookOptions (instance (instances w) bid)).
  intros km h es. revert w.
  induction es as [|e es IH]; intros w; cbn [fold_left]; [reflexivity|].
  now rewrite IH, updateEntry_length.
Qed.

(** A step never drops an instance, and a handler it registers belongs to
    the instance it has just mounted. *)
Lemma step_length a w :
  (length (instances w) <= length (instances (snd (step a w))))%nat /\
  (forall x, In x (emitter (snd (step a w))) ->
     In x (emitter w) \/ snd x = length (instances w) /\
                         length (instances (snd (step a w))) =
                         S (length (instances w))).
Proof.
  destruct a as [km h|bid|bid|bid su co now|now|search]; cbn [step snd].
  - rewrite mount_instances. cbv zeta. rewrite length_app. cbn [length].
    split; [lia|]. intros x. unfold mount.
    destruct (parsed _ _ _) as [st c]. destruct (runEffect _ _) as [b d].
    cbn [emitter]. rewrite fold_on, in_app_iff, in_map_iff.
    intros [H|(key & <- & _)]; [now left|right]. split; [reflexivity|lia].
  - split; [reflexivity|]. intros x. unfold unmount. cbn [emitter].
    generalize (obj_keys (keyMap (instance (instances w) bid))).
    intros ks. generalize (emitter w).
    induction ks as [|k0 ks IH]; intros e; cbn [fold_left]; [now left|].
    intros H. apply IH in H as [H|H]; [|now right].
    left. now apply In_off in H.
  - split.
    + unfold render. destruct (instances w !! bid); [|reflexivity].
      destruct (renderBinding _ _). cbn [instances]. now rewrite length_insert.
    + intros x. unfold render.
      destruct (instances w !! bid); [destruct (renderBinding _ _)|]; now left.
  - destruct (update bid su co now w) as [p w'] eqn:E. cbn [snd].
    assert (Hw' : w' = snd (update bid su co now w)) by now rewrite E.
    rewrite Hw'. split.
    + now rewrite update_length.
    + intros x. destruct (update_queue bid su co now w) as (_ & _ & _ & He).
      rewrite He. now left.
  - split; [now rewrite flush_instances|].
    intros x. unfold flush. destruct (UpdateQueue.flush _ _ _). now left.
  - split; [reflexivity|]. now left.
Qed.

Lemma run_emitter_bounded acts : forall w,
  (forall x, In x (emitter w) -> (snd x < length (instances w))%nat) ->
  forall x, In x (emitter (snd (run acts w))) ->
            (snd x < length (instances (snd (run acts w))))%nat.
Proof.
  induction acts as [|a acts IH]; intros w Hw; [exact Hw|].
  rewrite run_cons. cbn [snd]. apply IH.
  destruct (step_length a w) as [Hlen Hin].
  intros x Hx. destruct (Hin x Hx) as [H|[H1 H2]].
  - apply Hw in H. lia.
  - lia.
Qed.

Lemma mount_keyMap km h w :
  keyMap (instance (instances (mount km h w)) (length (instances w))) = km.
Proof.
  pose proof (mount_new_instance km h w) as Hb. cbv zeta in Hb. rewrite Hb.
  apply runEffect_static.
Qed.

(** X15.  The cleanup of the insertion effect undoes its subscriptions.  In
    a world reached by any run from the empty one, mounting a hook
    registers a handler of the new instance for each of its keys, and
    unmounting that instance leaves the emitter exactly as it was before
    the mount. *)
Theorem unmount_removes_what_mount_subscribed
    (search : URLSearchParams) (acts : list Action)
    (km : UseQueryStatesKeysMap) (h : HookOptions) :
  let w := snd (run acts (emptyWorld search)) in
  let bid := length (instances w) in
  (forall k, In k (obj_keys km) ->
     In bid (Sync.handlers k (emitter (mount km h w)))) /\
  emitter (unmount bid (mount km h w)) = emitter w.
Proof.
  intros w bid.
  assert (Hfresh : forall key, ~ In (key, bid) (emitter w)).
  { intros key Hin.
    apply (run_emitter_bounded acts (emptyWorld search)) in Hin.
    - cbn [snd] in Hin. fold w in Hin. unfold bid in Hin. lia.
    - intros x []. }
  assert (He : emitter (mount km h w) =
               (emitter w ++ map (fun key => (key, bid)) (obj_keys km))%list).
  { unfold mount. destruct (parsed _ _ _) as [st c].
    destruct (runEffect _ _) as [b d]. cbn [emitter]. apply fold_on. }
  split.
  - intros k Hk. rewrite He. unfold Sync.handlers.
    apply in_map_iff. exists (k, bid). split; [reflexivity|].
    apply filter_In. split; [|apply String.eqb_refl].
    apply in_or_app. right. apply in_map_iff. eauto.
  - unfold unmount. cbn [emitter]. unfold bid. rewrite mount_keyMap.
    rewrite He. now apply fold_off_on.
Qed.

Lemma unmount_removes_what_mount_subscribed_witness :
  let km := [("q", Examples.parseAsString)] in
  let w := snd (run [Mount km Examples.defaults] (emptyWorld [])) in
  In 1%nat (Sync.handlers "q" (emitter (mount km Examples.defaults w))) /\
  emitter (unmount 1%nat (mount km Examples.defaults w)) = [("q", 0%nat)].
Proof.
  intros km w.
  destruct (unmount_removes_what_mount_subscribed []
              [Mount km Examples.defaults] km Examples.defaults) as [Hsub Hoff].
  split.
  - apply (Hsub "q"). now left.
  - exact Hoff.
Defined.
